(** * A shallow embedding of the todo-list manager (class [TodoList])

    The development follows the storage-backed variant of the class
    (the one whose constructor calls [loadFromStorage]) together with the
    [StorageUtils] adapter it writes through.

    - JavaScript strings are sequences of UTF-16 code units, here [list N].
    - A [Date] is either a time value (milliseconds since the epoch) or
      the invalid date.
    - [JSON.stringify], [JSON.parse], [Date.prototype.toISOString] and the
      string methods the class calls are written out; what the platform
      decides (the clock, the random digits, whether [setItem] throws,
      how [new Date] reads a string) is a parameter, the [Platform].
    - The operations run in a small state-and-exception monad over a
      [World]: the fields of the instance, the content of [localStorage],
      and counters that index the readings of the platform (clock, random
      numbers, outcome of [localStorage.setItem]).  A thrown exception
      keeps the state reached so far, as in JavaScript.
    - A session starts from the empty instance with nothing in storage.
      The constructor, which reads back what an earlier session stored,
      is a call of its own: [TodoList_constructor].
    - A record of the collection is its five properties.  An object
      that came in through [importTodos] or through storage can have
      more, which the source keeps and writes back; that is not
      represented (see [imported_todo] and [Loaded]).

    Part I holds the embedding and the vocabulary of the statements,
    Part II the properties. *)

From Stdlib Require Import ZArith Lia String Ascii.
From stdpp Require Import base tactics option list numbers strings.

Set Warnings "-register-all".
Open Scope Z_scope.

(** ** JavaScript strings *)

Local Open Scope N_scope.

Abbreviation jsstring := (list N).

Fixpoint u16 (s : string) : jsstring :=
  match s with
  | EmptyString => []
  | String c s' => N_of_ascii c :: u16 s'
  end.

(** [WhiteSpace] and [LineTerminator] of ECMAScript: what [\s] matches and
    what [String.prototype.trim] strips. *)
Definition isWhiteSpace (c : N) : bool :=
  (c =? 0x9) || (c =? 0xA) || (c =? 0xB) || (c =? 0xC) || (c =? 0xD) ||
  (c =? 0x20) || (c =? 0xA0) || (c =? 0x1680) ||
  ((0x2000 <=? c) && (c <=? 0x200A)) ||
  (c =? 0x2028) || (c =? 0x2029) || (c =? 0x202F) || (c =? 0x205F) ||
  (c =? 0x3000) || (c =? 0xFEFF).

Fixpoint trimStart (s : jsstring) : jsstring :=
  match s with
  | [] => []
  | c :: s' => if isWhiteSpace c then trimStart s' else s
  end.

Definition trimEnd (s : jsstring) : jsstring := rev (trimStart (rev s)).

Definition trim (s : jsstring) : jsstring := trimEnd (trimStart s).

(** [s.replace(/\s+/g, ' ')]: every maximal run of white space becomes one
    space.  [in_run] tells that the previous code unit was white space. *)
Fixpoint replace_runs (in_run : bool) (s : jsstring) : jsstring :=
  match s with
  | [] => []
  | c :: s' =>
      if isWhiteSpace c
      then (if in_run then replace_runs true s' else 0x20 :: replace_runs true s')
      else c :: replace_runs false s'
  end.

Definition replace_whitespace_runs (s : jsstring) : jsstring := replace_runs false s.

(** ** Numbers as text *)

Local Open Scope Z_scope.

Definition digit_char (d : Z) : N := Z.to_N (if d <? 10 then 48 + d else 87 + d).

(** [fuel] bounds the number of digits; [Z.log2 n + 1] is always enough. *)
Fixpoint digits_in_base (base : Z) (fuel : nat) (n : Z) : jsstring :=
  match fuel with
  | O => []
  | S fuel' =>
      if n <? base then [digit_char n]
      else digits_in_base base fuel' (n / base) ++ [digit_char (n mod base)]
  end.

(** [Number.prototype.toString(36)] on an integer. *)
Definition toString36 (n : Z) : jsstring :=
  if n <? 0
  then 45%N :: digits_in_base 36 (S (Z.to_nat (Z.log2 (- n)))) (- n)
  else digits_in_base 36 (S (Z.to_nat (Z.log2 n))) n.

(** Decimal digits, padded on the left with zeros to [width] digits. *)
Fixpoint pad (width : nat) (n : Z) : jsstring :=
  match width with
  | O => []
  | S w => pad w (n / 10) ++ [Z.to_N (48 + n mod 10)]
  end.

Definition is_digit (c : N) : bool := ((48 <=? c) && (c <=? 57))%N.

(** [n] decimal digits at the head of [s]: their value on top of [acc]
    and the rest of [s]. *)
Fixpoint read_digits (n : nat) (acc : Z) (s : jsstring) : option (Z * jsstring) :=
  match n with
  | O => Some (acc, s)
  | S n' =>
      match s with
      | c :: s' =>
          if is_digit c then read_digits n' (10 * acc + (Z.of_N c - 48)) s' else None
      | [] => None
      end
  end.

(** The code unit [c] at the head of [s]: the rest of [s]. *)
Definition expect (c : N) (s : jsstring) : option jsstring :=
  match s with
  | c' :: s' => if (c' =? c)%N then Some s' else None
  | [] => None
  end.

(** ** Dates *)

Inductive Date :=
| ValidDate (time : Z)
| InvalidDate.

Definition msPerDay : Z := 86400000.

(** The largest time value of a Date, 8.64e15 ms on either side of the epoch. *)
Definition maxTime : Z := 8640000000000000.

Definition time_in_range (t : Z) : Prop := - maxTime <= t <= maxTime.

(** Day of the 400-year era that starts on 0000-03-01 to the year of the
    era, the month and the day of the month. *)
Definition civil_from_day_of_era (doe : Z) : Z * Z * Z :=
  let yoe := (doe - doe / 1460 + doe / 36524 - doe / 146096) / 365 in
  let doy := doe - (365 * yoe + yoe / 4 - yoe / 100) in
  let mp := (5 * doy + 2) / 153 in
  let d := doy - (153 * mp + 2) / 5 + 1 in
  let m := if mp <? 10 then mp + 3 else mp - 9 in
  (if m <=? 2 then yoe + 1 else yoe, m, d).

(** Day number (days since 1970-01-01) to proleptic Gregorian year, month
    and day of the month. *)
Definition civil_from_days (z : Z) : Z * Z * Z :=
  let z := z + 719468 in
  let era := z / 146097 in
  let doe := z - era * 146097 in
  let '(y, m, d) := civil_from_day_of_era doe in
  (y + era * 400, m, d).

Definition days_from_civil (y m d : Z) : Z :=
  let y := if m <=? 2 then y - 1 else y in
  let era := y / 400 in
  let yoe := y - era * 400 in
  let doy := (153 * (if 2 <? m then m - 3 else m + 9) + 2) / 5 + d - 1 in
  let doe := yoe * 365 + yoe / 4 - yoe / 100 + doy in
  era * 146097 + doe - 719468.

Definition iso_year (y : Z) : jsstring :=
  if (0 <=? y) && (y <=? 9999) then pad 4 y
  else (if y <? 0 then 45%N else 43%N) :: pad 6 (Z.abs y).

(** [Date.prototype.toISOString] on a time value: YYYY-MM-DDTHH:mm:ss.sssZ,
    with a sign and six digits for years outside 0..9999. *)
Definition toISOString_time (t : Z) : jsstring :=
  let day := t / msPerDay in
  let ms := t mod msPerDay in
  let '(y, m, d) := civil_from_days day in
  (iso_year y ++ [45] ++ pad 2 m ++ [45] ++ pad 2 d ++ [84] ++
   pad 2 (ms / 3600000) ++ [58] ++ pad 2 (ms / 60000 mod 60) ++ [58] ++
   pad 2 (ms / 1000 mod 60) ++ [46] ++ pad 3 (ms mod 1000) ++ [90])%N.

Definition is_leap (y : Z) : bool :=
  (y mod 4 =? 0) && (negb (y mod 100 =? 0) || (y mod 400 =? 0)).

Definition days_in_month (y m : Z) : Z :=
  if m =? 2 then (if is_leap y then 29 else 28)
  else if (m =? 4) || (m =? 6) || (m =? 9) || (m =? 11) then 30 else 31.

(** The fields of YYYY-MM-DDTHH:mm:ss.sssZ after the sign, the year
    having [ylen] digits. *)
Definition read_iso_fields (ylen : nat) (body : jsstring) : option (Z * Z * Z * Z * Z * Z * Z) :=
  '(y, s) ← read_digits ylen 0 body;
  s ← expect 45 s;
  '(m, s) ← read_digits 2 0 s;
  s ← expect 45 s;
  '(d, s) ← read_digits 2 0 s;
  s ← expect 84 s;
  '(h, s) ← read_digits 2 0 s;
  s ← expect 58 s;
  '(mi, s) ← read_digits 2 0 s;
  s ← expect 58 s;
  '(sec, s) ← read_digits 2 0 s;
  s ← expect 46 s;
  '(ms, s) ← read_digits 3 0 s;
  s ← expect 90 s;
  match s with
  | [] => Some (y, m, d, h, mi, sec, ms)
  | _ => None
  end.

(** The date that the fields stand for, if they are the fields of a date
    of the calendar in the range of a Date. *)
Definition date_of_fields (negative : bool) (fields : option (Z * Z * Z * Z * Z * Z * Z)) : Date :=
  match fields with
  | Some (y, m, d, h, mi, sec, ms) =>
      let y := if negative then - y else y in
      if negb (negative && (y =? 0)) &&
         (1 <=? m) && (m <=? 12) && (1 <=? d) && (d <=? days_in_month y m) &&
         (h <=? 23) && (mi <=? 59) && (sec <=? 59)
      then
        let t := days_from_civil y m d * msPerDay + h * 3600000 + mi * 60000 + sec * 1000 + ms in
        if (- maxTime <=? t) && (t <=? maxTime) then ValidDate t else InvalidDate
      else InvalidDate
  | None => InvalidDate
  end.

(** A parser for the format [toISOString] writes (the year -000000 is not
    a year of that format); every other string is an invalid date.  What
    [new Date(string)] makes of other strings is left to each JavaScript
    engine, so the operations below take the parser from the [Platform];
    this one is the instance used in the worked examples. *)
Definition parse_iso (s : jsstring) : Date :=
  match s with
  | c :: r =>
      if (c =? 43)%N then date_of_fields false (read_iso_fields 6 r)
      else if (c =? 45)%N then date_of_fields true (read_iso_fields 6 r)
      else date_of_fields false (read_iso_fields 4 s)
  | [] => InvalidDate
  end.

Local Open Scope N_scope.

(** ** JSON text

    [JSON.stringify] and [JSON.parse] on the values a todo list can hold.
    A number keeps its literal: no operation looks inside one. *)

Inductive JSON :=
| JNull
| JBool (b : bool)
| JNumber (literal : jsstring)
| JString (s : jsstring)
| JArray (elements : list JSON)
| JObject (members : list (jsstring * JSON)).

Definition hex_digit (d : N) : N := digit_char (Z.of_N d).

Definition unicode_escape (c : N) : jsstring :=
  [92; 117; hex_digit (c / 4096 mod 16); hex_digit (c / 256 mod 16);
   hex_digit (c / 16 mod 16); hex_digit (c mod 16)].

Definition is_high_surrogate (c : N) : bool := (0xD800 <=? c) && (c <=? 0xDBFF).
Definition is_low_surrogate (c : N) : bool := (0xDC00 <=? c) && (c <=? 0xDFFF).

(** One code unit that is not part of a surrogate pair, as QuoteJSONString
    writes it. *)
Definition quote_unit (c : N) : jsstring :=
  if c =? 0x8 then [92; 98]
  else if c =? 0x9 then [92; 116]
  else if c =? 0xA then [92; 110]
  else if c =? 0xC then [92; 102]
  else if c =? 0xD then [92; 114]
  else if c =? 0x22 then [92; 34]
  else if c =? 0x5C then [92; 92]
  else if (c <? 0x20) || is_high_surrogate c || is_low_surrogate c then unicode_escape c
  else [c].

Fixpoint quote_units (s : jsstring) : jsstring :=
  match s with
  | [] => []
  | c :: s' =>
      if is_high_surrogate c then
        match s' with
        | c' :: s'' =>
            if is_low_surrogate c' then c :: c' :: quote_units s''
            else unicode_escape c ++ quote_units s'
        | [] => unicode_escape c
        end
      else quote_unit c ++ quote_units s'
  end.

Definition quote (s : jsstring) : jsstring := [34] ++ quote_units s ++ [34].

Fixpoint join_with (sep : jsstring) (parts : list jsstring) : jsstring :=
  match parts with
  | [] => []
  | [x] => x
  | x :: rest => x ++ sep ++ join_with sep rest
  end.

(** SerializeJSONProperty with the gap [gap] at the indentation [indent]. *)
Fixpoint serialize (gap indent : jsstring) (v : JSON) : jsstring :=
  match v with
  | JNull => u16 "null"
  | JBool true => u16 "true"
  | JBool false => u16 "false"
  | JNumber literal => literal
  | JString s => quote s
  | JArray [] => u16 "[]"
  | JArray elements =>
      let stepback := indent in
      let indent := indent ++ gap in
      let parts := map (serialize gap indent) elements in
      match gap with
      | [] => [91] ++ join_with [44] parts ++ [93]
      | _ => [91; 10] ++ indent ++ join_with ([44; 10] ++ indent) parts ++ [10] ++ stepback ++ [93]
      end
  | JObject [] => u16 "{}"
  | JObject members =>
      let stepback := indent in
      let indent := indent ++ gap in
      let colon := match gap with [] => [58] | _ => [58; 32] end in
      let parts := map (fun m => quote (fst m) ++ colon ++ serialize gap indent (snd m)) members in
      match gap with
      | [] => [123] ++ join_with [44] parts ++ [125]
      | _ => [123; 10] ++ indent ++ join_with ([44; 10] ++ indent) parts ++ [10] ++ stepback ++ [125]
      end
  end.

(** [JSON.stringify(value)] and [JSON.stringify(value, null, 2)]. *)
Definition JSON_stringify (v : JSON) : jsstring := serialize [] [] v.
Definition JSON_stringify_2 (v : JSON) : jsstring := serialize [32; 32] [] v.

Definition is_json_ws (c : N) : bool :=
  (c =? 0x20) || (c =? 0x9) || (c =? 0xA) || (c =? 0xD).

Fixpoint skip_ws (s : jsstring) : jsstring :=
  match s with
  | [] => []
  | c :: s' => if is_json_ws c then skip_ws s' else s
  end.

Definition hex_value (c : N) : option N :=
  if (48 <=? c) && (c <=? 57) then Some (c - 48)
  else if (97 <=? c) && (c <=? 102) then Some (c - 87)
  else if (65 <=? c) && (c <=? 70) then Some (c - 55)
  else None.

Definition hex4_value (a b c d : N) : option N :=
  match hex_value a, hex_value b, hex_value c, hex_value d with
  | Some x3, Some x2, Some x1, Some x0 => Some (x3 * 4096 + x2 * 256 + x1 * 16 + x0)
  | _, _, _, _ => None
  end.

Definition simple_escape (c : N) : option N :=
  if c =? 34 then Some 34
  else if c =? 92 then Some 92
  else if c =? 47 then Some 47
  else if c =? 98 then Some 0x8
  else if c =? 102 then Some 0xC
  else if c =? 110 then Some 0xA
  else if c =? 114 then Some 0xD
  else if c =? 116 then Some 0x9
  else None.

(** The rest of a string literal, after its opening quote: the string and
    what follows the closing quote. *)
Fixpoint parse_string_body (s : jsstring) : option (jsstring * jsstring) :=
  match s with
  | [] => None
  | c :: s' =>
      if c =? 34 then Some ([], s')
      else if c =? 92 then
        match s' with
        | [] => None
        | e :: s'' =>
            if e =? 117 then
              match s'' with
              | h3 :: h2 :: h1 :: h0 :: r =>
                  match hex4_value h3 h2 h1 h0, parse_string_body r with
                  | Some u, Some (str, rest) => Some (u :: str, rest)
                  | _, _ => None
                  end
              | _ => None
              end
            else
              match simple_escape e, parse_string_body s'' with
              | Some u, Some (str, rest) => Some (u :: str, rest)
              | _, _ => None
              end
        end
      else if c <? 0x20 then None
      else
        match parse_string_body s' with
        | Some (str, rest) => Some (c :: str, rest)
        | None => None
        end
  end.

Fixpoint span_digits (s : jsstring) : jsstring * jsstring :=
  match s with
  | c :: s' =>
      if is_digit c then let '(ds, r) := span_digits s' in (c :: ds, r) else ([], s)
  | [] => ([], [])
  end.

(** A number literal at the head of [s]: -? int frac? exp? *)
Definition parse_number (s : jsstring) : option (jsstring * jsstring) :=
  let '(sign, s1) := match s with c :: r => if c =? 45 then ([45], r) else ([], s) | [] => ([], s) end in
  let '(int, s2) := span_digits s1 in
  match int with
  | [] => None
  | d :: ds =>
      if (d =? 48) && negb (bool_decide (ds = [])) then None
      else
        let '(frac, s3) :=
          match s2 with
          | c :: r => if c =? 46 then let '(f, r') := span_digits r in (c :: f, r') else ([], s2)
          | [] => ([], s2)
          end in
        if bool_decide (frac = [46]) then None
        else
          let '(exp, s4, bad) :=
            match s3 with
            | c :: r =>
                if (c =? 101) || (c =? 69) then
                  let '(sg, r1) := match r with
                                   | c' :: r' => if (c' =? 43) || (c' =? 45) then ([c'], r') else ([], r)
                                   | [] => ([], r)
                                   end in
                  let '(e, r2) := span_digits r1 in (c :: sg ++ e, r2, bool_decide (e = []))
                else ([], s3, false)
            | [] => ([], s3, false)
            end in
          if bad then None else Some (sign ++ int ++ frac ++ exp, s4)
  end.

Fixpoint strip_prefix (p s : jsstring) : option jsstring :=
  match p, s with
  | [], _ => Some s
  | a :: p', b :: s' => if a =? b then strip_prefix p' s' else None
  | _ :: _, [] => None
  end.

(** Recursive descent; [fuel] bounds the number of nested calls. *)
Fixpoint parse_value (fuel : nat) (s : jsstring) : option (JSON * jsstring) :=
  match fuel with
  | O => None
  | S fuel' =>
      match skip_ws s with
      | [] => None
      | c :: r =>
          if c =? 34 then
            match parse_string_body r with
            | Some (str, rest) => Some (JString str, rest)
            | None => None
            end
          else if c =? 91 then
            match skip_ws r with
            | [] => None
            | c' :: r' =>
                if c' =? 93 then Some (JArray [], r')
                else match parse_elements fuel' (c' :: r') with
                     | Some (els, rest) => Some (JArray els, rest)
                     | None => None
                     end
            end
          else if c =? 123 then
            match skip_ws r with
            | [] => None
            | c' :: r' =>
                if c' =? 125 then Some (JObject [], r')
                else match parse_members fuel' (c' :: r') with
                     | Some (ms, rest) => Some (JObject ms, rest)
                     | None => None
                     end
            end
          else if c =? 116 then
            match strip_prefix (u16 "rue") r with Some rest => Some (JBool true, rest) | None => None end
          else if c =? 102 then
            match strip_prefix (u16 "alse") r with Some rest => Some (JBool false, rest) | None => None end
          else if c =? 110 then
            match strip_prefix (u16 "ull") r with Some rest => Some (JNull, rest) | None => None end
          else
            match parse_number (c :: r) with
            | Some (literal, rest) => Some (JNumber literal, rest)
            | None => None
            end
      end
  end
with parse_elements (fuel : nat) (s : jsstring) : option (list JSON * jsstring) :=
  match fuel with
  | O => None
  | S fuel' =>
      match parse_value fuel' s with
      | None => None
      | Some (v, r) =>
          match skip_ws r with
          | [] => None
          | c :: r' =>
              if c =? 44 then
                match parse_elements fuel' r' with
                | Some (vs, rest) => Some (v :: vs, rest)
                | None => None
                end
              else if c =? 93 then Some ([v], r')
              else None
          end
      end
  end
with parse_members (fuel : nat) (s : jsstring) : option (list (jsstring * JSON) * jsstring) :=
  match fuel with
  | O => None
  | S fuel' =>
      match skip_ws s with
      | [] => None
      | q :: r0 =>
          if q =? 34 then
            match parse_string_body r0 with
            | None => None
            | Some (key, r1) =>
                match skip_ws r1 with
                | [] => None
                | colon :: r2 =>
                    if colon =? 58 then
                      match parse_value fuel' r2 with
                      | None => None
                      | Some (v, r3) =>
                          match skip_ws r3 with
                          | [] => None
                          | c :: r4 =>
                              if c =? 44 then
                                match parse_members fuel' r4 with
                                | Some (ms, rest) => Some ((key, v) :: ms, rest)
                                | None => None
                                end
                              else if c =? 125 then Some ([(key, v)], r4)
                              else None
                          end
                      end
                    else None
                end
            end
          else None
      end
  end.

(** [JSON.parse]; [None] stands for the SyntaxError.  No input of this
    length can nest more calls than the fuel given here. *)
Definition JSON_parse (s : jsstring) : option JSON :=
  match parse_value (2 * length s + 2) s with
  | Some (v, rest) => match skip_ws rest with [] => Some v | _ => None end
  | None => None
  end.

(** [o.key] on a parsed object: with a repeated key the last member wins. *)
Fixpoint get_property (key : jsstring) (members : list (jsstring * JSON)) : option JSON :=
  match members with
  | [] => None
  | (k, v) :: rest =>
      match get_property key rest with
      | Some v' => Some v'
      | None => if bool_decide (k = key) then Some v else None
      end
  end.

Local Open Scope Z_scope.

(** ** The data model (types.ts) *)

(** A [Todo] holds the five properties of the interface.  Objects taken
    from imported JSON may carry further properties; they are outside the
    interface, no operation reads them, and they are not represented. *)
Record Todo := {
  id : jsstring;
  text : jsstring;
  completed : bool;
  createdAt : Date;
  updatedAt : Date
}.

(** [Partial<Pick<Todo, 'text' | 'completed'>>] *)
Record Updates := {
  updates_text : option jsstring;
  updates_completed : option bool
}.

Record TodoStats := {
  total : nat;
  stats_completed : nat;
  pending : nat
}.

(** [Error] and its two subclasses with their messages.  Native errors
    (SyntaxError, RangeError, a DOMException from the storage) are
    instances of neither subclass and appear as [GenericError]. *)
Inductive Error :=
| GenericError (message : string)
| ValidationError (message : string)
| StorageError (message : string).

Definition message (e : Error) : string :=
  match e with
  | GenericError m | ValidationError m | StorageError m => m
  end.

Definition instanceof_ValidationError (e : Error) : bool :=
  match e with ValidationError _ => true | _ => false end.

Inductive Result (A : Type) :=
| Ok (a : A)
| Throw (e : Error).
Arguments Ok {A} a.
Arguments Throw {A} e.

(** ** The world: instance fields, storage and platform counters *)

(** The two entries of [localStorage] the application uses. *)
Record LocalStorage := {
  todolist_todos : option jsstring;
  todolist_filter : option jsstring
}.

Record World := {
  todos : list Todo;
  currentFilter : jsstring;
  localStorage : LocalStorage;
  clock_reads : nat;
  random_draws : nat;
  setItem_calls : nat
}.

(** What the platform answers: the [n]-th reading of the clock, the digits
    that the [n]-th [Math.random().toString(36).substr(2)] yields, whether
    the [n]-th [localStorage.setItem] throws, and [new Date(string)]. *)
Record Platform := {
  Date_now : nat -> Z;
  Math_random_digits : nat -> jsstring;
  setItem_throws : nat -> bool;
  Date_parse : jsstring -> Date
}.

Definition with_todos (l : list Todo) (w : World) : World :=
  {| todos := l; currentFilter := currentFilter w; localStorage := localStorage w;
     clock_reads := clock_reads w; random_draws := random_draws w;
     setItem_calls := setItem_calls w |}.

Definition with_currentFilter (f : jsstring) (w : World) : World :=
  {| todos := todos w; currentFilter := f; localStorage := localStorage w;
     clock_reads := clock_reads w; random_draws := random_draws w;
     setItem_calls := setItem_calls w |}.

Definition with_localStorage (s : LocalStorage) (w : World) : World :=
  {| todos := todos w; currentFilter := currentFilter w; localStorage := s;
     clock_reads := clock_reads w; random_draws := random_draws w;
     setItem_calls := setItem_calls w |}.

Definition tick_clock (w : World) : World :=
  {| todos := todos w; currentFilter := currentFilter w; localStorage := localStorage w;
     clock_reads := S (clock_reads w); random_draws := random_draws w;
     setItem_calls := setItem_calls w |}.

Definition tick_random (w : World) : World :=
  {| todos := todos w; currentFilter := currentFilter w; localStorage := localStorage w;
     clock_reads := clock_reads w; random_draws := S (random_draws w);
     setItem_calls := setItem_calls w |}.

Definition tick_setItem (w : World) : World :=
  {| todos := todos w; currentFilter := currentFilter w; localStorage := localStorage w;
     clock_reads := clock_reads w; random_draws := random_draws w;
     setItem_calls := S (setItem_calls w) |}.

(** ** The monad of the operations *)

Definition M (A : Type) : Type := World -> Result A * World.

Definition ret {A} (a : A) : M A := fun w => (Ok a, w).

Definition bind {A B} (m : M A) (k : A -> M B) : M B :=
  fun w => match m w with
           | (Ok a, w') => k a w'
           | (Throw e, w') => (Throw e, w')
           end.

Definition throw {A} (e : Error) : M A := fun w => (Throw e, w).

(** [try { body } catch (error) { handler }]: the handler runs in the
    state the body had reached. *)
Definition try_catch {A} (body : M A) (handler : Error -> M A) : M A :=
  fun w => match body w with
           | (Ok a, w') => (Ok a, w')
           | (Throw e, w') => handler e w'
           end.

Definition gets {A} (f : World -> A) : M A := fun w => (Ok (f w), w).
Definition modify (f : World -> World) : M unit := fun w => (Ok tt, f w).
Definition lift {A} (r : Result A) : M A := fun w => (r, w).

Declare Scope js_scope.
Delimit Scope js_scope with js.
Notation "'do' x <- m ; k" := (bind m (fun x => k))
  (at level 10, x name, m at level 100, k at level 200) : js_scope.
Notation "m ;; k" := (bind m (fun _ => k))
  (at level 100, k at level 200, right associativity) : js_scope.
Open Scope js_scope.

(** ** utils.ts: StorageUtils *)

(** [date.toISOString()], a RangeError on the invalid date. *)
Definition toISOString (d : Date) : Result jsstring :=
  match d with
  | ValidDate t => Ok (toISOString_time t)
  | InvalidDate => Throw (GenericError "Invalid time value")
  end.

(** [{...todo, createdAt: todo.createdAt.toISOString(), updatedAt: ...}] *)
Definition stored_record (t : Todo) : Result JSON :=
  match toISOString (createdAt t) with
  | Throw e => Throw e
  | Ok c =>
      match toISOString (updatedAt t) with
      | Throw e => Throw e
      | Ok u =>
          Ok (JObject [(u16 "id", JString (id t)); (u16 "text", JString (text t));
                       (u16 "completed", JBool (completed t));
                       (u16 "createdAt", JString c); (u16 "updatedAt", JString u)])
      end
  end.

(** [todos.map(todo => ...)], stopping at the first exception. *)
Fixpoint stored_records (l : list Todo) : Result (list JSON) :=
  match l with
  | [] => Ok []
  | t :: l' =>
      match stored_record t with
      | Throw e => Throw e
      | Ok j =>
          match stored_records l' with
          | Throw e => Throw e
          | Ok js => Ok (j :: js)
          end
      end
  end.

Definition setItem_todos (p : Platform) (value : jsstring) : M unit :=
  fun w =>
    if setItem_throws p (setItem_calls w)
    then (Throw (GenericError "QuotaExceededError"), tick_setItem w)
    else (Ok tt, tick_setItem (with_localStorage
                 {| todolist_todos := Some value;
                    todolist_filter := todolist_filter (localStorage w) |} w)).

Definition setItem_filter (p : Platform) (value : jsstring) : M unit :=
  fun w =>
    if setItem_throws p (setItem_calls w)
    then (Throw (GenericError "QuotaExceededError"), tick_setItem w)
    else (Ok tt, tick_setItem (with_localStorage
                 {| todolist_todos := todolist_todos (localStorage w);
                    todolist_filter := Some value |} w)).

Definition StorageUtils_saveTodos (p : Platform) (l : list Todo) : M unit :=
  try_catch
    (do records <- lift (stored_records l);
     setItem_todos p (JSON_stringify (JArray records)))
    (fun error => throw (StorageError "Failed to save todos to localStorage")).

Definition StorageUtils_saveFilter (p : Platform) (filter : jsstring) : M unit :=
  try_catch
    (setItem_filter p filter)
    (fun error => throw (StorageError "Failed to save filter to localStorage")).

(** [removeItem] on both keys.  It is taken not to throw, so the catch
    clause is never entered here, nor is that of [clearStorage]: what
    the two calls do when [removeItem] throws is not described. *)
Definition StorageUtils_clearAll : M unit :=
  try_catch
    (modify (with_localStorage {| todolist_todos := None; todolist_filter := None |}))
    (fun error => throw (StorageError "Failed to clear localStorage")).

(** [StorageUtils.loadTodos] returns what it parsed under the cast to
    [Todo[]], unchecked.  [Typed] is a result that a collection of the
    world stands for: every element is an object with the five
    properties of [Todo] and no other, in the order of the interface,
    which is how [saveTodos] writes a record that the class made.
    [Untyped] stands for every other result that the call returns: an
    element, not null, with a property more or less, with the
    properties in another order, with an id, a text or a completed flag
    of another type, or with a date stored as a number, an array or an
    object.  The source keeps such an element as it is (with its other
    properties, and a date read off the number); the collection it then
    holds is not represented. *)
Inductive Loaded (A : Type) :=
| Typed (a : A)
| Untyped.
Arguments Typed {A} a.
Arguments Untyped {A}.

(** [new Date(todo.createdAt)] on what [JSON.parse] gave for the
    property: null and the booleans are converted to the numbers 0 and
    1, a string is parsed. *)
Definition loaded_date (p : Platform) (value : JSON) : Loaded Date :=
  match value with
  | JNull => Typed (ValidDate 0)
  | JBool b => Typed (ValidDate (if b then 1 else 0))
  | JString s => Typed (Date_parse p s)
  | _ => Untyped
  end.

(** [{...todo, createdAt: new Date(todo.createdAt), updatedAt: new Date(todo.updatedAt)}]
    for an element that is not null: the spread keeps the properties of
    the element and their order. *)
Definition loaded_record (p : Platform) (todo : JSON) : Loaded Todo :=
  match todo with
  | JObject [(k1, JString i); (k2, JString t); (k3, JBool c); (k4, created); (k5, updated)] =>
      if bool_decide ([k1; k2; k3; k4; k5]
                      = [u16 "id"; u16 "text"; u16 "completed"; u16 "createdAt"; u16 "updatedAt"])
      then match loaded_date p created, loaded_date p updated with
           | Typed created', Typed updated' =>
               Typed {| id := i; text := t; completed := c;
                        createdAt := created'; updatedAt := updated' |}
           | _, _ => Untyped
           end
      else Untyped
  | _ => Untyped
  end.

(** [parsedTodos.map(todo => ...)] on an array: reading [todo.createdAt]
    of null is a TypeError, which ends the call whatever the other
    elements are. *)
Fixpoint loaded_records (p : Platform) (parsedTodos : list JSON) : Result (Loaded (list Todo)) :=
  match parsedTodos with
  | [] => Ok (Typed [])
  | JNull :: _ => Throw (GenericError "Cannot read properties of null")
  | todo :: rest =>
      match loaded_records p rest with
      | Throw e => Throw e
      | Ok loaded =>
          Ok (match loaded_record p todo, loaded with
              | Typed t, Typed l => Typed (t :: l)
              | _, _ => Untyped
              end)
      end
  end.

(** [getItem] is taken not to throw.  A value that is not an array has no
    method [map]: calling it is a TypeError.  The catch clause warns on
    the console and returns the empty array. *)
Definition StorageUtils_loadTodos (p : Platform) : M (Loaded (list Todo)) :=
  try_catch
    (do serializedTodos <- gets (fun w => todolist_todos (localStorage w));
     match serializedTodos with
     | None => ret (Typed [])
     | Some serialized =>
         if bool_decide (serialized = []) then ret (Typed [])
         else
           do parsedTodos <-
             match JSON_parse serialized with
             | Some v => ret v
             | None => throw (GenericError "Unexpected token in JSON")
             end;
           match parsedTodos with
           | JArray elements => lift (loaded_records p elements)
           | _ => throw (GenericError "parsedTodos.map is not a function")
           end
     end)
    (fun error => ret (Typed [])).

(** [filter || 'all'], under the cast to [TodoFilter], unchecked. *)
Definition StorageUtils_loadFilter : M jsstring :=
  try_catch
    (do filter <- gets (fun w => todolist_filter (localStorage w));
     match filter with
     | Some f => if bool_decide (f = []) then ret (u16 "all") else ret f
     | None => ret (u16 "all")
     end)
    (fun error => ret (u16 "all")).

(** ** TodoList: private helpers *)

(** [Date.now().toString(36) + Math.random().toString(36).substr(2)] *)
Definition generateId (p : Platform) : M jsstring :=
  do now <- (fun w => (Ok (Date_now p (clock_reads w)), tick_clock w));
  do digits <- (fun w => (Ok (Math_random_digits p (random_draws w)), tick_random w));
  ret (toString36 now ++ digits).

(** [new Date()] *)
Definition new_Date (p : Platform) : M Date :=
  fun w => (Ok (ValidDate (Date_now p (clock_reads w))), tick_clock w).

Definition filter_completed (l : list Todo) : list Todo :=
  filter (fun todo => Is_true (completed todo)) l.

Definition filter_pending (l : list Todo) : list Todo :=
  filter (fun todo => Is_true (negb (completed todo))) l.

Definition filterTodos (l : list Todo) (filter : jsstring) : list Todo :=
  if bool_decide (filter = u16 "completed") then filter_completed l
  else if bool_decide (filter = u16 "pending") then filter_pending l
  else l.

Definition validateTodoText (text : jsstring) : M unit :=
  if bool_decide (text = []) then throw (ValidationError "Todo text is required")
  else
    let trimmedText := trim text in
    if (length trimmedText =? 0)%nat then throw (ValidationError "Todo text cannot be empty")
    else if (200 <? length trimmedText)%nat
         then throw (ValidationError "Todo text cannot exceed 200 characters")
         else ret tt.

Definition sanitizeTodoText (text : jsstring) : jsstring :=
  replace_whitespace_runs (trim text).

Definition validateId (id : jsstring) : M unit :=
  if bool_decide (id = []) then throw (ValidationError "Todo ID is required")
  else if (length (trim id) =? 0)%nat then throw (ValidationError "Todo ID cannot be empty")
       else ret tt.

(** [typeof completed !== 'boolean'] cannot hold of a [bool]. *)
Definition validateCompletedStatus (completed : bool) : M unit := ret tt.

Definition validateFilter (filter : jsstring) : M unit :=
  if bool_decide (filter ∈ [u16 "all"; u16 "completed"; u16 "pending"]) then ret tt
  else throw (ValidationError "Invalid filter type. Must be one of: all, completed, pending").

Definition saveToStorage (p : Platform) : M unit :=
  try_catch
    (do l <- gets todos; StorageUtils_saveTodos p l)
    (fun error => throw (StorageError ("Failed to save todos to storage: " +:+ message error))).

Definition saveFilterToStorage (p : Platform) : M unit :=
  try_catch
    (do f <- gets currentFilter; StorageUtils_saveFilter p f)
    (fun error => throw (StorageError ("Failed to save filter to storage: " +:+ message error))).

(** The catch clause most operations end with. *)
Definition rethrow_validation {A} (context : string) (error : Error) : M A :=
  if instanceof_ValidationError error then throw error
  else throw (GenericError (context +:+ message error)).

(** The catch clause of the operations that wrap every exception. *)
Definition rethrow_wrapped {A} (context : string) (error : Error) : M A :=
  throw (GenericError (context +:+ message error)).

Definition has_id (i : jsstring) (todo : Todo) : Prop := id todo = i.

#[global] Instance has_id_dec i todo : Decision (has_id i todo).
Proof. unfold has_id. apply _. Defined.

(** [typeof todo === 'object' && todo !== null && typeof todo.id === 'string' && ...] *)
Definition isValidTodo (todo : JSON) : bool :=
  match todo with
  | JObject members =>
      match get_property (u16 "id") members, get_property (u16 "text") members,
            get_property (u16 "completed") members,
            get_property (u16 "createdAt") members, get_property (u16 "updatedAt") members with
      | Some (JString _), Some (JString _), Some (JBool _), Some (JString _), Some (JString _) => true
      | _, _, _, _, _ => false
      end
  | _ => false
  end.

(** [{...todo, createdAt: new Date(todo.createdAt), updatedAt: new Date(todo.updatedAt)}]
    for an object that passed [isValidTodo], as far as a [Todo] holds
    it: its five properties.  The spread also keeps every other
    property of the object and the order of its keys, and
    [saveTodos] and [exportTodos] write them back; that is not
    represented, so for an element that is not [interface_shaped] the
    text that the model stores or exports afterwards is not the text of
    the source. *)
Definition imported_todo (p : Platform) (todo : JSON) : option Todo :=
  match todo with
  | JObject members =>
      match get_property (u16 "id") members, get_property (u16 "text") members,
            get_property (u16 "completed") members,
            get_property (u16 "createdAt") members, get_property (u16 "updatedAt") members with
      | Some (JString i), Some (JString t), Some (JBool c), Some (JString ca), Some (JString ua) =>
          Some {| id := i; text := t; completed := c;
                  createdAt := Date_parse p ca; updatedAt := Date_parse p ua |}
      | _, _, _, _, _ => None
      end
  | _ => None
  end.

(** The loop of [importTodos] over the parsed array. *)
Fixpoint validTodos_of (p : Platform) (importedTodos : list JSON) : list Todo :=
  match importedTodos with
  | [] => []
  | todo :: rest =>
      if isValidTodo todo
      then match imported_todo p todo with
           | Some t => t :: validTodos_of p rest
           | None => validTodos_of p rest
           end
      else validTodos_of p rest
  end.

(** [date.toJSON()]: the ISO string, or null for the invalid date. *)
Definition Date_toJSON (d : Date) : JSON :=
  match d with
  | ValidDate t => JString (toISOString_time t)
  | InvalidDate => JNull
  end.

(** A todo as [JSON.stringify] sees it. *)
Definition Todo_toJSON (t : Todo) : JSON :=
  JObject [(u16 "id", JString (id t)); (u16 "text", JString (text t));
           (u16 "completed", JBool (completed t));
           (u16 "createdAt", Date_toJSON (createdAt t));
           (u16 "updatedAt", Date_toJSON (updatedAt t))].

(** ** TodoList: the public operations *)

Definition addTodo (p : Platform) (text : jsstring) : M Todo :=
  try_catch
    (validateTodoText text;;
     let sanitizedText := sanitizeTodoText text in
     do newId <- generateId p;
     do created <- new_Date p;
     do updated <- new_Date p;
     let newTodo := {| id := newId; text := sanitizedText; completed := false;
                       createdAt := created; updatedAt := updated |} in
     modify (fun w => with_todos (todos w ++ [newTodo]) w);;
     saveToStorage p;;
     ret newTodo)
    (rethrow_validation "Failed to add todo: ").

Definition getAllTodos : M (list Todo) :=
  try_catch (gets todos) (rethrow_wrapped "Failed to get todos: ").

Definition getFilteredTodos : M (list Todo) :=
  try_catch
    (do l <- gets todos; do f <- gets currentFilter; ret (filterTodos l f))
    (rethrow_wrapped "Failed to get filtered todos: ").

Definition getTodoById (i : jsstring) : M (option Todo) :=
  try_catch
    (validateId i;;
     do l <- gets todos;
     ret (snd <$> list_find (has_id i) l))
    (rethrow_validation "Failed to get todo by ID: ").

Definition updateTodo (p : Platform) (i : jsstring) (updates : Updates) : M (option Todo) :=
  try_catch
    (validateId i;;
     do l <- gets todos;
     match list_find (has_id i) l with
     | None => ret None
     | Some (todoIndex, todo) =>
         do newText <-
           match updates_text updates with
           | Some t => validateTodoText t;; ret (Some (sanitizeTodoText t))
           | None => ret None
           end;
         match updates_completed updates with
         | Some c => validateCompletedStatus c
         | None => ret tt
         end;;
         do now <- new_Date p;
         let updatedTodo :=
           {| id := id todo;
              text := match newText with Some t => t | None => text todo end;
              completed := match updates_completed updates with
                           | Some c => c
                           | None => completed todo
                           end;
              createdAt := createdAt todo;
              updatedAt := now |} in
         modify (fun w => with_todos (<[todoIndex := updatedTodo]> (todos w)) w);;
         saveToStorage p;;
         ret (Some updatedTodo)
     end)
    (rethrow_validation "Failed to update todo: ").

Definition toggleTodo (p : Platform) (i : jsstring) : M (option Todo) :=
  try_catch
    (validateId i;;
     do found <- getTodoById i;
     match found with
     | None => ret None
     | Some todo =>
         updateTodo p i {| updates_text := None;
                           updates_completed := Some (negb (completed todo)) |}
     end)
    (rethrow_validation "Failed to toggle todo: ").

Definition deleteTodo (p : Platform) (i : jsstring) : M bool :=
  try_catch
    (validateId i;;
     do l <- gets todos;
     match list_find (has_id i) l with
     | None => ret false
     | Some (todoIndex, _) =>
         modify (fun w => with_todos (delete todoIndex (todos w)) w);;
         saveToStorage p;;
         ret true
     end)
    (rethrow_validation "Failed to delete todo: ").

Definition deleteCompletedTodos (p : Platform) : M nat :=
  try_catch
    (do initialLength <- gets (fun w => length (todos w));
     modify (fun w => with_todos (filter_pending (todos w)) w);;
     saveToStorage p;;
     do newLength <- gets (fun w => length (todos w));
     ret (initialLength - newLength)%nat)
    (rethrow_wrapped "Failed to delete completed todos: ").

Definition setFilter (p : Platform) (filter : jsstring) : M unit :=
  try_catch
    (validateFilter filter;;
     modify (with_currentFilter filter);;
     saveFilterToStorage p)
    (rethrow_validation "Failed to set filter: ").

Definition getCurrentFilter : M jsstring :=
  try_catch (gets currentFilter) (rethrow_wrapped "Failed to get current filter: ").

Definition getStats : M TodoStats :=
  try_catch
    (do l <- gets todos;
     let total := length l in
     let completed := length (filter_completed l) in
     ret {| total := total; stats_completed := completed; pending := (total - completed)%nat |})
    (rethrow_wrapped "Failed to get todo statistics: ").

Definition clearAll (p : Platform) : M unit :=
  try_catch
    (modify (with_todos []);;
     saveToStorage p)
    (rethrow_wrapped "Failed to clear all todos: ").

Definition getTodosCount : M nat := gets (fun w => length (todos w)).

Definition isEmpty : M bool := gets (fun w => (length (todos w) =? 0)%nat).

Definition clearStorage : M unit :=
  try_catch
    (StorageUtils_clearAll;;
     modify (with_todos []);;
     modify (with_currentFilter (u16 "all")))
    (fun error => throw (StorageError ("Failed to clear storage: " +:+ message error))).

Definition exportTodos : M jsstring :=
  try_catch
    (do l <- gets todos; ret (JSON_stringify_2 (JArray (map Todo_toJSON l))))
    (rethrow_wrapped "Failed to export todos: ").

Definition importTodos (p : Platform) (jsonString : jsstring) : M nat :=
  try_catch
    (do importedTodos <-
       match JSON_parse jsonString with
       | Some v => ret v
       | None => throw (GenericError "Unexpected token in JSON")
       end;
     match importedTodos with
     | JArray elements =>
         let validTodos := validTodos_of p elements in
         modify (with_todos validTodos);;
         saveToStorage p;;
         ret (length validTodos)
     | _ => throw (GenericError "Invalid data format: expected an array of todos")
     end)
    (rethrow_wrapped "Failed to import todos: ").

(** [loadFromStorage].  The filter is loaded whatever the collection is.
    With [Untyped] the collection of the instance is not represented
    (the world keeps the empty one of the initialiser); its filter and
    the storage are those of the world. *)
Definition loadFromStorage (p : Platform) : M (Loaded unit) :=
  try_catch
    (do loaded <- StorageUtils_loadTodos p;
     match loaded with
     | Typed l => modify (with_todos l)
     | Untyped => ret tt
     end;;
     do f <- StorageUtils_loadFilter;
     modify (with_currentFilter f);;
     ret (match loaded with
          | Typed _ => Typed tt
          | Untyped => Untyped
          end))
    (fun error =>
       modify (with_todos []);;
       modify (with_currentFilter (u16 "all"));;
       ret (Typed tt)).

(** [new TodoList()]: the initialisers of the two fields, then the body of
    the constructor.  The fields of the world it starts in are those of
    an instance that is gone; its storage is what the new instance
    reads. *)
Definition TodoList_constructor (p : Platform) : M (Loaded unit) :=
  modify (with_todos []);;
  modify (with_currentFilter (u16 "all"));;
  loadFromStorage p.

(** ** app.ts: TodoApp

    The page as far as the application reads and writes it.  Each
    element that the application looks up by its id is a field, [None]
    when the document has no such element (the application then skips
    it).  An item of the list stands for the record it was created
    from: its markup shows the text, escaped, and the creation date in
    the format of the locale, and its two controls call
    [handleToggleTodo] and [handleDeleteTodo] with the id of the record.
    An alert stays until the next one replaces it; the timer that
    removes it after three seconds is not modelled, nor is the
    console. *)

(** The message that [handleError] passes on to [showErrorMessage].
    Every exception the list raises is an [Error]; only for a thrown
    value that is none would the message be the context followed by
    ". Please try again." *)
Definition instanceof_StorageError (e : Error) : bool :=
  match e with StorageError _ => true | _ => false end.

Definition handleError_message (error : Error) (context : string) : string :=
  if instanceof_ValidationError error then message error
  else if instanceof_StorageError error then "Storage error: " +:+ message error
  else message error.

Inductive AlertType := alert_success | alert_info | alert_danger.

Record Alert := { alert_type : AlertType; alert_message : jsstring }.

Record Page := {
  todoInput : option jsstring;
  todoListContainer : option (list Todo);
  totalTodosEl : option jsstring;
  completedTodosEl : option jsstring;
  pendingTodosEl : option jsstring;
  filterButtons : list (option jsstring * bool);
  clearCompletedBtn : option jsstring;
  emptyState : option jsstring;
  alerts : list Alert
}.

Record App := { todoList : World; page : Page }.

Definition AppM (A : Type) : Type := App -> Result A * App.

Definition app_ret {A} (a : A) : AppM A := fun s => (Ok a, s).

Definition app_bind {A B} (m : AppM A) (k : A -> AppM B) : AppM B :=
  fun s => match m s with
           | (Ok a, s') => k a s'
           | (Throw e, s') => (Throw e, s')
           end.

Definition app_try_catch {A} (body : AppM A) (handler : Error -> AppM A) : AppM A :=
  fun s => match body s with
           | (Ok a, s') => (Ok a, s')
           | (Throw e, s') => handler e s'
           end.

(** A call of a method of [this.todoList]. *)
Definition call {A} (m : M A) : AppM A :=
  fun s => let '(r, w) := m (todoList s) in (r, {| todoList := w; page := page s |}).

Definition page_gets {A} (f : Page -> A) : AppM A := fun s => (Ok (f (page s)), s).

Definition page_modify (f : Page -> Page) : AppM unit :=
  fun s => (Ok tt, {| todoList := todoList s; page := f (page s) |}).

Declare Scope app_scope.
Delimit Scope app_scope with app.
Notation "'do' x <- m ; k" := (app_bind m (fun x => k))
  (at level 10, x name, m at level 100, k at level 200) : app_scope.
Notation "m ;; k" := (app_bind m (fun _ => k))
  (at level 100, k at level 200, right associativity) : app_scope.

(** [Number.prototype.toString()] on a natural number. *)
Definition Number_toString (n : nat) : jsstring :=
  digits_in_base 10 (S (Z.to_nat (Z.log2 (Z.of_nat n)))) (Z.of_nat n).

Definition with_todoInput (v : option jsstring) (pg : Page) : Page :=
  {| todoInput := v; todoListContainer := todoListContainer pg;
     totalTodosEl := totalTodosEl pg; completedTodosEl := completedTodosEl pg;
     pendingTodosEl := pendingTodosEl pg; filterButtons := filterButtons pg;
     clearCompletedBtn := clearCompletedBtn pg; emptyState := emptyState pg;
     alerts := alerts pg |}.

Definition with_todoListContainer (v : option (list Todo)) (pg : Page) : Page :=
  {| todoInput := todoInput pg; todoListContainer := v;
     totalTodosEl := totalTodosEl pg; completedTodosEl := completedTodosEl pg;
     pendingTodosEl := pendingTodosEl pg; filterButtons := filterButtons pg;
     clearCompletedBtn := clearCompletedBtn pg; emptyState := emptyState pg;
     alerts := alerts pg |}.

Definition with_statistics (t c n : option jsstring) (pg : Page) : Page :=
  {| todoInput := todoInput pg; todoListContainer := todoListContainer pg;
     totalTodosEl := t; completedTodosEl := c; pendingTodosEl := n;
     filterButtons := filterButtons pg;
     clearCompletedBtn := clearCompletedBtn pg; emptyState := emptyState pg;
     alerts := alerts pg |}.

Definition with_filterButtons (v : list (option jsstring * bool)) (pg : Page) : Page :=
  {| todoInput := todoInput pg; todoListContainer := todoListContainer pg;
     totalTodosEl := totalTodosEl pg; completedTodosEl := completedTodosEl pg;
     pendingTodosEl := pendingTodosEl pg; filterButtons := v;
     clearCompletedBtn := clearCompletedBtn pg; emptyState := emptyState pg;
     alerts := alerts pg |}.

Definition with_clearCompletedBtn (v : option jsstring) (pg : Page) : Page :=
  {| todoInput := todoInput pg; todoListContainer := todoListContainer pg;
     totalTodosEl := totalTodosEl pg; completedTodosEl := completedTodosEl pg;
     pendingTodosEl := pendingTodosEl pg; filterButtons := filterButtons pg;
     clearCompletedBtn := v; emptyState := emptyState pg;
     alerts := alerts pg |}.

Definition with_emptyState (v : option jsstring) (pg : Page) : Page :=
  {| todoInput := todoInput pg; todoListContainer := todoListContainer pg;
     totalTodosEl := totalTodosEl pg; completedTodosEl := completedTodosEl pg;
     pendingTodosEl := pendingTodosEl pg; filterButtons := filterButtons pg;
     clearCompletedBtn := clearCompletedBtn pg; emptyState := v;
     alerts := alerts pg |}.

Definition with_alerts (v : list Alert) (pg : Page) : Page :=
  {| todoInput := todoInput pg; todoListContainer := todoListContainer pg;
     totalTodosEl := totalTodosEl pg; completedTodosEl := completedTodosEl pg;
     pendingTodosEl := pendingTodosEl pg; filterButtons := filterButtons pg;
     clearCompletedBtn := clearCompletedBtn pg; emptyState := emptyState pg;
     alerts := v |}.

(** The alerts in the document are removed and the new one is added.
    [alert_message] is the string that the call is given.  The source
    writes it between the tags of the alert by an assignment to
    innerHTML, as it is: nothing is escaped, so the browser reads the
    string, a todo text included, as markup.  What it displays for a
    string that holds markup is not described. *)
Definition showMessage (message : jsstring) (type : AlertType) : AppM unit :=
  page_modify (with_alerts [{| alert_type := type; alert_message := message |}]).

Definition showSuccessMessage (message : jsstring) : AppM unit := showMessage message alert_success.
Definition showInfoMessage (message : jsstring) : AppM unit := showMessage message alert_info.
Definition showErrorMessage (message : jsstring) : AppM unit := showMessage message alert_danger.

Definition handleError (error : Error) (context : string) : AppM unit :=
  showErrorMessage (u16 (handleError_message error context)).

(** The items of the list are the records that [getFilteredTodos]
    returns.  [createTodoElement] writes the id of the record, not
    escaped, between the quotation marks of two attributes of the
    markup of the item, and then looks the checkbox and the delete
    button up in it to set their listeners.  An id that holds a
    quotation mark ends the attribute, and the rest of it can leave the
    item without one of the controls: the call then throws a TypeError.
    That exception is not described: the definition stands for the
    code on lists whose ids are [quote_free], as the ids that
    [generateId] makes are. *)
Definition renderTodoList : AppM unit :=
  (do container <- page_gets todoListContainer;
   match container with
   | None => app_ret tt
   | Some _ =>
       do todos <- call getFilteredTodos;
       page_modify (with_todoListContainer (Some todos))
   end)%app.

Definition renderStatistics : AppM unit :=
  (do stats <- call getStats;
   page_modify (fun pg =>
     with_statistics
       (match totalTodosEl pg with Some _ => Some (Number_toString (total stats)) | None => None end)
       (match completedTodosEl pg with
        | Some _ => Some (Number_toString (stats_completed stats))
        | None => None
        end)
       (match pendingTodosEl pg with Some _ => Some (Number_toString (pending stats)) | None => None end)
       pg))%app.

Definition updateFilterButtons (activeFilter : jsstring) : AppM unit :=
  page_modify (fun pg =>
    with_filterButtons
      (map (fun btn => (fst btn, bool_decide (fst btn = Some activeFilter))) (filterButtons pg))
      pg).

Definition updateClearCompletedButton : AppM unit :=
  (do btn <- page_gets clearCompletedBtn;
   match btn with
   | None => app_ret tt
   | Some _ =>
       do stats <- call getStats;
       page_modify (with_clearCompletedBtn
         (Some (if (0 <? stats_completed stats)%nat then u16 "inline-block" else u16 "none")))
   end)%app.

Definition updateEmptyState : AppM unit :=
  (do el <- page_gets emptyState;
   match el with
   | None => app_ret tt
   | Some _ =>
       do todos <- call getFilteredTodos;
       page_modify (with_emptyState
         (Some (if (length todos =? 0)%nat then u16 "block" else u16 "none")))
   end)%app.

Definition render : AppM unit :=
  (renderTodoList;; renderStatistics;; updateClearCompletedButton;; updateEmptyState)%app.

(** The handler of the form: the text is the value of the input. *)
Definition handleAddTodo (p : Platform) : AppM unit :=
  (do input <- page_gets todoInput;
   match input with
   | None => app_ret tt
   | Some value =>
       let text' := trim value in
       if bool_decide (text' = []) then app_ret tt
       else
         app_try_catch
           (do newTodo <- call (addTodo p text');
            page_modify (with_todoInput (Some []));;
            render;;
            showSuccessMessage
              (u16 "Todo " ++ [34%N] ++ text newTodo ++ [34%N] ++ u16 " added successfully!"))
           (fun error => handleError error "Failed to add todo")
   end)%app.

(** The handler of a filter button; [filter] is its [data-filter]. *)
Definition handleFilterChange (p : Platform) (filter : option jsstring) : AppM unit :=
  match filter with
  | None => app_ret tt
  | Some f =>
      if bool_decide (f = []) then app_ret tt
      else
        app_try_catch
          (call (setFilter p f);;
           updateFilterButtons f;;
           render)%app
          (fun error => handleError error "Failed to change filter")
  end.

Definition handleToggleTodo (p : Platform) (todoId : jsstring) : AppM unit :=
  app_try_catch
    (do updatedTodo <- call (toggleTodo p todoId);
     match updatedTodo with
     | Some t =>
         render;;
         let status := if completed t then u16 "completed" else u16 "pending" in
         showSuccessMessage (u16 "Todo marked as " ++ status ++ u16 "!")
     | None => app_ret tt
     end)%app
    (fun error => handleError error "Failed to toggle todo").

Definition handleDeleteTodo (p : Platform) (todoId : jsstring) : AppM unit :=
  app_try_catch
    (do success <- call (deleteTodo p todoId);
     if (success : bool) then
       render;;
       showSuccessMessage (u16 "Todo deleted successfully!")
     else app_ret tt)%app
    (fun error => handleError error "Failed to delete todo").

Definition handleClearCompleted (p : Platform) : AppM unit :=
  app_try_catch
    (do deletedCount <- call (deleteCompletedTodos p);
     if (0 <? deletedCount)%nat then
       render;;
       showSuccessMessage (Number_toString deletedCount ++ u16 " completed todo(s) cleared!")
     else showInfoMessage (u16 "No completed todos to clear."))%app
    (fun error => handleError error "Failed to clear completed todos").

(** [new TodoApp()] in a document and over a storage: the list is built,
    the elements are looked up, the listeners are set, the page is
    rendered. *)
Definition TodoApp_constructor (p : Platform) (document : Page) (w : World)
  : Loaded (Result unit * App) :=
  match TodoList_constructor p w with
  | (Ok (Typed _), w') => Typed (render {| todoList := w'; page := document |})
  | (Ok Untyped, _) => Untyped
  | (Throw e, w') => Typed (Throw e, {| todoList := w'; page := document |})
  end.

(** The instance a fresh session starts from, with nothing in storage. *)
Definition empty_world : World :=
  {| todos := []; currentFilter := u16 "all";
     localStorage := {| todolist_todos := None; todolist_filter := None |};
     clock_reads := 0; random_draws := 0; setItem_calls := 0 |}.

(** ** Vocabulary of the statements *)

Definition has_valid_dates (t : Todo) : Prop :=
  createdAt t ≠ InvalidDate ∧ updatedAt t ≠ InvalidDate.

(** The persistence write of the collection [l] goes through at the world
    [w]: every date can be written as an ISO string and [setItem] does not
    throw. *)
Definition write_succeeds (p : Platform) (w : World) (l : list Todo) : Prop :=
  Forall has_valid_dates l ∧ setItem_throws p (setItem_calls w) = false.

Definition write_fails (p : Platform) (w : World) (l : list Todo) : Prop :=
  ¬ Forall has_valid_dates l ∨ setItem_throws p (setItem_calls w) = true.

(** What [StorageUtils.saveTodos] puts under the key 'todolist-todos'. *)
Definition stored_text (l : list Todo) : jsstring :=
  JSON_stringify (JArray (map Todo_toJSON l)).

(** The stored collection agrees with the one in memory. *)
Definition in_sync (w : World) : Prop :=
  todolist_todos (localStorage w) = Some (stored_text (todos w)).

(** [a <= b] on dates; a comparison with the invalid date is false. *)
Definition Date_le (a b : Date) : Prop :=
  match a, b with
  | ValidDate x, ValidDate y => x <= y
  | _, _ => False
  end.

(** An id that [validateId] lets through. *)
Definition usable_id (i : jsstring) : Prop := trim i ≠ [].

(** A text that [validateTodoText] lets through. *)
Definition acceptable_text (s : jsstring) : Prop :=
  trim s ≠ [] ∧ (length (trim s) ≤ 200)%nat.

(** The words of a string: its maximal runs free of white space. *)
Fixpoint split_at_whitespace (s : jsstring) : list jsstring :=
  match s with
  | [] => [[]]
  | c :: s' =>
      if isWhiteSpace c then [] :: split_at_whitespace s'
      else match split_at_whitespace s' with
           | word :: rest => (c :: word) :: rest
           | [] => [[c]]
           end
  end.

Definition words (s : jsstring) : list jsstring :=
  filter (fun word => word ≠ []) (split_at_whitespace s).

(** The text the specification asks for: the words of the input, one
    space between two of them. *)
Definition collapsed_text (s : jsstring) : jsstring := join_with [0x20%N] (words s).

(** The first record with the id [i] sits between [before] and [after]. *)
Definition first_with_id (i : jsstring) (l before : list Todo) (t : Todo) (after : list Todo) : Prop :=
  l = before ++ t :: after ∧ id t = i ∧ Forall (fun x => id x ≠ i) before.

(** The record [t] with the completed flag [completed'] and updatedAt set
    to [now]. *)
Definition touch (now : Z) (completed' : bool) (t : Todo) : Todo :=
  {| id := id t; text := text t; completed := completed';
     createdAt := createdAt t; updatedAt := ValidDate now |}.

(** The invariants of the data model. *)
Definition ids_distinct (l : list Todo) : Prop := NoDup (id <$> l).
Definition text_within_bounds (t : Todo) : Prop := acceptable_text (text t).


(** The mutating and the querying calls of the class, and a run of them. *)
Inductive Op :=
| OpAddTodo (text : jsstring)
| OpUpdateTodo (i : jsstring) (updates : Updates)
| OpToggleTodo (i : jsstring)
| OpDeleteTodo (i : jsstring)
| OpDeleteCompletedTodos
| OpSetFilter (filter : jsstring)
| OpClearAll
| OpClearStorage
| OpImportTodos (jsonString : jsstring)
| OpGetAllTodos
| OpGetFilteredTodos
| OpGetTodoById (i : jsstring)
| OpGetCurrentFilter
| OpGetStats
| OpGetTodosCount
| OpIsEmpty
| OpExportTodos.

(** The world after the call, whether it returned or threw. *)
Definition run (p : Platform) (op : Op) (w : World) : World :=
  match op with
  | OpAddTodo s => snd (addTodo p s w)
  | OpUpdateTodo i u => snd (updateTodo p i u w)
  | OpToggleTodo i => snd (toggleTodo p i w)
  | OpDeleteTodo i => snd (deleteTodo p i w)
  | OpDeleteCompletedTodos => snd (deleteCompletedTodos p w)
  | OpSetFilter f => snd (setFilter p f w)
  | OpClearAll => snd (clearAll p w)
  | OpClearStorage => snd (clearStorage w)
  | OpImportTodos s => snd (importTodos p s w)
  | OpGetAllTodos => snd (getAllTodos w)
  | OpGetFilteredTodos => snd (getFilteredTodos w)
  | OpGetTodoById i => snd (getTodoById i w)
  | OpGetCurrentFilter => snd (getCurrentFilter w)
  | OpGetStats => snd (getStats w)
  | OpGetTodosCount => snd (getTodosCount w)
  | OpIsEmpty => snd (isEmpty w)
  | OpExportTodos => snd (exportTodos w)
  end.

Definition is_import (op : Op) : Prop :=
  match op with OpImportTodos _ => True | _ => False end.

(** The id [addTodo] would generate at [w]. *)
Definition next_id (p : Platform) (w : World) : jsstring :=
  toString36 (Date_now p (clock_reads w)) ++ Math_random_digits p (random_draws w).

(** Worlds reached from the empty one by any calls. *)
Inductive reachable (p : Platform) : World -> Prop :=
| reachable_empty : reachable p empty_world
| reachable_step w op : reachable p w -> reachable p (run p op w).


Definition monotone_clock (p : Platform) : Prop :=
  ∀ m n, (m ≤ n)%nat -> Date_now p m <= Date_now p n.

(** The call threw, the collection in memory is [l], and storage still
    holds what it held in [w]. *)
Definition raised_unsaved {A} (r : Result A * World) (w : World) (l : list Todo) : Prop :=
  ∃ e w', r = (Throw e, w') ∧ todos w' = l ∧ localStorage w' = localStorage w.

(** Empty or white space only. *)
Definition blank (s : jsstring) : Prop := Forall (fun c => isWhiteSpace c = true) s.

(** [new Date] of the ISO string of a valid date. *)
Definition reparsed_date (p : Platform) (d : Date) : Date :=
  match d with
  | ValidDate t => Date_parse p (toISOString_time t)
  | InvalidDate => InvalidDate
  end.

Definition reparsed (p : Platform) (t : Todo) : Todo :=
  {| id := id t; text := text t; completed := completed t;
     createdAt := reparsed_date p (createdAt t);
     updatedAt := reparsed_date p (updatedAt t) |}.

(** The platform reads an ISO string written by [toISOString] back to the
    time value it was written from, as ECMAScript asks of [Date.parse]. *)
Definition parses_iso (p : Platform) : Prop :=
  ∀ t, time_in_range t -> Date_parse p (toISOString_time t) = ValidDate t.

Definition dates_in_range (t : Todo) : Prop :=
  ∃ c u, createdAt t = ValidDate c ∧ updatedAt t = ValidDate u ∧
         time_in_range c ∧ time_in_range u.

(** An object with the five properties of [Todo] and no other, in the
    order of the interface, both dates being strings: what [importTodos]
    keeps of it is then all there is to keep. *)
Definition interface_shaped (todo : JSON) : Prop :=
  ∃ i t c created updated,
    todo = JObject [(u16 "id", JString i); (u16 "text", JString t);
                    (u16 "completed", JBool c);
                    (u16 "createdAt", JString created);
                    (u16 "updatedAt", JString updated)].

(** No quotation mark (U+0022) in the id: written between the quotation
    marks of an attribute, as [createTodoElement] writes it, the id
    stays inside the attribute. *)
Definition quote_free (i : jsstring) : Prop := 34%N ∉ i.

#[global] Instance quote_free_dec i : Decision (quote_free i).
Proof. unfold quote_free. apply _. Defined.

(** The three names [validateFilter] lets through. *)
Definition valid_filter (f : jsstring) : Prop :=
  f ∈ [u16 "all"; u16 "completed"; u16 "pending"].

(** Worlds reached from the empty one by the calls that [allowed] admits. *)
Inductive reachable_via (p : Platform) (allowed : Op -> Prop) : World -> Prop :=
| via_empty : reachable_via p allowed empty_world
| via_step w op :
    reachable_via p allowed w -> allowed op -> reachable_via p allowed (run p op w).

(** The exception a call ended with, if it threw. *)
Definition thrown {A} (r : Result A * World) : option Error :=
  match fst r with
  | Throw e => Some e
  | Ok _ => None
  end.

Definition call_error (p : Platform) (op : Op) (w : World) : option Error :=
  match op with
  | OpAddTodo s => thrown (addTodo p s w)
  | OpUpdateTodo i u => thrown (updateTodo p i u w)
  | OpToggleTodo i => thrown (toggleTodo p i w)
  | OpDeleteTodo i => thrown (deleteTodo p i w)
  | OpDeleteCompletedTodos => thrown (deleteCompletedTodos p w)
  | OpSetFilter f => thrown (setFilter p f w)
  | OpClearAll => thrown (clearAll p w)
  | OpClearStorage => thrown (clearStorage w)
  | OpImportTodos s => thrown (importTodos p s w)
  | OpGetAllTodos => thrown (getAllTodos w)
  | OpGetFilteredTodos => thrown (getFilteredTodos w)
  | OpGetTodoById i => thrown (getTodoById i w)
  | OpGetCurrentFilter => thrown (getCurrentFilter w)
  | OpGetStats => thrown (getStats w)
  | OpGetTodosCount => thrown (getTodosCount w)
  | OpIsEmpty => thrown (isEmpty w)
  | OpExportTodos => thrown (exportTodos w)
  end.

(** The alert of an error. *)
Definition danger (message : string) : Alert :=
  {| alert_type := alert_danger; alert_message := u16 message |}.

(** What the page shows agrees with the list: each element that the
    document has shows what [render] writes into it for this list. *)
Definition shows (pg : Page) (w : World) : Prop :=
  let visible := filterTodos (todos w) (currentFilter w) in
  let finished := length (filter_completed (todos w)) in
  (∀ l, todoListContainer pg = Some l -> l = visible)
  ∧ (∀ s, totalTodosEl pg = Some s -> s = Number_toString (length (todos w)))
  ∧ (∀ s, completedTodosEl pg = Some s -> s = Number_toString finished)
  ∧ (∀ s, pendingTodosEl pg = Some s -> s = Number_toString (length (todos w) - finished))
  ∧ (∀ d, clearCompletedBtn pg = Some d ->
          d = if (0 <? finished)%nat then u16 "inline-block" else u16 "none")
  ∧ (∀ d, emptyState pg = Some d ->
          d = if (length visible =? 0)%nat then u16 "block" else u16 "none").

(** What the user does. *)
Inductive Event :=
| type_text (value : jsstring)
| submit_form
| click_filter (filter : option jsstring)
| click_checkbox (todoId : jsstring)
| click_delete (todoId : jsstring)
| click_clear_completed.

(** The application after the event: typing changes the value of the
    input, the other events run their handler. *)
Definition after_event (p : Platform) (ev : Event) (a : App) : App :=
  match ev with
  | type_text value =>
      match todoInput (page a) with
      | Some _ => {| todoList := todoList a; page := with_todoInput (Some value) (page a) |}
      | None => a
      end
  | submit_form => snd (handleAddTodo p a)
  | click_filter filter => snd (handleFilterChange p filter a)
  | click_checkbox todoId => snd (handleToggleTodo p todoId a)
  | click_delete todoId => snd (handleDeleteTodo p todoId a)
  | click_clear_completed => snd (handleClearCompleted p a)
  end.

(** The application as [new TodoApp()] leaves it in a fresh session
    (nothing in storage), and after any events. *)
Inductive app_reachable (p : Platform) (document : Page) : App -> Prop :=
| app_started a :
    TodoApp_constructor p document empty_world = Typed (Ok tt, a) ->
    app_reachable p document a
| app_event a ev :
    app_reachable p document a -> app_reachable p document (after_event p ev a).

(** ** Vocabulary of the proofs *)

(** What storage holds is what the instance holds: a new instance built
    over it would start with the same collection and the same filter. *)
Definition persisted (w : World) : Prop :=
  (in_sync w ∨ (todolist_todos (localStorage w) = None ∧ todos w = []))
  ∧ (todolist_filter (localStorage w) = Some (currentFilter w)
     ∨ (todolist_filter (localStorage w) = None ∧ currentFilter w = u16 "all")).

(** What [StorageUtils.loadFilter] returns. *)
Definition loaded_filter (w : World) : jsstring :=
  match todolist_filter (localStorage w) with
  | Some f => if bool_decide (f = []) then u16 "all" else f
  | None => u16 "all"
  end.

(** The invariant of a run on a platform whose storage works. *)
Definition kept (w : World) : Prop :=
  persisted w ∧ valid_filter (currentFilter w) ∧ Forall dates_in_range (todos w).

(** The invariant of the application: the page shows the list, and the
    list can be written. *)
Definition page_ok (a : App) : Prop :=
  shows (page a) (todoList a) ∧ Forall has_valid_dates (todos (todoList a)).


(** The world after a write of [l] that went through. *)
Definition saved (l : list Todo) (w : World) : World :=
  tick_setItem (with_localStorage
    {| todolist_todos := Some (stored_text l);
       todolist_filter := todolist_filter (localStorage w) |} w).

#[global] Instance has_valid_dates_dec t : Decision (has_valid_dates t).
Proof.
  unfold has_valid_dates.
  destruct (createdAt t), (updatedAt t);
    first [ by left | right; intros [? ?]; congruence ].
Defined.

(** No white space at the end. *)
Definition ends_clean (s : jsstring) : Prop :=
  ∀ r c, s = r ++ [c] -> isWhiteSpace c = false.

(** The end of a mutating call: save, then return [a]; an exception of
    the save reaches the caller wrapped in [context]. *)
Definition commit {A} (p : Platform) (context : string) (a : A) : M A :=
  fun w => match saveToStorage p w with
           | (Ok _, w') => (Ok a, w')
           | (Throw e, w') => (Throw (GenericError (context +:+ message e)), w')
           end.

(** The record [addTodo] builds at [w]. *)
Definition new_todo (p : Platform) (w : World) (s : jsstring) : Todo :=
  {| id := next_id p w; text := sanitizeTodoText s; completed := false;
     createdAt := ValidDate (Date_now p (S (clock_reads w)));
     updatedAt := ValidDate (Date_now p (S (S (clock_reads w)))) |}.

(** The record [updateTodo] puts in the place of [t] at [w]. *)
Definition updated_todo (p : Platform) (w : World) (u : Updates) (t : Todo) : Todo :=
  {| id := id t;
     text := match updates_text u with Some s => sanitizeTodoText s | None => text t end;
     completed := match updates_completed u with Some c => c | None => completed t end;
     createdAt := createdAt t;
     updatedAt := ValidDate (Date_now p (clock_reads w)) |}.

Definition no_updates : Updates := {| updates_text := None; updates_completed := None |}.

Definition set_completed (c : bool) : Updates :=
  {| updates_text := None; updates_completed := Some c |}.

(** Every date of [t] is valid, createdAt is not after updatedAt, and
    updatedAt is not after any reading of the clock from the [n]-th on. *)
Definition stamped_before (p : Platform) (n : nat) (t : Todo) : Prop :=
  ∃ c u, createdAt t = ValidDate c ∧ updatedAt t = ValidDate u ∧ c <= u ∧
         ∀ k, (n ≤ k)%nat -> u <= Date_now p k.

(** The invariant carried along a run: the three invariants of the data
    model, the third one strengthened by what the clock has shown. *)
Definition well_kept (p : Platform) (n : nat) (l : list Todo) : Prop :=
  ids_distinct l ∧ Forall text_within_bounds l ∧ Forall (stamped_before p n) l.

Local Open Scope N_scope.

Definition json_blank (s : jsstring) : Prop := Forall (fun c => is_json_ws c = true) s.

(** A value written without brackets: a string, a boolean or null. *)
Definition scalar (v : JSON) : Prop :=
  match v with
  | JNull | JBool _ | JString _ => True
  | _ => False
  end.

(** The members of an object as [serialize] separates them with the gap
    of two spaces, followed by [tail]. *)
Fixpoint members_text (indent : jsstring) (ms : list (jsstring * JSON)) (tail : jsstring) : jsstring :=
  match ms with
  | [] => tail
  | [m] => quote (fst m) ++ [58; 32] ++ serialize [32; 32] indent (snd m) ++ tail
  | m :: ms' =>
      quote (fst m) ++ [58; 32] ++ serialize [32; 32] indent (snd m)
        ++ 44 :: 10 :: indent ++ members_text indent ms' tail
  end.

(** The records of a collection as [serialize] writes them inside the
    array, followed by [tail]. *)
Fixpoint elements_text (l : list Todo) (tail : jsstring) : jsstring :=
  match l with
  | [] => tail
  | [t] => serialize [32; 32] [32; 32] (Todo_toJSON t) ++ tail
  | t :: l' =>
      serialize [32; 32] [32; 32] (Todo_toJSON t) ++ 44 :: 10 :: 32 :: 32 :: elements_text l' tail
  end.

Definition Todo_members (t : Todo) : list (jsstring * JSON) :=
  [(u16 "id", JString (id t)); (u16 "text", JString (text t));
   (u16 "completed", JBool (completed t));
   (u16 "createdAt", Date_toJSON (createdAt t));
   (u16 "updatedAt", Date_toJSON (updatedAt t))].

Local Open Scope Z_scope.

(** [f] holds of 0, 1, ..., [n] - 1. *)
Definition all_below (n : N) (f : Z -> bool) : bool :=
  snd (N.iter n (fun s => (fst s + 1, snd s && f (fst s))) (0, true)).

(** What the round trip needs of a day of the era that starts on
    0000-03-01. *)
Definition day_of_era_checked (doe : Z) : bool :=
  let '(y, m, d) := civil_from_day_of_era doe in
  (1 <=? m) && (m <=? 12) && (1 <=? d) && (d <=? days_in_month y m) &&
  (days_from_civil y m d =? doe - 719468) && (0 <=? y) && (y <=? 400).

(** ** Platforms and worlds of the worked examples *)

(** A platform for the worked examples: the clock advances one
    millisecond per reading, [setItem] never throws, and dates are parsed
    by [parse_iso]. *)
Definition example_platform : Platform :=
  {| Date_now := fun n => 1700000000000 + Z.of_nat n;
     Math_random_digits := fun n => u16 "k3j9" ++ toString36 (Z.of_nat n);
     setItem_throws := fun _ => false;
     Date_parse := parse_iso |}.

(** The same platform with a storage that refuses every write. *)
Definition full_storage_platform : Platform :=
  {| Date_now := Date_now example_platform;
     Math_random_digits := Math_random_digits example_platform;
     setItem_throws := fun _ => true;
     Date_parse := parse_iso |}.

(** JSON text written with apostrophes in the place of double quotes. *)
Definition json_text (s : string) : jsstring :=
  map (fun c => if (c =? 39)%N then 34%N else c) (u16 s).

Definition milk : Todo :=
  {| id := u16 "loyw3v28k3j90"; text := u16 "Buy milk"; completed := false;
     createdAt := ValidDate 1700000000001; updatedAt := ValidDate 1700000000002 |}.

Definition dog : Todo :=
  {| id := u16 "loyw3v2bk3j91"; text := u16 "Walk dog"; completed := false;
     createdAt := ValidDate 1700000000004; updatedAt := ValidDate 1700000000005 |}.

Definition two_todos : World :=
  run example_platform (OpAddTodo (u16 "Walk dog"))
    (run example_platform (OpAddTodo (u16 " Buy   milk ")) empty_world).

(** The two records, the first one completed. *)
Definition milk_done : World :=
  run example_platform (OpToggleTodo (u16 "loyw3v28k3j90")) two_todos.

(** A record whose id is a single space, as [importTodos] accepts it. *)
Definition blank_id_world : World :=
  run example_platform
    (OpImportTodos (json_text
       "[{'id':' ','text':'Buy milk','completed':false,'createdAt':'2023-11-14T22:13:20.000Z','updatedAt':'2023-11-14T22:13:20.000Z'}]"))
    empty_world.

(** A record whose dates no engine can parse. *)
Definition invalid_date_world : World :=
  run example_platform
    (OpImportTodos (json_text
       "[{'id':'a1','text':'Buy milk','completed':false,'createdAt':'soon','updatedAt':'soon'}]"))
    empty_world.

(** Two records with one id, an empty text, and an updatedAt before the
    createdAt. *)
Definition careless_import_world : World :=
  run example_platform
    (OpImportTodos (json_text
       "[{'id':'a','text':'','completed':false,'createdAt':'2024-01-02T00:00:00.000Z','updatedAt':'2024-01-01T00:00:00.000Z'},{'id':'a','text':'x','completed':true,'createdAt':'2024-01-01T00:00:00.000Z','updatedAt':'2024-01-01T00:00:00.000Z'}]"))
    empty_world.


(** A platform whose clock is set back between two readings. *)
Definition backward_platform : Platform :=
  {| Date_now := fun n => 1700000000000 - 1000 * Z.of_nat n;
     Math_random_digits := Math_random_digits example_platform;
     setItem_throws := fun _ => false;
     Date_parse := parse_iso |}.

(** A document with every element the application looks up, and the
    three filter buttons. *)
Definition example_document : Page :=
  {| todoInput := Some [];
     todoListContainer := Some [];
     totalTodosEl := Some (u16 "0");
     completedTodosEl := Some (u16 "0");
     pendingTodosEl := Some (u16 "0");
     filterButtons := [(Some (u16 "all"), true); (Some (u16 "completed"), false);
                       (Some (u16 "pending"), false)];
     clearCompletedBtn := Some (u16 "none");
     emptyState := Some (u16 "block");
     alerts := [] |}.

(** The example document with a value typed into the input, over a list. *)
Definition example_app (w : World) (value : string) : App :=
  {| todoList := w; page := with_todoInput (Some (u16 value)) example_document |}.

(** * Part II: properties *)

(** ** The model on concrete inputs *)

Example sanitizeTodoText_sample :
  sanitizeTodoText ([9; 10]%N ++ u16 "Walk" ++ [160; 8232; 32]%N ++ u16 "the  dog" ++ [12288]%N)
  = u16 "Walk the dog".
Proof. reflexivity. Qed.

Example toString36_sample : toString36 1700000000000 = u16 "loyw3v28".
Proof. reflexivity. Qed.

Example toISOString_epoch : toISOString_time 0 = u16 "1970-01-01T00:00:00.000Z".
Proof. reflexivity. Qed.

Example toISOString_2023 :
  toISOString_time 1700000000000 = u16 "2023-11-14T22:13:20.000Z".
Proof. reflexivity. Qed.

Example toISOString_before_epoch :
  toISOString_time (-1) = u16 "1969-12-31T23:59:59.999Z".
Proof. reflexivity. Qed.

Example toISOString_leap_day :
  toISOString_time 1709164800000 = u16 "2024-02-29T00:00:00.000Z".
Proof. reflexivity. Qed.

Example toISOString_latest :
  toISOString_time maxTime = u16 "+275760-09-13T00:00:00.000Z".
Proof. reflexivity. Qed.

Example toISOString_earliest :
  toISOString_time (- maxTime) = u16 "-271821-04-20T00:00:00.000Z".
Proof. reflexivity. Qed.

Example parse_iso_not_a_leap_day :
  parse_iso (u16 "2023-02-29T00:00:00.000Z") = InvalidDate.
Proof. reflexivity. Qed.

Example parse_iso_words : parse_iso (u16 "soon") = InvalidDate.
Proof. reflexivity. Qed.

Example JSON_parse_sample :
  JSON_parse (json_text " [1, -2.5e+10, 'aA\n', {'k': [true, false, null], 'k': {}}, []] ")
  = Some (JArray [JNumber (u16 "1"); JNumber (u16 "-2.5e+10"); JString [97; 65; 10]%N;
                  JObject [(u16 "k", JArray [JBool true; JBool false; JNull]);
                           (u16 "k", JObject [])];
                  JArray []]).
Proof. reflexivity. Qed.

Example JSON_parse_trailing_comma : JSON_parse (json_text "[1,]") = None.
Proof. reflexivity. Qed.

Example JSON_parse_leading_zero : JSON_parse (json_text "[01]") = None.
Proof. reflexivity. Qed.

Example JSON_stringify_escapes :
  JSON_stringify (JString ([34; 92; 10; 1; 0xD83D; 0xDE00; 0xDE00]%N))
  = [34; 92; 34; 92; 92; 92; 110]%N ++ u16 "\u0001" ++ [0xD83D; 0xDE00]%N
      ++ u16 "\ude00" ++ [34]%N.
Proof. reflexivity. Qed.

Example exportTodos_one_record :
  fst (exportTodos (run example_platform (OpAddTodo (u16 "Buy milk")) empty_world))
  = Ok (json_text "[" ++ [10]%N ++ json_text "  {" ++ [10]%N
        ++ json_text "    'id': 'loyw3v28k3j90'," ++ [10]%N
        ++ json_text "    'text': 'Buy milk'," ++ [10]%N
        ++ json_text "    'completed': false," ++ [10]%N
        ++ json_text "    'createdAt': '2023-11-14T22:13:20.001Z'," ++ [10]%N
        ++ json_text "    'updatedAt': '2023-11-14T22:13:20.002Z'" ++ [10]%N
        ++ json_text "  }" ++ [10]%N ++ json_text "]").
Proof. vm_compute. reflexivity. Qed.

Example saved_one_record :
  todolist_todos (localStorage (run example_platform (OpAddTodo (u16 "Buy milk")) empty_world))
  = Some (json_text "[{'id':'loyw3v28k3j90','text':'Buy milk','completed':false,'createdAt':'2023-11-14T22:13:20.001Z','updatedAt':'2023-11-14T22:13:20.002Z'}]").
Proof. vm_compute. reflexivity. Qed.

Example Number_toString_sample :
  map Number_toString [0; 7; 10; 99; 100; 1024]%nat
  = [u16 "0"; u16 "7"; u16 "10"; u16 "99"; u16 "100"; u16 "1024"].
Proof. vm_compute. reflexivity. Qed.

(** Start empty, add two records, toggle the first: the statistics are
    two records, one completed, one pending. *)
Example stats_after_toggle :
  fst (getStats (run example_platform (OpToggleTodo (id milk)) two_todos))
  = Ok {| total := 2; stats_completed := 1; pending := 1 |}.
Proof. vm_compute. reflexivity. Qed.

(** An update of an unknown id returns null and writes nothing. *)
Example updateTodo_unknown_id :
  updateTodo example_platform (u16 "unknown")
    {| updates_text := Some (u16 "x"); updates_completed := None |} two_todos
  = (Ok None, two_todos).
Proof. vm_compute. reflexivity. Qed.

(** A filter that is not one of the three is refused and the selection
    stays. *)
Example setFilter_bogus :
  setFilter example_platform (u16 "bogus") two_todos
  = (Throw (ValidationError "Invalid filter type. Must be one of: all, completed, pending"),
     two_todos).
Proof. vm_compute. reflexivity. Qed.

Example getFilteredTodos_completed :
  let w := run example_platform (OpSetFilter (u16 "completed"))
             (run example_platform (OpToggleTodo (id dog)) two_todos) in
  (id <$> filterTodos (todos w) (currentFilter w)) = [id dog].
Proof. vm_compute. reflexivity. Qed.

(** With a storage that refuses the write, the error that reaches the
    caller of [addTodo] is the plain error of the catch clause, and the
    record stays in memory. *)
Example addTodo_full_storage :
  ∃ w', addTodo full_storage_platform (u16 "Buy milk") empty_world
        = (Throw (GenericError "Failed to add todo: Failed to save todos to storage: Failed to save todos to localStorage"), w')
        ∧ length (todos w') = 1%nat
        ∧ localStorage w' = localStorage empty_world.
Proof. eexists. split; [vm_compute; reflexivity|]. split; reflexivity. Qed.

(** ** Saving *)

Lemma stored_record_valid t :
  has_valid_dates t -> stored_record t = Ok (Todo_toJSON t).
Proof.
  intros [Hc Hu]. unfold stored_record, Todo_toJSON.
  destruct (createdAt t); [|done]. destruct (updatedAt t); [|done]. done.
Qed.

Lemma stored_record_invalid t :
  ¬ has_valid_dates t -> ∃ e, stored_record t = Throw e.
Proof.
  intros H. unfold stored_record, has_valid_dates in *.
  destruct (createdAt t); simpl; [|eauto].
  destruct (updatedAt t); simpl; [|eauto].
  exfalso. apply H. done.
Qed.

Lemma stored_records_valid l :
  Forall has_valid_dates l -> stored_records l = Ok (map Todo_toJSON l).
Proof.
  induction 1 as [|t l Ht _ IH]; [done|].
  simpl. by rewrite (stored_record_valid t Ht), IH.
Qed.

Lemma stored_records_invalid l :
  ¬ Forall has_valid_dates l -> ∃ e, stored_records l = Throw e.
Proof.
  induction l as [|t l IH]; intros H.
  - exfalso. apply H. constructor.
  - simpl. destruct (decide (has_valid_dates t)) as [Ht|Ht].
    + rewrite (stored_record_valid t Ht).
      destruct IH as [e He].
      { intros Hl. apply H. by constructor. }
      rewrite He. eauto.
    + destruct (stored_record_invalid t Ht) as [e He]. rewrite He. eauto.
Qed.

Lemma saveToStorage_succeeds p w :
  write_succeeds p w (todos w) ->
  saveToStorage p w = (Ok tt, saved (todos w) w).
Proof.
  intros [Hv Hs].
  unfold saveToStorage, StorageUtils_saveTodos, try_catch, bind, gets, lift, setItem_todos.
  rewrite (stored_records_valid _ Hv), Hs. done.
Qed.

Lemma saveToStorage_fails p w :
  write_fails p w (todos w) ->
  ∃ w', saveToStorage p w =
          (Throw (StorageError "Failed to save todos to storage: Failed to save todos to localStorage"), w')
        ∧ todos w' = todos w ∧ currentFilter w' = currentFilter w
        ∧ localStorage w' = localStorage w
        ∧ clock_reads w' = clock_reads w ∧ random_draws w' = random_draws w.
Proof.
  intros H.
  unfold saveToStorage, StorageUtils_saveTodos, try_catch, bind, gets, lift, setItem_todos, throw.
  destruct (decide (Forall has_valid_dates (todos w))) as [Hv|Hv].
  - destruct H as [H|H]; [done|].
    rewrite (stored_records_valid _ Hv), H. simpl. eexists. split; [done|]. done.
  - destruct (stored_records_invalid _ Hv) as [e He]. rewrite He. simpl.
    eexists. split; [done|]. done.
Qed.

Lemma write_succeeds_or_fails p w l : write_succeeds p w l ∨ write_fails p w l.
Proof.
  unfold write_succeeds, write_fails.
  destruct (decide (Forall has_valid_dates l)); destruct (setItem_throws p (setItem_calls w)); tauto.
Qed.


(** ** Strings: trimming *)

Local Open Scope N_scope.

Lemma trimStart_length s : (length (trimStart s) ≤ length s)%nat.
Proof. induction s as [|c s IH]; simpl; [lia|]. destruct (isWhiteSpace c); simpl; lia. Qed.

Lemma trimStart_nil_iff s : trimStart s = [] ↔ blank s.
Proof.
  unfold blank. induction s as [|c s IH]; simpl.
  - split; [constructor | done].
  - destruct (isWhiteSpace c) eqn:E.
    + rewrite IH. split; [by constructor | by inversion 1].
    + split; [done | inversion 1; congruence].
Qed.

Lemma trimStart_head s c r : trimStart s = c :: r -> isWhiteSpace c = false.
Proof.
  induction s as [|a s IH]; simpl; [done|].
  destruct (isWhiteSpace a) eqn:E; [done|]. intros [= <- <-]. done.
Qed.

Lemma trimEnd_snoc s c :
  trimEnd (s ++ [c]) = if isWhiteSpace c then trimEnd s else s ++ [c].
Proof.
  unfold trimEnd. rewrite rev_app_distr. simpl.
  destruct (isWhiteSpace c); [done|]. simpl. by rewrite rev_involutive.
Qed.

Lemma trimEnd_nil : trimEnd [] = [].
Proof. done. Qed.

Lemma trimEnd_length s : (length (trimEnd s) ≤ length s)%nat.
Proof.
  unfold trimEnd. rewrite length_rev. etrans; [apply trimStart_length|]. by rewrite length_rev.
Qed.

Lemma trimEnd_nil_iff s : trimEnd s = [] ↔ blank s.
Proof.
  unfold trimEnd, blank. split.
  - intros H. apply (f_equal (@rev N)) in H. rewrite rev_involutive in H. simpl in H.
    apply trimStart_nil_iff in H. unfold blank in H.
    rewrite <- (rev_involutive s). by apply Forall_rev.
  - intros H. assert (Hr : trimStart (rev s) = []).
    { apply trimStart_nil_iff. by apply Forall_rev. }
    by rewrite Hr.
Qed.

(** [trimEnd] only removes white space at the end. *)
Lemma trimEnd_prefix s : ∃ tail, s = trimEnd s ++ tail ∧ blank tail.
Proof.
  induction s as [|c s IH] using rev_ind.
  - exists []. split; [done | constructor].
  - rewrite trimEnd_snoc. destruct (isWhiteSpace c) eqn:E.
    + destruct IH as (tail & Hs & Hb). exists (tail ++ [c]). split.
      * rewrite app_assoc. by rewrite <- Hs.
      * apply Forall_app. split; [done|]. by repeat constructor.
    + exists []. split; [by rewrite app_nil_r | constructor].
Qed.

Lemma trimEnd_last s c r : trimEnd s = r ++ [c] -> isWhiteSpace c = false.
Proof.
  induction s as [|a s IH] using rev_ind.
  - rewrite trimEnd_nil. by destruct r.
  - rewrite trimEnd_snoc. destruct (isWhiteSpace a) eqn:E; [done|].
    intros H. apply app_inj_tail in H as [_ ->]. done.
Qed.

Lemma trim_length s : (length (trim s) ≤ length s)%nat.
Proof. unfold trim. etrans; [apply trimEnd_length | apply trimStart_length]. Qed.

Lemma trim_nil_iff s : trim s = [] ↔ blank s.
Proof.
  unfold trim. rewrite trimEnd_nil_iff. split.
  - intros H. apply trimStart_nil_iff. destruct (trimStart s) as [|c r] eqn:E; [done|].
    apply trimStart_head in E. inversion H; congruence.
  - intros H. apply trimStart_nil_iff in H. rewrite H. constructor.
Qed.

Lemma trim_head s c r : trim s = c :: r -> isWhiteSpace c = false.
Proof.
  unfold trim. intros H.
  destruct (trimEnd_prefix (trimStart s)) as (tail & Hs & _).
  rewrite H in Hs. simpl in Hs. by apply trimStart_head in Hs.
Qed.

Lemma trim_last s c r : trim s = r ++ [c] -> isWhiteSpace c = false.
Proof. unfold trim. apply trimEnd_last. Qed.

(** ** Strings: words and the collapsing of white space *)

Lemma split_at_whitespace_cons s : ∃ word rest, split_at_whitespace s = word :: rest.
Proof.
  destruct s as [|c s]; simpl; [eauto|].
  destruct (isWhiteSpace c); [eauto|]. destruct (split_at_whitespace s); eauto.
Qed.

Lemma words_nil : words [] = [].
Proof. done. Qed.

Lemma words_cons_ws c s : isWhiteSpace c = true -> words (c :: s) = words s.
Proof. intros H. unfold words. simpl. rewrite H. done. Qed.

(** A code unit that is not white space opens or extends the first word. *)
Lemma words_cons_word c s :
  isWhiteSpace c = false ->
  words (c :: s) =
    match s with
    | [] => [[c]]
    | c' :: _ =>
        if isWhiteSpace c' then [c] :: words s
        else match words s with
             | word :: rest => (c :: word) :: rest
             | [] => [[c]]
             end
    end.
Proof.
  intros H. unfold words. simpl. rewrite H.
  destruct s as [|c' s']; [done|]. simpl.
  destruct (isWhiteSpace c') eqn:E.
  - rewrite filter_cons_True by done. rewrite filter_cons_False by (intros X; by apply X). done.
  - destruct (split_at_whitespace s') as [|word rest]; simpl.
    + rewrite !filter_cons_True by done. done.
    + rewrite !filter_cons_True by done. done.
Qed.

Lemma words_nil_iff s : words s = [] ↔ blank s.
Proof.
  unfold blank. induction s as [|c s IH]; [split; [constructor|done]|].
  destruct (isWhiteSpace c) eqn:E.
  - rewrite words_cons_ws by done. rewrite IH. split; [by constructor | by inversion 1].
  - rewrite words_cons_word by done. split.
    + destruct s as [|c' s']; [done|]. destruct (isWhiteSpace c'); [done|].
      destruct (words (c' :: s')); done.
    + inversion 1; congruence.
Qed.

Lemma words_trimStart s : words (trimStart s) = words s.
Proof.
  induction s as [|c s IH]; [done|]. simpl.
  destruct (isWhiteSpace c) eqn:E; [|done]. by rewrite words_cons_ws.
Qed.

Lemma words_app_blank s tail : blank tail -> words (s ++ tail) = words s.
Proof.
  intros Hb. induction s as [|c s IH]; simpl.
  - rewrite words_nil. by apply words_nil_iff.
  - destruct (isWhiteSpace c) eqn:E.
    + by rewrite !words_cons_ws.
    + rewrite !words_cons_word by done. rewrite IH.
      destruct s as [|c' s']; simpl; [|done].
      destruct tail as [|t tail']; [done|].
      inversion Hb as [|? ? Ht Hb']; subst. rewrite Ht. done.
Qed.

Lemma words_trim s : words (trim s) = words s.
Proof.
  unfold trim. destruct (trimEnd_prefix (trimStart s)) as (tail & Hs & Hb).
  transitivity (words (trimStart s)); [|apply words_trimStart].
  transitivity (words (trimEnd (trimStart s) ++ tail)); [symmetry; by apply words_app_blank | by rewrite <- Hs].
Qed.

Lemma join_cons_head sep c word rest :
  join_with sep ((c :: word) :: rest) = c :: join_with sep (word :: rest).
Proof. destruct rest; done. Qed.

Lemma ends_clean_tail c s : s ≠ [] -> ends_clean (c :: s) -> ends_clean s.
Proof. intros _ H r a ->. apply (H (c :: r) a). done. Qed.

Lemma ends_clean_not_blank s : s ≠ [] -> ends_clean s -> words s ≠ [].
Proof.
  intros Hne Hc Hw. apply words_nil_iff in Hw.
  destruct (exists_last Hne) as (r & c & ->).
  specialize (Hc r c eq_refl). apply Forall_app in Hw as [_ Hw].
  inversion Hw; congruence.
Qed.

Lemma replace_runs_words s :
  ends_clean s ->
  replace_runs true s = join_with [0x20] (words s) ∧
  replace_runs false s =
    match s with
    | c :: _ => if isWhiteSpace c then 0x20 :: join_with [0x20] (words s) else join_with [0x20] (words s)
    | [] => []
    end.
Proof.
  induction s as [|c s IH]; intros Hc; [done|].
  destruct s as [|c' s'].
  - assert (E : isWhiteSpace c = false) by (apply (Hc [] c); done).
    cbn [replace_runs]. rewrite E. rewrite words_cons_word by done. done.
  - assert (Hne : c' :: s' ≠ []) by done.
    destruct (IH (ends_clean_tail _ _ Hne Hc)) as [IHt IHf].
    assert (Hw : words (c' :: s') ≠ []).
    { apply ends_clean_not_blank; [done|]. by eapply ends_clean_tail. }
    cbn [replace_runs]. destruct (isWhiteSpace c) eqn:E.
    + rewrite words_cons_ws by done. cbn [replace_runs] in IHt. rewrite IHt. done.
    + rewrite words_cons_word by done. cbn [replace_runs] in IHf. rewrite IHf.
      destruct (isWhiteSpace c') eqn:E'.
      * destruct (words (c' :: s')) as [|w ws]; [done|]. done.
      * destruct (words (c' :: s')) as [|w ws]; [done|].
        rewrite join_cons_head. done.
Qed.

Lemma trim_ends_clean s : ends_clean (trim s).
Proof. intros r c H. by eapply trim_last. Qed.

(** The source's [text.trim().replace(/\s+/g, ' ')] is the text the
    specification describes. *)
Lemma sanitizeTodoText_collapsed s : sanitizeTodoText s = collapsed_text s.
Proof.
  unfold sanitizeTodoText, replace_whitespace_runs, collapsed_text.
  destruct (replace_runs_words (trim s) (trim_ends_clean s)) as [_ H].
  rewrite H. destruct (trim s) as [|c r] eqn:E.
  - rewrite <- words_trim, E. done.
  - rewrite (trim_head _ _ _ E). rewrite <- E. by rewrite words_trim.
Qed.

Lemma replace_runs_length b s : (length (replace_runs b s) ≤ length s)%nat.
Proof.
  revert b. induction s as [|c s IH]; intros b; simpl; [lia|].
  destruct (isWhiteSpace c); [destruct b|]; simpl.
  - specialize (IH true). lia.
  - specialize (IH true). lia.
  - specialize (IH false). lia.
Qed.



Local Open Scope Z_scope.

(** ** Validation *)

Lemma validateTodoText_accepts s w :
  acceptable_text s -> validateTodoText s w = (Ok tt, w).
Proof.
  intros [Hne Hlen]. unfold validateTodoText.
  rewrite bool_decide_eq_false_2 by (intros ->; apply Hne; reflexivity).
  assert (H1 : (length (trim s) =? 0)%nat = false).
  { apply Nat.eqb_neq. destruct (trim s); simpl; [done | lia]. }
  assert (H2 : (200 <? length (trim s))%nat = false) by (by apply Nat.ltb_ge).
  cbv zeta. rewrite H1, H2. reflexivity.
Qed.

Lemma validateTodoText_rejects s w :
  trim s = [] ∨ (200 < length (trim s))%nat ->
  ∃ msg, validateTodoText s w = (Throw (ValidationError msg), w).
Proof.
  intros H. unfold validateTodoText. case_bool_decide; [eauto|].
  destruct H as [H|H].
  - rewrite H. simpl. eauto.
  - destruct (length (trim s) =? 0)%nat; [eauto|].
    apply Nat.ltb_lt in H. rewrite H. eauto.
Qed.

Lemma validateId_accepts i w : usable_id i -> validateId i w = (Ok tt, w).
Proof.
  intros Hne. unfold validateId, usable_id in *.
  rewrite bool_decide_eq_false_2 by (intros ->; apply Hne; reflexivity).
  destruct (trim i); done.
Qed.

Lemma validateId_rejects i w :
  trim i = [] -> ∃ msg, validateId i w = (Throw (ValidationError msg), w).
Proof.
  intros H. unfold validateId. case_bool_decide; [eauto|]. rewrite H. simpl. eauto.
Qed.

(** ** Looking a record up *)

Lemma list_find_first i l before t after :
  first_with_id i l before t after ->
  list_find (has_id i) l = Some (length before, t).
Proof.
  intros (-> & Hid & Hb). apply list_find_Some. split; [|split].
  - by rewrite list_lookup_middle.
  - done.
  - intros j y Hy Hj. rewrite lookup_app_l in Hy by done.
    rewrite Forall_lookup in Hb. by apply (Hb j y).
Qed.

Lemma list_find_split i l n t :
  list_find (has_id i) l = Some (n, t) ->
  ∃ before after, first_with_id i l before t after ∧ n = length before.
Proof.
  intros H. apply list_find_Some in H as (Hl & Hid & Hb).
  exists (take n l), (drop (S n) l). split; [split; [|split]|].
  - by rewrite take_drop_middle.
  - done.
  - apply Forall_lookup. intros j y Hy.
    pose proof (lookup_lt_Some _ _ _ Hy) as Hlt. rewrite length_take in Hlt.
    rewrite lookup_take_lt in Hy by lia. apply (Hb j y Hy). lia.
  - rewrite length_take. apply lookup_lt_Some in Hl. lia.
Qed.

Lemma list_find_absent i l :
  Forall (fun x => id x ≠ i) l -> list_find (has_id i) l = None.
Proof. intros H. apply list_find_None. done. Qed.

Lemma insert_first (before after : list Todo) t t' :
  <[length before := t']> (before ++ t :: after) = before ++ t' :: after.
Proof. induction before as [|x b IH]; simpl; [done|]. by rewrite IH. Qed.

Lemma delete_first (before after : list Todo) t :
  delete (length before) (before ++ t :: after) = before ++ after.
Proof. induction before as [|x b IH]; simpl; [done|]. by rewrite IH. Qed.


(** ** Committing *)

Lemma saveToStorage_throws p w e w' :
  saveToStorage p w = (Throw e, w') -> instanceof_ValidationError e = false.
Proof.
  unfold saveToStorage, try_catch, throw.
  destruct (bind _ _ w) as [[[]|e0] w0]; [done|]. by intros [= <- <-].
Qed.

Lemma saveToStorage_frame p w :
  let w' := snd (saveToStorage p w) in
  todos w' = todos w ∧ currentFilter w' = currentFilter w ∧
  clock_reads w' = clock_reads w ∧ random_draws w' = random_draws w.
Proof.
  destruct (write_succeeds_or_fails p w (todos w)) as [H|H].
  - rewrite (saveToStorage_succeeds p w H). done.
  - destruct (saveToStorage_fails p w H) as (w' & -> & ? & ? & ? & ? & ?). done.
Qed.

Lemma commit_succeeds {A} p context (a : A) w :
  write_succeeds p w (todos w) ->
  commit p context a w = (Ok a, saved (todos w) w).
Proof. intros H. unfold commit. by rewrite (saveToStorage_succeeds p w H). Qed.

Lemma commit_fails {A} p context (a : A) w :
  write_fails p w (todos w) ->
  ∃ w', commit p context a w =
          (Throw (GenericError (context +:+
             "Failed to save todos to storage: Failed to save todos to localStorage")), w')
        ∧ todos w' = todos w ∧ currentFilter w' = currentFilter w
        ∧ localStorage w' = localStorage w
        ∧ clock_reads w' = clock_reads w ∧ random_draws w' = random_draws w.
Proof.
  intros H. unfold commit.
  destruct (saveToStorage_fails p w H) as (w' & -> & ?). by exists w'.
Qed.

Lemma commit_frame {A} p context (a : A) w :
  let w' := snd (commit p context a w) in
  todos w' = todos w ∧ currentFilter w' = currentFilter w ∧
  clock_reads w' = clock_reads w ∧ random_draws w' = random_draws w.
Proof.
  pose proof (saveToStorage_frame p w) as H. unfold commit.
  destruct (saveToStorage p w) as [[[]|e] w']; exact H.
Qed.

(** A body that ends in [saveToStorage p;; ret a], under a catch clause
    that lets validation errors through, is a commit. *)
Lemma save_then_ret_validation {A} p context (a : A) w :
  try_catch (saveToStorage p;; ret a) (rethrow_validation context) w = commit p context a w.
Proof.
  unfold try_catch, bind, commit, ret, rethrow_validation, throw.
  destruct (saveToStorage p w) as [[[]|e] w'] eqn:E; [done|].
  by rewrite (saveToStorage_throws _ _ _ _ E).
Qed.

Lemma save_then_ret_wrapped {A} p context (a : A) w :
  try_catch (saveToStorage p;; ret a) (rethrow_wrapped context) w = commit p context a w.
Proof.
  unfold try_catch, bind, commit, ret, rethrow_wrapped, throw.
  by destruct (saveToStorage p w) as [[[]|e] w'].
Qed.

(** ** What each mutating call does *)

Lemma addTodo_accepted p s w :
  acceptable_text s ->
  addTodo p s w =
    commit p "Failed to add todo: " (new_todo p w s)
      (with_todos (todos w ++ [new_todo p w s])
         (tick_clock (tick_clock (tick_random (tick_clock w))))).
Proof.
  intros H. rewrite <- save_then_ret_validation.
  unfold addTodo, try_catch, bind. rewrite (validateTodoText_accepts s w H).
  reflexivity.
Qed.

Lemma addTodo_rejected p s w :
  trim s = [] ∨ (200 < length (trim s))%nat ->
  ∃ msg, addTodo p s w = (Throw (ValidationError msg), w).
Proof.
  intros H. destruct (validateTodoText_rejects s w H) as [msg Hm].
  exists msg. unfold addTodo, try_catch, bind. rewrite Hm. reflexivity.
Qed.

Lemma acceptable_text_dec s :
  acceptable_text s ∨ (trim s = [] ∨ (200 < length (trim s))%nat).
Proof.
  unfold acceptable_text. destruct (decide (trim s = [])); [tauto|].
  destruct (decide (length (trim s) ≤ 200)%nat); [tauto|]. right. right. lia.
Qed.

Lemma usable_id_dec i : usable_id i ∨ trim i = [].
Proof. unfold usable_id. destruct (decide (trim i = [])); tauto. Qed.

Lemma updateTodo_found p i u w before t after :
  usable_id i ->
  first_with_id i (todos w) before t after ->
  match updates_text u with Some s => acceptable_text s | None => True end ->
  updateTodo p i u w =
    commit p "Failed to update todo: " (Some (updated_todo p w u t))
      (with_todos (before ++ updated_todo p w u t :: after) (tick_clock w)).
Proof.
  intros Hi Hf Ht. rewrite <- save_then_ret_validation.
  unfold updateTodo, try_catch, bind. rewrite (validateId_accepts i w Hi).
  unfold gets. cbv beta iota. rewrite (list_find_first _ _ _ _ _ Hf).
  destruct Hf as (Hl & _ & _). unfold updated_todo.
  destruct (updates_text u) as [s|].
  - rewrite (validateTodoText_accepts s w Ht).
    destruct (updates_completed u); simpl; rewrite Hl, insert_first; reflexivity.
  - destruct (updates_completed u); simpl; rewrite Hl, insert_first; reflexivity.
Qed.

Lemma updateTodo_bad_id p i u w :
  trim i = [] -> ∃ msg, updateTodo p i u w = (Throw (ValidationError msg), w).
Proof.
  intros H. destruct (validateId_rejects i w H) as [msg Hm].
  exists msg. unfold updateTodo, try_catch, bind. rewrite Hm. reflexivity.
Qed.

Lemma updateTodo_absent p i u w :
  usable_id i -> Forall (fun x => id x ≠ i) (todos w) ->
  updateTodo p i u w = (Ok None, w).
Proof.
  intros Hi Hf. unfold updateTodo, try_catch, bind. rewrite (validateId_accepts i w Hi).
  unfold gets. cbv beta iota. rewrite (list_find_absent _ _ Hf). reflexivity.
Qed.

Lemma updateTodo_bad_text p i u w before t after s :
  usable_id i ->
  first_with_id i (todos w) before t after ->
  updates_text u = Some s ->
  trim s = [] ∨ (200 < length (trim s))%nat ->
  ∃ msg, updateTodo p i u w = (Throw (ValidationError msg), w).
Proof.
  intros Hi Hf Hu Hs. destruct (validateTodoText_rejects s w Hs) as [msg Hm].
  exists msg. unfold updateTodo, try_catch, bind. rewrite (validateId_accepts i w Hi).
  unfold gets. cbv beta iota. rewrite (list_find_first _ _ _ _ _ Hf), Hu, Hm. reflexivity.
Qed.

Lemma getTodoById_found i w before t after :
  usable_id i -> first_with_id i (todos w) before t after ->
  getTodoById i w = (Ok (Some t), w).
Proof.
  intros Hi Hf. unfold getTodoById, try_catch, bind. rewrite (validateId_accepts i w Hi).
  unfold gets. cbv beta iota. rewrite (list_find_first _ _ _ _ _ Hf). reflexivity.
Qed.

Lemma getTodoById_absent i w :
  usable_id i -> Forall (fun x => id x ≠ i) (todos w) ->
  getTodoById i w = (Ok None, w).
Proof.
  intros Hi Hf. unfold getTodoById, try_catch, bind. rewrite (validateId_accepts i w Hi).
  unfold gets. cbv beta iota. rewrite (list_find_absent _ _ Hf). reflexivity.
Qed.

Lemma string_append_assoc (a b c : string) : (a +:+ b) +:+ c = a +:+ (b +:+ c).
Proof.
  induction a as [|x a IH]; [reflexivity|].
  change (String x ((a +:+ b) +:+ c) = String x (a +:+ (b +:+ c))). by rewrite IH.
Qed.

(** The catch clause of [toggleTodo] around the result of [updateTodo]. *)
Lemma rewrap_commit {A} p context context' (a : A) w :
  try_catch (commit p context a) (rethrow_validation context') w =
  commit p (context' +:+ context) a w.
Proof.
  unfold try_catch, commit, rethrow_validation, throw.
  destruct (saveToStorage p w) as [[[]|e] w']; [done|]. simpl.
  by rewrite string_append_assoc.
Qed.


Lemma toggleTodo_found p i w before t after :
  usable_id i ->
  first_with_id i (todos w) before t after ->
  let t' := updated_todo p w (set_completed (negb (completed t))) t in
  toggleTodo p i w =
    commit p "Failed to toggle todo: Failed to update todo: " (Some t')
      (with_todos (before ++ t' :: after) (tick_clock w)).
Proof.
  intros Hi Hf t'.
  transitivity (try_catch (updateTodo p i (set_completed (negb (completed t))))
                  (rethrow_validation "Failed to toggle todo: ") w).
  - unfold toggleTodo, try_catch, bind. rewrite (validateId_accepts i w Hi).
    rewrite (getTodoById_found i w _ _ _ Hi Hf). reflexivity.
  - unfold try_catch. rewrite (updateTodo_found p i (set_completed (negb (completed t))) w _ _ _ Hi Hf I).
    exact (rewrap_commit p "Failed to update todo: " "Failed to toggle todo: " (Some t') _).
Qed.

Lemma toggleTodo_bad_id p i w :
  trim i = [] -> ∃ msg, toggleTodo p i w = (Throw (ValidationError msg), w).
Proof.
  intros H. destruct (validateId_rejects i w H) as [msg Hm].
  exists msg. unfold toggleTodo, try_catch, bind. rewrite Hm. reflexivity.
Qed.

Lemma toggleTodo_absent p i w :
  usable_id i -> Forall (fun x => id x ≠ i) (todos w) ->
  toggleTodo p i w = (Ok None, w).
Proof.
  intros Hi Hf. unfold toggleTodo, try_catch, bind. rewrite (validateId_accepts i w Hi).
  rewrite (getTodoById_absent i w Hi Hf). reflexivity.
Qed.

Lemma deleteTodo_found p i w before t after :
  usable_id i ->
  first_with_id i (todos w) before t after ->
  deleteTodo p i w =
    commit p "Failed to delete todo: " true (with_todos (before ++ after) w).
Proof.
  intros Hi Hf. rewrite <- save_then_ret_validation.
  unfold deleteTodo, try_catch, bind. rewrite (validateId_accepts i w Hi).
  unfold gets. cbv beta iota. rewrite (list_find_first _ _ _ _ _ Hf).
  destruct Hf as (Hl & _ & _). simpl. rewrite Hl, delete_first. reflexivity.
Qed.

Lemma deleteTodo_bad_id p i w :
  trim i = [] -> ∃ msg, deleteTodo p i w = (Throw (ValidationError msg), w).
Proof.
  intros H. destruct (validateId_rejects i w H) as [msg Hm].
  exists msg. unfold deleteTodo, try_catch, bind. rewrite Hm. reflexivity.
Qed.

Lemma deleteTodo_absent p i w :
  usable_id i -> Forall (fun x => id x ≠ i) (todos w) ->
  deleteTodo p i w = (Ok false, w).
Proof.
  intros Hi Hf. unfold deleteTodo, try_catch, bind. rewrite (validateId_accepts i w Hi).
  unfold gets. cbv beta iota. rewrite (list_find_absent _ _ Hf). reflexivity.
Qed.

Lemma deleteCompletedTodos_commit p w :
  deleteCompletedTodos p w =
    commit p "Failed to delete completed todos: "
      (length (todos w) - length (filter_pending (todos w)))%nat
      (with_todos (filter_pending (todos w)) w).
Proof.
  unfold deleteCompletedTodos, try_catch, bind, commit, gets, modify, ret, rethrow_wrapped, throw.
  cbv beta iota.
  pose proof (saveToStorage_frame p (with_todos (filter_pending (todos w)) w)) as (Ht & _).
  destruct (saveToStorage p (with_todos (filter_pending (todos w)) w)) as [[[]|e] w']; [|done].
  simpl in Ht. rewrite Ht. done.
Qed.

Lemma clearAll_commit p w :
  clearAll p w = commit p "Failed to clear all todos: " tt (with_todos [] w).
Proof.
  unfold clearAll, try_catch, bind, commit, modify, rethrow_wrapped, throw. cbv beta iota.
  by destruct (saveToStorage p (with_todos [] w)) as [[[]|e] w'].
Qed.

Lemma importTodos_array p s w elements :
  JSON_parse s = Some (JArray elements) ->
  importTodos p s w =
    commit p "Failed to import todos: " (length (validTodos_of p elements))
      (with_todos (validTodos_of p elements) w).
Proof.
  intros H. rewrite <- save_then_ret_wrapped.
  unfold importTodos, try_catch, bind. rewrite H. reflexivity.
Qed.

Lemma importTodos_refused p s w :
  (∀ elements, JSON_parse s ≠ Some (JArray elements)) ->
  ∃ msg, importTodos p s w = (Throw (GenericError msg), w).
Proof.
  intros H. unfold importTodos, try_catch, bind.
  destruct (JSON_parse s) as [[]|] eqn:E; try (eexists; reflexivity).
  by destruct (H elements).
Qed.

(** Calls that leave the collection and the clock alone. *)
Lemma setFilter_frame p f w :
  todos (snd (setFilter p f w)) = todos w ∧
  clock_reads (snd (setFilter p f w)) = clock_reads w.
Proof.
  cbv [setFilter try_catch bind validateFilter modify saveFilterToStorage
       StorageUtils_saveFilter setItem_filter gets rethrow_validation throw ret].
  case_bool_decide; [|done]. simpl.
  destruct (setItem_throws p (setItem_calls w)); simpl; split; reflexivity.
Qed.

Lemma clearStorage_world w :
  clearStorage w =
    (Ok tt, with_currentFilter (u16 "all") (with_todos []
              (with_localStorage {| todolist_todos := None; todolist_filter := None |} w))).
Proof. reflexivity. Qed.


(** ** Adding a record *)

(** Claim C5.  For every input string that is empty, made of white space
    only, or longer than 200 code units after trimming, [addTodo] throws a
    ValidationError and leaves the world exactly as it was: the same
    records in the collection and nothing written to storage. *)
Theorem addTodo_invalid_text_rejected p w s :
  blank s ∨ (200 < length (trim s))%nat ->
  ∃ msg, addTodo p s w = (Throw (ValidationError msg), w).
Proof.
  intros H. apply addTodo_rejected.
  destruct H as [H|H]; [left; by apply trim_nil_iff | by right].
Qed.

Lemma addTodo_invalid_text_rejected_witness :
  ∃ msg, addTodo example_platform (u16 "   ") empty_world
         = (Throw (ValidationError msg), empty_world).
Proof.
  apply addTodo_invalid_text_rejected. left. unfold blank. simpl.
  repeat constructor.
Defined.

(** Claim C1, as the code has it.  For every input string whose trimmed
    form is non-empty and at most 200 code units long, and provided the
    persistence write goes through (the dates of the records already held
    are valid and [setItem] does not throw), [addTodo] returns a new
    record whose text is the words of the input separated by single
    spaces, whose completed flag is false, whose createdAt and updatedAt
    are the two clock readings that follow the one used for the id (so
    they are equal exactly when the clock did not advance in between),
    and which is appended at the end of the collection; the collection is
    then the stored one. *)
Theorem addTodo_valid_text p w s :
  acceptable_text s ->
  Forall has_valid_dates (todos w) ->
  setItem_throws p (setItem_calls w) = false ->
  ∃ t w',
    addTodo p s w = (Ok t, w')
    ∧ text t = collapsed_text s
    ∧ completed t = false
    ∧ createdAt t = ValidDate (Date_now p (S (clock_reads w)))
    ∧ updatedAt t = ValidDate (Date_now p (S (S (clock_reads w))))
    ∧ todos w' = todos w ++ [t]
    ∧ in_sync w'.
Proof.
  intros Hs Hv Hw. exists (new_todo p w s). eexists.
  rewrite (addTodo_accepted p s w Hs). split.
  - apply commit_succeeds. split; [|exact Hw].
    simpl. apply Forall_app. split; [exact Hv|]. repeat constructor; done.
  - split; [apply sanitizeTodoText_collapsed|].
    repeat split; reflexivity.
Qed.

Lemma addTodo_valid_text_witness :
  ∃ t w',
    addTodo example_platform (u16 "  Buy   milk ") empty_world = (Ok t, w')
    ∧ text t = collapsed_text (u16 "  Buy   milk ")
    ∧ completed t = false
    ∧ createdAt t = ValidDate (Date_now example_platform 1)
    ∧ updatedAt t = ValidDate (Date_now example_platform 2)
    ∧ todos w' = todos empty_world ++ [t]
    ∧ in_sync w'.
Proof.
  apply (addTodo_valid_text example_platform empty_world (u16 "  Buy   milk ")).
  - split; [vm_compute; discriminate | vm_compute; lia].
  - constructor.
  - reflexivity.
Defined.

(** Claim C1 as stated fails: the two dates come from two readings of the
    clock, and on a clock that advances between them the new record has
    createdAt different from updatedAt. *)
Lemma addTodo_stamps_differ :
  ∃ t w',
    addTodo example_platform (u16 "Buy milk") empty_world = (Ok t, w')
    ∧ createdAt t = ValidDate 1700000000001
    ∧ updatedAt t = ValidDate 1700000000002
    ∧ createdAt t ≠ updatedAt t.
Proof.
  eexists. eexists. split; [vm_compute; reflexivity|].
  split; [reflexivity|]. split; [reflexivity|]. discriminate.
Qed.

(** ** Clearing *)

(** Claim C10, as the code has it.  [clearAll] empties the collection
    in memory and leaves the filter selection alone: in every world
    [getCurrentFilter] returns after [clearAll] what it returned before,
    whether the call returned or threw.  When [setItem] accepts the
    write the call returns and the stored collection is the empty
    array. *)
Theorem clearAll_keeps_filter p w :
  let w' := snd (clearAll p w) in
  todos w' = []
  ∧ currentFilter w' = currentFilter w
  ∧ fst (getCurrentFilter w') = fst (getCurrentFilter w)
  ∧ (setItem_throws p (setItem_calls w) = false ->
     fst (clearAll p w) = Ok tt
     ∧ todolist_todos (localStorage w') = Some (u16 "[]")).
Proof.
  rewrite clearAll_commit. cbv zeta.
  pose proof (commit_frame p "Failed to clear all todos: " tt (with_todos [] w)) as (Ht & Hf & _).
  split; [exact Ht|]. split; [exact Hf|]. split.
  - unfold getCurrentFilter, try_catch, gets. simpl. by rewrite Hf.
  - intros Hw. rewrite commit_succeeds by (split; [constructor | exact Hw]). done.
Qed.

Lemma clearAll_keeps_filter_witness :
  let w := snd (setFilter example_platform (u16 "completed")
                  (snd (addTodo example_platform (u16 "Buy milk") empty_world))) in
  let w' := snd (clearAll example_platform w) in
  length (todos w) = 1%nat
  ∧ fst (getCurrentFilter w) = Ok (u16 "completed")
  ∧ todos w' = []
  ∧ currentFilter w' = currentFilter w
  ∧ fst (getCurrentFilter w') = fst (getCurrentFilter w)
  ∧ fst (clearAll example_platform w) = Ok tt
  ∧ todolist_todos (localStorage w') = Some (u16 "[]").
Proof.
  split; [vm_compute; reflexivity|]. split; [vm_compute; reflexivity|].
  destruct (clearAll_keeps_filter example_platform
              (snd (setFilter example_platform (u16 "completed")
                      (snd (addTodo example_platform (u16 "Buy milk") empty_world)))))
    as (H1 & H2 & H3 & H4).
  split; [exact H1|]. split; [exact H2|]. split; [exact H3|].
  apply H4. reflexivity.
Defined.

(** Claim C10 as stated fails where it says that the empty collection is
    persisted: with a storage that refuses the write, [clearAll] on the
    two records throws, the collection in memory is empty, and storage
    still holds the two records. *)
Lemma clearAll_full_storage_not_persisted :
  in_sync two_todos
  ∧ length (todos two_todos) = 2%nat
  ∧ ∃ w', clearAll full_storage_platform two_todos
          = (Throw (GenericError "Failed to clear all todos: Failed to save todos to storage: Failed to save todos to localStorage"), w')
          ∧ todos w' = []
          ∧ todolist_todos (localStorage w') = Some (stored_text (todos two_todos))
          ∧ todolist_todos (localStorage w') ≠ Some (u16 "[]").
Proof.
  split; [vm_compute; reflexivity|]. split; [reflexivity|].
  eexists. split; [vm_compute; reflexivity|]. split; [reflexivity|].
  split; [vm_compute; reflexivity|]. vm_compute. discriminate.
Qed.


(** ** Toggling and updating *)

Lemma touch_updated p w c t :
  updated_todo p w (set_completed c) t = touch (Date_now p (clock_reads w)) c t.
Proof. reflexivity. Qed.

Lemma touch_no_updates p w t :
  updated_todo p w no_updates t = touch (Date_now p (clock_reads w)) (completed t) t.
Proof. reflexivity. Qed.

Lemma first_with_id_replace i before t t' after :
  first_with_id i (before ++ t :: after) before t after ->
  id t' = id t ->
  first_with_id i (before ++ t' :: after) before t' after.
Proof. intros (_ & Hid & Hb) Ht. split; [done|]. split; [congruence | done]. Qed.

(** Claim C9, as the code has it.  For every id that [validateId] lets
    through, [updateTodo] with neither a text nor a completed field
    replaces the first record with that id by a record with the same id,
    text, completed flag and createdAt and with updatedAt set to the
    current reading of the clock; when the persistence write goes through
    the call returns that record (not null) and the stored collection is
    the new one. *)
Theorem updateTodo_no_fields p i w before t after :
  usable_id i ->
  first_with_id i (todos w) before t after ->
  let t' := touch (Date_now p (clock_reads w)) (completed t) t in
  let w' := snd (updateTodo p i no_updates w) in
  todos w' = before ++ t' :: after
  ∧ id t' = id t ∧ text t' = text t ∧ completed t' = completed t
  ∧ createdAt t' = createdAt t
  ∧ updatedAt t' = ValidDate (Date_now p (clock_reads w))
  ∧ (write_succeeds p w (before ++ t' :: after) ->
     fst (updateTodo p i no_updates w) = Ok (Some t') ∧ in_sync w').
Proof.
  intros Hi Hf t' w'. subst w'.
  rewrite (updateTodo_found p i no_updates w before t after Hi Hf I).
  rewrite touch_no_updates. fold t'.
  pose proof (commit_frame p "Failed to update todo: " (Some t')
                (with_todos (before ++ t' :: after) (tick_clock w))) as (Ht & _).
  split; [exact Ht|]. repeat (split; [reflexivity|]).
  intros Hw. rewrite commit_succeeds by exact Hw. split; reflexivity.
Qed.

(** ** Deleting *)

(** Claim C8, as the code has it.  For every id that [validateId] lets
    through: if no record has that id, [deleteTodo] returns false and
    the world is unchanged; if some record has it, the first such record
    is removed, so the count decreases by exactly one and the other
    records stay as they were and in their order, and when the
    persistence write goes through the call returns true. *)
Theorem deleteTodo_by_id p i w :
  usable_id i ->
  (Forall (fun x => id x ≠ i) (todos w) -> deleteTodo p i w = (Ok false, w))
  ∧ (∀ before t after,
       first_with_id i (todos w) before t after ->
       let w' := snd (deleteTodo p i w) in
       todos w' = before ++ after
       ∧ (length (todos w') + 1 = length (todos w))%nat
       ∧ (write_succeeds p w (before ++ after) ->
          fst (deleteTodo p i w) = Ok true ∧ in_sync w')).
Proof.
  intros Hi. split; [apply deleteTodo_absent; exact Hi|].
  intros before t after Hf w'. subst w'.
  rewrite (deleteTodo_found p i w before t after Hi Hf).
  pose proof (commit_frame p "Failed to delete todo: " true
                (with_todos (before ++ after) w)) as (Ht & _).
  split; [exact Ht|]. split.
  - rewrite Ht. destruct Hf as (-> & _). simpl. rewrite !length_app. simpl. lia.
  - intros Hw. rewrite commit_succeeds by exact Hw. split; reflexivity.
Qed.

Lemma filter_pending_completed_length l :
  (length l - length (filter_pending l) = length (filter_completed l))%nat.
Proof.
  unfold filter_pending, filter_completed.
  induction l as [|t l IH]; [done|].
  pose proof (length_filter (fun todo => Is_true (negb (completed todo))) l) as Hle.
  rewrite !filter_cons.
  repeat case_decide; destruct (completed t); simpl in *; try tauto; lia.
Qed.

Lemma filter_pending_elem t l :
  t ∈ filter_pending l ↔ t ∈ l ∧ completed t = false.
Proof.
  unfold filter_pending. rewrite list_elem_of_filter.
  destruct (completed t); simpl; intuition congruence.
Qed.

Lemma filter_pending_idemp l : filter_pending (filter_pending l) = filter_pending l.
Proof.
  unfold filter_pending. induction l as [|t l IH]; [done|].
  rewrite !filter_cons. case_decide; [|done].
  rewrite filter_cons. case_decide; [|done]. by rewrite IH.
Qed.

Lemma filter_completed_pending l : filter_completed (filter_pending l) = [].
Proof.
  unfold filter_pending, filter_completed. induction l as [|t l IH]; [done|].
  rewrite !filter_cons. case_decide; [|done].
  rewrite filter_cons. case_decide; [|done].
  destruct (completed t); simpl in *; tauto.
Qed.

(** Claim C7, as the code has it.  In every world [deleteCompletedTodos]
    leaves in the collection exactly the records whose completed flag is
    false, in their original order; when the persistence write goes
    through it returns the number of records removed.  A second call in
    immediate succession removes nothing, and returns 0 when its write
    goes through. *)
Theorem deleteCompletedTodos_removes_completed p w :
  let w1 := snd (deleteCompletedTodos p w) in
  let w2 := snd (deleteCompletedTodos p w1) in
  todos w1 = filter_pending (todos w)
  ∧ (∀ t, t ∈ todos w1 ↔ t ∈ todos w ∧ completed t = false)
  ∧ sublist (todos w1) (todos w)
  ∧ (write_succeeds p w (todos w1) ->
     fst (deleteCompletedTodos p w) = Ok (length (filter_completed (todos w))))
  ∧ todos w2 = todos w1
  ∧ (write_succeeds p w1 (todos w1) -> fst (deleteCompletedTodos p w1) = Ok 0%nat).
Proof.
  intros w1 w2.
  assert (H1 : todos w1 = filter_pending (todos w)).
  { subst w1. rewrite deleteCompletedTodos_commit.
    by destruct (commit_frame p "Failed to delete completed todos: "
                   (length (todos w) - length (filter_pending (todos w)))%nat
                   (with_todos (filter_pending (todos w)) w)) as (Ht & _). }
  assert (H2 : todos w2 = filter_pending (todos w1)).
  { subst w2. rewrite deleteCompletedTodos_commit.
    by destruct (commit_frame p "Failed to delete completed todos: "
                   (length (todos w1) - length (filter_pending (todos w1)))%nat
                   (with_todos (filter_pending (todos w1)) w1)) as (Ht & _). }
  split; [exact H1|]. split; [|split; [|split; [|split]]].
  - intros t. rewrite H1. apply filter_pending_elem.
  - rewrite H1. apply sublist_filter.
  - intros Hw. rewrite deleteCompletedTodos_commit.
    rewrite commit_succeeds by (simpl; by rewrite <- H1).
    simpl. by rewrite filter_pending_completed_length.
  - rewrite H2, H1. apply filter_pending_idemp.
  - intros Hw. rewrite deleteCompletedTodos_commit.
    assert (Hp : filter_pending (todos w1) = todos w1).
    { rewrite H1. apply filter_pending_idemp. }
    rewrite commit_succeeds by (simpl; by rewrite Hp).
    simpl. rewrite filter_pending_completed_length, H1, filter_completed_pending. done.
Qed.


(** ** Worked examples *)

Lemma two_todos_records : todos two_todos = [milk; dog].
Proof. vm_compute. reflexivity. Qed.

Lemma milk_is_first : first_with_id (id milk) (todos two_todos) [] milk [dog].
Proof. split; [vm_compute; reflexivity|]. split; [reflexivity | constructor]. Qed.

Lemma milk_id_usable : usable_id (id milk).
Proof. vm_compute. discriminate. Qed.

Lemma updateTodo_no_fields_witness :
  let t' := touch (Date_now example_platform (clock_reads two_todos)) (completed milk) milk in
  let w' := snd (updateTodo example_platform (id milk) no_updates two_todos) in
  todos w' = [] ++ t' :: [dog]
  ∧ id t' = id milk ∧ text t' = text milk ∧ completed t' = completed milk
  ∧ createdAt t' = createdAt milk
  ∧ updatedAt t' = ValidDate (Date_now example_platform (clock_reads two_todos))
  ∧ fst (updateTodo example_platform (id milk) no_updates two_todos) = Ok (Some t')
  ∧ in_sync w'.
Proof.
  destruct (updateTodo_no_fields example_platform (id milk) two_todos [] milk [dog]
              milk_id_usable milk_is_first) as (H1 & H2 & H3 & H4 & H5 & H6 & H7).
  repeat (split; [assumption|]).
  apply H7. split; [|reflexivity].
  repeat constructor; discriminate.
Defined.

(** Claim C9 as stated fails for a record whose id is a space:
    [updateTodo] with no field throws a ValidationError. *)
Lemma updateTodo_blank_id_throws :
  reachable example_platform blank_id_world
  ∧ ∃ t, todos blank_id_world = [t]
         ∧ id t = u16 " "
         ∧ updateTodo example_platform (id t) no_updates blank_id_world
           = (Throw (ValidationError "Todo ID cannot be empty"), blank_id_world).
Proof.
  split; [apply reachable_step, reachable_empty|].
  eexists. split; [vm_compute; reflexivity|]. split; [reflexivity|].
  vm_compute. reflexivity.
Qed.

Lemma deleteTodo_by_id_witness :
  let w' := snd (deleteTodo example_platform (id milk) two_todos) in
  deleteTodo example_platform (u16 "absent") two_todos = (Ok false, two_todos)
  ∧ todos w' = [] ++ [dog]
  ∧ (length (todos w') + 1 = length (todos two_todos))%nat
  ∧ fst (deleteTodo example_platform (id milk) two_todos) = Ok true
  ∧ in_sync w'.
Proof.
  split.
  - apply (deleteTodo_by_id example_platform (u16 "absent") two_todos).
    + vm_compute. discriminate.
    + rewrite two_todos_records. repeat constructor; discriminate.
  - destruct (deleteTodo_by_id example_platform (id milk) two_todos milk_id_usable)
      as [_ H].
    destruct (H [] milk [dog] milk_is_first) as (H1 & H2 & H3).
    split; [exact H1|]. split; [exact H2|].
    apply H3. split; [|reflexivity]. repeat constructor; discriminate.
Defined.

(** Claim C8 as stated fails for the id made of one space: it is not
    empty and no record has it, yet [deleteTodo] does not return false,
    it throws a ValidationError. *)
Lemma deleteTodo_space_id_throws :
  u16 " " ≠ []
  ∧ Forall (fun x => id x ≠ u16 " ") (todos empty_world)
  ∧ deleteTodo example_platform (u16 " ") empty_world
    = (Throw (ValidationError "Todo ID cannot be empty"), empty_world).
Proof. split; [discriminate|]. split; [constructor | vm_compute; reflexivity]. Qed.

Lemma milk_done_records :
  todos milk_done = [touch 1700000000006 true milk; dog].
Proof. vm_compute. reflexivity. Qed.

Lemma deleteCompletedTodos_removes_completed_witness :
  let w1 := snd (deleteCompletedTodos example_platform milk_done) in
  let w2 := snd (deleteCompletedTodos example_platform w1) in
  map completed (todos milk_done) = [true; false]
  ∧ todos w1 = [dog]
  ∧ (∀ t, t ∈ todos w1 ↔ t ∈ todos milk_done ∧ completed t = false)
  ∧ sublist (todos w1) (todos milk_done)
  ∧ fst (deleteCompletedTodos example_platform milk_done) = Ok 1%nat
  ∧ todos w2 = todos w1
  ∧ fst (deleteCompletedTodos example_platform w1) = Ok 0%nat.
Proof.
  destruct (deleteCompletedTodos_removes_completed example_platform milk_done)
    as (H1 & H2 & H3 & H4 & H5 & H6).
  assert (Hp : filter_pending (todos milk_done) = [dog]).
  { rewrite milk_done_records. vm_compute. reflexivity. }
  assert (Hc : length (filter_completed (todos milk_done)) = 1%nat).
  { rewrite milk_done_records. vm_compute. reflexivity. }
  rewrite Hp in H1. rewrite Hc in H4.
  split; [by rewrite milk_done_records|]. split; [exact H1|].
  split; [exact H2|]. split; [exact H3|].
  split; [|split; [exact H5|]].
  - apply H4. split; [|reflexivity]. rewrite H1.
    repeat constructor; discriminate.
  - apply H6. split; [|reflexivity]. rewrite H1.
    repeat constructor; discriminate.
Defined.

(** Claim C7 as stated fails in a collection that holds a record with an
    invalid date: nothing is completed, and [deleteCompletedTodos] does
    not return the number 0, it throws, because the collection cannot be
    written ([toISOString] throws on the invalid date). *)
Lemma deleteCompletedTodos_invalid_date_throws :
  reachable example_platform invalid_date_world
  ∧ ∃ t, todos invalid_date_world = [t]
         ∧ completed t = false
         ∧ createdAt t = InvalidDate
         ∧ deleteCompletedTodos example_platform invalid_date_world
           = (Throw (GenericError "Failed to delete completed todos: Failed to save todos to storage: Failed to save todos to localStorage"),
              invalid_date_world).
Proof.
  split; [apply reachable_step, reachable_empty|].
  eexists. split; [vm_compute; reflexivity|]. split; [reflexivity|].
  split; [reflexivity|]. vm_compute. reflexivity.
Qed.


(** ** A write that fails *)

Lemma commit_raised {A} p context (a : A) w w1 :
  localStorage w1 = localStorage w ->
  setItem_calls w1 = setItem_calls w ->
  write_fails p w (todos w1) ->
  raised_unsaved (commit p context a w1) w (todos w1).
Proof.
  intros Hs Hc Hw.
  assert (Hw1 : write_fails p w1 (todos w1)).
  { unfold write_fails in *. by rewrite Hc. }
  destruct (commit_fails p context a w1 Hw1) as (w' & -> & Ht & _ & Hl & _).
  eexists. exists w'. split; [reflexivity|]. split; [exact Ht | congruence].
Qed.

(** Claim C4, as the code has it.  For each mutating operation (addTodo,
    updateTodo, toggleTodo, deleteTodo, deleteCompletedTodos, clearAll,
    importTodos) that gets as far as its persistence write: if that write
    fails, the call throws, the collection in memory is the mutated one
    (nothing is rolled back), and storage keeps what it held before; so
    memory and storage, if they agreed before, disagree afterwards
    whenever the mutated collection is written differently from the
    previous one. *)
Theorem write_failure_is_not_rolled_back p w :
  (∀ s, acceptable_text s ->
        let l := todos w ++ [new_todo p w s] in
        write_fails p w l -> raised_unsaved (addTodo p s w) w l)
  ∧ (∀ i u before t after,
        usable_id i -> first_with_id i (todos w) before t after ->
        match updates_text u with Some s => acceptable_text s | None => True end ->
        let l := before ++ updated_todo p w u t :: after in
        write_fails p w l -> raised_unsaved (updateTodo p i u w) w l)
  ∧ (∀ i before t after,
        usable_id i -> first_with_id i (todos w) before t after ->
        let l := before ++ touch (Date_now p (clock_reads w)) (negb (completed t)) t :: after in
        write_fails p w l -> raised_unsaved (toggleTodo p i w) w l)
  ∧ (∀ i before t after,
        usable_id i -> first_with_id i (todos w) before t after ->
        let l := before ++ after in
        write_fails p w l -> raised_unsaved (deleteTodo p i w) w l)
  ∧ (let l := filter_pending (todos w) in
     write_fails p w l -> raised_unsaved (deleteCompletedTodos p w) w l)
  ∧ (write_fails p w [] -> raised_unsaved (clearAll p w) w [])
  ∧ (∀ s elements,
        JSON_parse s = Some (JArray elements) ->
        let l := validTodos_of p elements in
        write_fails p w l -> raised_unsaved (importTodos p s w) w l)
  ∧ (∀ A (r : Result A * World) l,
        raised_unsaved r w l -> in_sync w ->
        stored_text l ≠ stored_text (todos w) -> ¬ in_sync (snd r)).
Proof.
  repeat split.
  - intros s Hs l Hw. rewrite (addTodo_accepted p s w Hs).
    by apply (commit_raised p _ _ w
                (with_todos l (tick_clock (tick_clock (tick_random (tick_clock w)))))).
  - intros i u before t after Hi Hf Hu l Hw.
    rewrite (updateTodo_found p i u w before t after Hi Hf Hu).
    by apply (commit_raised p _ _ w (with_todos l (tick_clock w))).
  - intros i before t after Hi Hf l Hw.
    rewrite (toggleTodo_found p i w before t after Hi Hf). cbv zeta.
    rewrite touch_updated.
    by apply (commit_raised p _ _ w (with_todos l (tick_clock w))).
  - intros i before t after Hi Hf l Hw.
    rewrite (deleteTodo_found p i w before t after Hi Hf).
    by apply (commit_raised p _ _ w (with_todos l w)).
  - intros l Hw. rewrite deleteCompletedTodos_commit.
    by apply (commit_raised p _ _ w (with_todos l w)).
  - intros Hw. rewrite clearAll_commit.
    by apply (commit_raised p _ _ w (with_todos [] w)).
  - intros s elements Hp l Hw. rewrite (importTodos_array p s w elements Hp).
    by apply (commit_raised p _ _ w (with_todos l w)).
  - intros A r l (e & w' & -> & Ht & Hl) Hsync Hne Hsync'.
    unfold in_sync in *. simpl in Hsync'. rewrite Hl, Ht, Hsync in Hsync'.
    by injection Hsync'.
Qed.

Lemma write_failure_is_not_rolled_back_witness :
  let p := full_storage_platform in
  let w := two_todos in
  raised_unsaved (addTodo p (u16 "Feed cat") w) w (todos w ++ [new_todo p w (u16 "Feed cat")])
  ∧ raised_unsaved (updateTodo p (id milk) no_updates w) w
      ([] ++ updated_todo p w no_updates milk :: [dog])
  ∧ raised_unsaved (toggleTodo p (id milk) w) w
      ([] ++ touch (Date_now p (clock_reads w)) (negb (completed milk)) milk :: [dog])
  ∧ raised_unsaved (deleteTodo p (id milk) w) w ([] ++ [dog])
  ∧ raised_unsaved (deleteCompletedTodos p w) w (filter_pending (todos w))
  ∧ raised_unsaved (clearAll p w) w []
  ∧ raised_unsaved (importTodos p (u16 "[]") w) w (validTodos_of p [])
  ∧ ¬ in_sync (snd (clearAll p w)).
Proof.
  intros p w.
  destruct (write_failure_is_not_rolled_back p w)
    as (Hadd & Hupd & Htog & Hdel & Hdc & Hclr & Himp & Hdiv).
  assert (Hfail : ∀ l, write_fails p w l) by (intros l; right; reflexivity).
  split; [apply Hadd; [split; [vm_compute; discriminate | vm_compute; lia] | apply Hfail]|].
  split; [apply (Hupd (id milk) no_updates [] milk [dog]); [apply milk_id_usable | apply milk_is_first | exact I | apply Hfail]|].
  split; [apply (Htog (id milk) [] milk [dog]); [apply milk_id_usable | apply milk_is_first | apply Hfail]|].
  split; [apply (Hdel (id milk) [] milk [dog]); [apply milk_id_usable | apply milk_is_first | apply Hfail]|].
  split; [apply Hdc, Hfail|].
  split; [apply Hclr, Hfail|].
  split; [apply Himp; [vm_compute; reflexivity | apply Hfail]|].
  apply (Hdiv unit _ []); [apply Hclr, Hfail | vm_compute; reflexivity | vm_compute; discriminate].
Defined.

(** Claim C4 as stated fails when the mutation changes nothing: clearing
    an empty collection whose empty array is already stored, with a
    storage that refuses the write, throws, and memory and storage still
    agree.  (The exception that reaches the caller is moreover the plain
    error built by the catch clause of [clearAll], which wraps the
    StorageError of [saveToStorage].) *)
Lemma clearAll_write_failure_without_divergence :
  let w := run example_platform OpClearAll empty_world in
  in_sync w
  ∧ setItem_throws full_storage_platform (setItem_calls w) = true
  ∧ ∃ w', clearAll full_storage_platform w
          = (Throw (GenericError "Failed to clear all todos: Failed to save todos to storage: Failed to save todos to localStorage"), w')
          ∧ todos w' = []
          ∧ in_sync w'.
Proof.
  split; [vm_compute; reflexivity|]. split; [reflexivity|].
  eexists. split; [vm_compute; reflexivity|]. split; vm_compute; reflexivity.
Qed.


(** ** The invariants of the collection *)

(** The platform is fixed, and its clock never goes back. *)
Section Invariants.
Variable p : Platform.
Hypothesis clock_monotone : monotone_clock p.

Lemma stamped_before_mono n m t :
  (n ≤ m)%nat -> stamped_before p n t -> stamped_before p m t.
Proof.
  intros Hnm (c & u & Hc & Hu & Hcu & Hk). exists c, u.
  repeat split; try done. intros k Hmk. apply Hk. lia.
Qed.



Lemma well_kept_later n m l : (n ≤ m)%nat -> well_kept p n l -> well_kept p m l.
Proof.
  intros Hnm (H1 & H2 & H3). split; [exact H1|]. split; [exact H2|].
  eapply Forall_impl; [exact H3|]. intros t. by apply stamped_before_mono.
Qed.

Lemma Forall_of_sublist {A} (P : A -> Prop) (l1 l2 : list A) :
  sublist l1 l2 -> Forall P l2 -> Forall P l1.
Proof.
  intros Hs H. apply Forall_forall. intros x Hx.
  rewrite Forall_forall in H. apply H. by eapply elem_of_sublist.
Qed.





Lemma updated_todo_stamped w u t :
  stamped_before p (clock_reads w) t ->
  stamped_before p (S (clock_reads w)) (updated_todo p w u t).
Proof.
  intros (c & x & Hc & Hx & Hcx & Hk).
  exists c, (Date_now p (clock_reads w)). simpl. split; [exact Hc|]. split; [done|]. split.
  - etrans; [exact Hcx|]. by apply Hk.
  - intros k Hle. apply clock_monotone. lia.
Qed.


Lemma first_with_id_elem i l before t after (P : Todo -> Prop) :
  first_with_id i l before t after -> Forall P l -> P t.
Proof.
  intros (-> & _) H. apply Forall_app in H as [_ H]. by inversion H.
Qed.





Lemma getTodoById_world i w : snd (getTodoById i w) = w.
Proof.
  destruct (usable_id_dec i) as [Hi|Hi].
  - unfold getTodoById, try_catch, bind. by rewrite (validateId_accepts i w Hi).
  - destruct (validateId_rejects i w Hi) as [msg Hm].
    unfold getTodoById, try_catch, bind. by rewrite Hm.
Qed.


(** The dates alone: no call but [importTodos] stamps a record with
    anything but a reading of the clock, whatever the ids are. *)
Lemma stamped_later n m l :
  (n ≤ m)%nat -> Forall (stamped_before p n) l -> Forall (stamped_before p m) l.
Proof.
  intros Hnm H. eapply Forall_impl; [exact H|]. intros x. by apply stamped_before_mono.
Qed.

Lemma stamped_replace n before t t' after :
  Forall (stamped_before p n) (before ++ t :: after) ->
  stamped_before p (S n) t' ->
  Forall (stamped_before p (S n)) (before ++ t' :: after).
Proof.
  intros H Ht. apply (stamped_later n (S n)) in H; [|lia].
  apply Forall_app in H as [Hb Ha]. apply Forall_app. split; [exact Hb|].
  inversion Ha; subst. by constructor.
Qed.

Lemma run_stamped op w :
  ¬ is_import op ->
  Forall (stamped_before p (clock_reads w)) (todos w) ->
  Forall (stamped_before p (clock_reads (run p op w))) (todos (run p op w)).
Proof.
  intros Himp Hk.
  destruct op as [s|i u|i|i| |f| | |s| | |i| | | | | ]; simpl; try exact Hk.
  - destruct (acceptable_text_dec s) as [Hs|Hs].
    2:{ destruct (addTodo_rejected p s w Hs) as [msg ->]. exact Hk. }
    rewrite (addTodo_accepted p s w Hs).
    destruct (commit_frame p "Failed to add todo: " (new_todo p w s)
                (with_todos (todos w ++ [new_todo p w s])
                   (tick_clock (tick_clock (tick_random (tick_clock w))))))
      as (Ht & _ & Hc & _).
    rewrite Ht, Hc. simpl. apply Forall_app. split.
    + apply (stamped_later (clock_reads w)); [lia | exact Hk].
    + apply Forall_singleton.
      exists (Date_now p (S (clock_reads w))), (Date_now p (S (S (clock_reads w)))).
      simpl. repeat split; [apply clock_monotone; lia|].
      intros k Hle. apply clock_monotone. lia.
  - destruct (usable_id_dec i) as [Hi|Hi].
    2:{ destruct (updateTodo_bad_id p i u w Hi) as [msg ->]. exact Hk. }
    destruct (list_find (has_id i) (todos w)) as [[n t]|] eqn:Hfind.
    2:{ rewrite updateTodo_absent; [exact Hk | exact Hi | by apply list_find_None in Hfind]. }
    destruct (list_find_split _ _ _ _ Hfind) as (before & after & Hf & _).
    assert (Hcase : match updates_text u with Some s => acceptable_text s | None => True end
                    ∨ ∃ s, updates_text u = Some s ∧ (trim s = [] ∨ (200 < length (trim s))%nat)).
    { destruct (updates_text u) as [s|]; [|by left].
      destruct (acceptable_text_dec s); [by left | right; eauto]. }
    destruct Hcase as [Hu|(s & Hs & Hbad)].
    2:{ destruct (updateTodo_bad_text p i u w before t after s Hi Hf Hs Hbad) as [msg ->].
        exact Hk. }
    rewrite (updateTodo_found p i u w before t after Hi Hf Hu).
    destruct (commit_frame p "Failed to update todo: " (Some (updated_todo p w u t))
                (with_todos (before ++ updated_todo p w u t :: after) (tick_clock w)))
      as (Ht & _ & Hc & _).
    rewrite Ht, Hc. simpl. pose proof Hf as (Hl & _).
    apply (stamped_replace (clock_reads w) before t); [by rewrite <- Hl|].
    apply updated_todo_stamped. by apply (first_with_id_elem _ _ _ _ _ _ Hf).
  - destruct (usable_id_dec i) as [Hi|Hi].
    2:{ destruct (toggleTodo_bad_id p i w Hi) as [msg ->]. exact Hk. }
    destruct (list_find (has_id i) (todos w)) as [[n t]|] eqn:Hfind.
    2:{ rewrite toggleTodo_absent; [exact Hk | exact Hi | by apply list_find_None in Hfind]. }
    destruct (list_find_split _ _ _ _ Hfind) as (before & after & Hf & _).
    rewrite (toggleTodo_found p i w before t after Hi Hf). cbv zeta.
    set (t' := updated_todo p w (set_completed (negb (completed t))) t).
    destruct (commit_frame p "Failed to toggle todo: Failed to update todo: " (Some t')
                (with_todos (before ++ t' :: after) (tick_clock w)))
      as (Ht & _ & Hc & _).
    rewrite Ht, Hc. simpl. pose proof Hf as (Hl & _).
    apply (stamped_replace (clock_reads w) before t); [by rewrite <- Hl|].
    apply updated_todo_stamped. by apply (first_with_id_elem _ _ _ _ _ _ Hf).
  - destruct (usable_id_dec i) as [Hi|Hi].
    2:{ destruct (deleteTodo_bad_id p i w Hi) as [msg ->]. exact Hk. }
    destruct (list_find (has_id i) (todos w)) as [[n t]|] eqn:Hfind.
    2:{ rewrite deleteTodo_absent; [exact Hk | exact Hi | by apply list_find_None in Hfind]. }
    destruct (list_find_split _ _ _ _ Hfind) as (before & after & Hf & _).
    rewrite (deleteTodo_found p i w before t after Hi Hf).
    destruct (commit_frame p "Failed to delete todo: " true (with_todos (before ++ after) w))
      as (Ht & _ & Hc & _).
    rewrite Ht, Hc. simpl. eapply Forall_of_sublist; [|exact Hk].
    destruct Hf as (-> & _). apply sublist_app; [done|]. by apply sublist_cons.
  - rewrite deleteCompletedTodos_commit.
    destruct (commit_frame p "Failed to delete completed todos: "
                (length (todos w) - length (filter_pending (todos w)))%nat
                (with_todos (filter_pending (todos w)) w)) as (Ht & _ & Hc & _).
    rewrite Ht, Hc. simpl. eapply Forall_of_sublist; [|exact Hk]. apply sublist_filter.
  - destruct (setFilter_frame p f w) as [Ht Hc]. rewrite Ht, Hc. exact Hk.
  - rewrite clearAll_commit.
    destruct (commit_frame p "Failed to clear all todos: " tt (with_todos [] w))
      as (Ht & _ & Hc & _).
    rewrite Ht. constructor.
  - constructor.
  - by destruct Himp.
  - by rewrite getTodoById_world.
Qed.

Lemma session_stamped w :
  reachable_via p (fun op => ¬ is_import op) w ->
  Forall (stamped_before p (clock_reads w)) (todos w).
Proof.
  induction 1 as [|w op Hr IH Hop]; [constructor | by apply run_stamped].
Qed.


End Invariants.

Lemma example_clock_monotone : monotone_clock example_platform.
Proof. intros m n Hmn. simpl. lia. Qed.


Lemma two_todos_via : reachable_via example_platform (fun op => ¬ is_import op) two_todos.
Proof. apply via_step; [apply via_step; [apply via_empty|]|]; intros []. Qed.



(** ** Toggling *)

(** Claim C6, as the code has it.  For every id that [validateId] lets
    through (not empty after trimming), [toggleTodo] replaces the first
    record with that id by the same record with the completed flag
    flipped and updatedAt set to the current reading of the clock, in
    memory and whether or not the following persistence write goes
    through; a second [toggleTodo] with the same id gives the record its
    original completed flag back.  In every world reached from the
    empty collection by calls other than [importTodos], on a platform
    whose clock never goes back, the new updatedAt is not before the
    prior one. *)
Theorem toggleTodo_flips p i w before t after :
  usable_id i ->
  first_with_id i (todos w) before t after ->
  let now := Date_now p (clock_reads w) in
  let w1 := snd (toggleTodo p i w) in
  let t1 := touch now (negb (completed t)) t in
  todos w1 = before ++ t1 :: after
  ∧ completed t1 = negb (completed t)
  ∧ (monotone_clock p -> reachable_via p (fun op => ¬ is_import op) w ->
     Date_le (updatedAt t) (updatedAt t1))
  ∧ ∃ t2, todos (snd (toggleTodo p i w1)) = before ++ t2 :: after
          ∧ completed t2 = completed t
          ∧ id t2 = id t ∧ text t2 = text t ∧ createdAt t2 = createdAt t.
Proof.
  intros Hi Hf now w1 t1.
  assert (H1 : todos w1 = before ++ t1 :: after ∧ clock_reads w1 = S (clock_reads w)).
  { subst w1. rewrite (toggleTodo_found p i w before t after Hi Hf). cbv zeta.
    rewrite touch_updated.
    pose proof (commit_frame p "Failed to toggle todo: Failed to update todo: "
                  (Some t1) (with_todos (before ++ t1 :: after) (tick_clock w)))
      as (Ht & _ & Hc & _).
    split; [exact Ht | exact Hc]. }
  destruct H1 as [H1 Hc1]. split; [exact H1|]. split; [reflexivity|]. split.
  - intros Hmono Hvia.
    pose proof (session_stamped p Hmono w Hvia) as Hs.
    destruct (first_with_id_elem _ _ _ _ _ _ Hf Hs) as (c & u & _ & Hu & _ & Hk).
    rewrite Hu. simpl. apply Hk. lia.
  - assert (Hf1 : first_with_id i (todos w1) before t1 after).
    { rewrite H1. destruct Hf as (Hl & Hid & Hb). split; [done|]. split; done. }
    exists (touch (Date_now p (clock_reads w1)) (negb (completed t1)) t1).
    rewrite (toggleTodo_found p i w1 before t1 after Hi Hf1). cbv zeta.
    rewrite touch_updated.
    pose proof (commit_frame p "Failed to toggle todo: Failed to update todo: "
                  (Some (touch (Date_now p (clock_reads w1)) (negb (completed t1)) t1))
                  (with_todos (before ++ touch (Date_now p (clock_reads w1))
                                           (negb (completed t1)) t1 :: after) (tick_clock w1)))
      as (Ht & _).
    split; [exact Ht|]. simpl. split; [apply negb_involutive | done].
Qed.

Lemma toggleTodo_flips_witness :
  let now := Date_now example_platform (clock_reads two_todos) in
  let w1 := snd (toggleTodo example_platform (id milk) two_todos) in
  let t1 := touch now (negb (completed milk)) milk in
  todos w1 = [] ++ t1 :: [dog]
  ∧ completed t1 = negb (completed milk)
  ∧ Date_le (updatedAt milk) (updatedAt t1)
  ∧ ∃ t2, todos (snd (toggleTodo example_platform (id milk) w1)) = [] ++ t2 :: [dog]
          ∧ completed t2 = completed milk
          ∧ id t2 = id milk ∧ text t2 = text milk ∧ createdAt t2 = createdAt milk.
Proof.
  destruct (toggleTodo_flips example_platform (id milk) two_todos [] milk [dog]
              milk_id_usable milk_is_first) as (H1 & H2 & H3 & H4).
  split; [exact H1|]. split; [exact H2|]. split; [|exact H4].
  apply H3; [apply example_clock_monotone | apply two_todos_via].
Defined.

(** Claim C6 as stated fails in three ways.  For a record whose id is a
    space, which [importTodos] accepts, [toggleTodo] throws a
    ValidationError and flips nothing.  For an imported record whose
    updatedAt lies ahead of the clock, [toggleTodo] sets updatedAt back
    to the reading of the clock.  And on a clock that is set back
    between two readings, the record that [addTodo] made gets an
    earlier updatedAt when it is toggled. *)
Lemma toggleTodo_not_as_claimed :
  (reachable example_platform blank_id_world
   ∧ ∃ t, todos blank_id_world = [t]
          ∧ id t = u16 " "
          ∧ toggleTodo example_platform (id t) blank_id_world
            = (Throw (ValidationError "Todo ID cannot be empty"), blank_id_world))
  ∧ (reachable example_platform careless_import_world
     ∧ ∃ t t1 rest,
         todos careless_import_world = t :: rest
         ∧ id t = u16 "a"
         ∧ todos (snd (toggleTodo example_platform (u16 "a") careless_import_world)) = t1 :: rest
         ∧ updatedAt t = ValidDate 1704067200000
         ∧ updatedAt t1 = ValidDate 1700000000000
         ∧ ¬ Date_le (updatedAt t) (updatedAt t1))
  ∧ (let w := run backward_platform (OpAddTodo (u16 "Buy milk")) empty_world in
     reachable_via backward_platform (fun op => ¬ is_import op) w
     ∧ ∃ t t1,
         todos w = [t]
         ∧ todos (snd (toggleTodo backward_platform (id t) w)) = [t1]
         ∧ updatedAt t = ValidDate 1699999998000
         ∧ updatedAt t1 = ValidDate 1699999997000
         ∧ ¬ Date_le (updatedAt t) (updatedAt t1)).
Proof.
  split; [|split].
  - split; [apply reachable_step, reachable_empty|].
    eexists. split; [vm_compute; reflexivity|]. split; [reflexivity|].
    vm_compute. reflexivity.
  - split; [apply reachable_step, reachable_empty|].
    eexists. eexists. eexists. split; [vm_compute; reflexivity|].
    split; [reflexivity|]. split; [vm_compute; reflexivity|].
    split; [reflexivity|]. split; [reflexivity|]. simpl. lia.
  - split; [apply via_step; [apply via_empty | intros []]|].
    eexists. eexists. split; [vm_compute; reflexivity|].
    split; [vm_compute; reflexivity|].
    split; [reflexivity|]. split; [reflexivity|]. simpl. lia.
Qed.


(** ** JSON text: string literals *)

Local Open Scope N_scope.

Lemma hex_value_digit d : d < 16 -> hex_value (hex_digit d) = Some d.
Proof.
  intros H.
  assert (Hd : d = 0 ∨ d = 1 ∨ d = 2 ∨ d = 3 ∨ d = 4 ∨ d = 5 ∨ d = 6 ∨ d = 7 ∨
               d = 8 ∨ d = 9 ∨ d = 10 ∨ d = 11 ∨ d = 12 ∨ d = 13 ∨ d = 14 ∨ d = 15) by lia.
  repeat (destruct Hd as [->|Hd]; [reflexivity|]). subst. reflexivity.
Qed.

Lemma hex4_value_escape c :
  c < 65536 ->
  hex4_value (hex_digit (c / 4096 mod 16)) (hex_digit (c / 256 mod 16))
             (hex_digit (c / 16 mod 16)) (hex_digit (c mod 16)) = Some c.
Proof.
  intros H. unfold hex4_value.
  rewrite !hex_value_digit by (apply N.mod_lt; lia).
  f_equal.
  replace (c / 256) with (c / 16 / 16) by (by rewrite N.Div0.div_div).
  replace (c / 4096) with (c / 16 / 16 / 16) by (by rewrite !N.Div0.div_div).
  pose proof (N.div_mod' c 16) as E0.
  pose proof (N.div_mod' (c / 16) 16) as E1.
  pose proof (N.div_mod' (c / 16 / 16) 16) as E2.
  pose proof (N.div_mod' (c / 16 / 16 / 16) 16) as E3.
  pose proof (N.mod_lt c 16). pose proof (N.mod_lt (c / 16) 16).
  pose proof (N.mod_lt (c / 16 / 16) 16). pose proof (N.mod_lt (c / 16 / 16 / 16) 16).
  generalize dependent (c / 16 / 16 / 16 / 16). generalize dependent (c / 16 / 16 / 16 mod 16).
  generalize dependent (c / 16 / 16 / 16). generalize dependent (c / 16 / 16 mod 16).
  generalize dependent (c / 16 / 16). generalize dependent (c / 16 mod 16).
  generalize dependent (c / 16). generalize dependent (c mod 16).
  intros. lia.
Qed.

Lemma parse_unicode_escape c tail :
  c < 65536 ->
  parse_string_body (unicode_escape c ++ tail) =
    match parse_string_body tail with
    | Some (str, rest) => Some (c :: str, rest)
    | None => None
    end.
Proof.
  intros H. unfold unicode_escape. cbn [app parse_string_body].
  replace (92 =? 34) with false by reflexivity.
  replace (92 =? 92) with true by reflexivity.
  replace (117 =? 117) with true by reflexivity.
  cbv iota. by rewrite hex4_value_escape.
Qed.

Lemma parse_literal_unit c tail :
  c ≠ 34 -> c ≠ 92 -> 32 <= c ->
  parse_string_body (c :: tail) =
    match parse_string_body tail with
    | Some (str, rest) => Some (c :: str, rest)
    | None => None
    end.
Proof.
  intros H1 H2 H3. cbn [parse_string_body].
  rewrite (proj2 (N.eqb_neq c 34) H1), (proj2 (N.eqb_neq c 92) H2).
  replace (c <? 32) with false by (symmetry; apply N.ltb_ge; exact H3).
  reflexivity.
Qed.

Lemma parse_quote_unit c tail :
  parse_string_body (quote_unit c ++ tail) =
    match parse_string_body tail with
    | Some (str, rest) => Some (c :: str, rest)
    | None => None
    end.
Proof.
  unfold quote_unit.
  destruct (N.eqb_spec c 8) as [->|H8]; [reflexivity|].
  destruct (N.eqb_spec c 9) as [->|H9]; [reflexivity|].
  destruct (N.eqb_spec c 10) as [->|H10]; [reflexivity|].
  destruct (N.eqb_spec c 12) as [->|H12]; [reflexivity|].
  destruct (N.eqb_spec c 13) as [->|H13]; [reflexivity|].
  destruct (N.eqb_spec c 34) as [->|H34]; [reflexivity|].
  destruct (N.eqb_spec c 92) as [->|H92]; [reflexivity|].
  destruct ((c <? 32) || is_high_surrogate c || is_low_surrogate c) eqn:E.
  - apply parse_unicode_escape.
    unfold is_high_surrogate, is_low_surrogate in E.
    apply orb_true_iff in E as [E|E]; [apply orb_true_iff in E as [E|E]|].
    + apply N.ltb_lt in E. lia.
    + apply andb_true_iff in E as [_ E]. apply N.leb_le in E. lia.
    + apply andb_true_iff in E as [_ E]. apply N.leb_le in E. lia.
  - apply orb_false_iff in E as [E _]. apply orb_false_iff in E as [E _].
    apply N.ltb_ge in E. simpl app. by apply parse_literal_unit.
Qed.

Lemma surrogate_literal c :
  is_high_surrogate c = true ∨ is_low_surrogate c = true ->
  c ≠ 34 ∧ c ≠ 92 ∧ 32 <= c ∧ c < 65536.
Proof.
  unfold is_high_surrogate, is_low_surrogate.
  intros [E|E]; apply andb_true_iff in E as [E1 E2];
    apply N.leb_le in E1; apply N.leb_le in E2; lia.
Qed.

(** Reading back a quoted string gives the string and what follows the
    closing quote. *)
Lemma parse_quote_units s rest :
  parse_string_body (quote_units s ++ 34 :: rest) = Some (s, rest).
Proof.
  revert rest.
  assert (H : ∀ s,
             (∀ rest, parse_string_body (quote_units s ++ 34 :: rest) = Some (s, rest)) ∧
             (∀ c rest, parse_string_body (quote_units (c :: s) ++ 34 :: rest)
                        = Some (c :: s, rest))).
  { clear s. induction s as [|c' s [IH1 IH2]].
    - split; [reflexivity|]. intros c rest. cbn [quote_units].
      destruct (is_high_surrogate c) eqn:E.
      + destruct (surrogate_literal c (or_introl E)) as (_ & _ & _ & Hlt).
        by rewrite parse_unicode_escape.
      + by rewrite app_nil_r, parse_quote_unit.
    - split; [exact (IH2 c')|]. intros c rest. cbn [quote_units].
      destruct (is_high_surrogate c) eqn:E.
      + destruct (surrogate_literal c (or_introl E)) as (Hc1 & Hc2 & Hc3 & Hlt).
        destruct (is_low_surrogate c') eqn:E'.
        * destruct (surrogate_literal c' (or_intror E')) as (Hd1 & Hd2 & Hd3 & _).
          simpl app. rewrite parse_literal_unit by done.
          rewrite parse_literal_unit by done. by rewrite IH1.
        * rewrite <- app_assoc. rewrite parse_unicode_escape by done.
          by rewrite (IH2 c').
      + rewrite <- app_assoc. rewrite parse_quote_unit. by rewrite (IH2 c'). }
  intros rest. apply (H s).
Qed.

Lemma parse_quote s rest :
  parse_string_body (tail (quote s) ++ rest) = Some (s, rest).
Proof. unfold quote. simpl. rewrite <- app_assoc. apply parse_quote_units. Qed.


(** ** JSON text: reading back what [exportTodos] writes *)

Local Open Scope N_scope.

Lemma skip_ws_blank pre s : json_blank pre -> skip_ws (pre ++ s) = skip_ws s.
Proof.
  induction 1 as [|c pre Hc _ IH]; [done|]. simpl. by rewrite Hc.
Qed.

Lemma parse_value_blank f pre s :
  json_blank pre -> parse_value f (pre ++ s) = parse_value f s.
Proof. intros H. destruct f; [done|]. simpl. by rewrite skip_ws_blank. Qed.

Lemma parse_members_blank f pre s :
  json_blank pre -> parse_members f (pre ++ s) = parse_members f s.
Proof. intros H. destruct f; [done|]. simpl. by rewrite skip_ws_blank. Qed.

Lemma parse_value_space f s : parse_value f (32 :: s) = parse_value f s.
Proof. apply (parse_value_blank f [32]). by repeat constructor. Qed.

Lemma parse_members_newline f indent s :
  json_blank indent -> parse_members f (10 :: indent ++ s) = parse_members f s.
Proof. intros H. apply (parse_members_blank f (10 :: indent)). by constructor. Qed.

Lemma parse_elements_blank f pre s :
  json_blank pre -> parse_elements f (pre ++ s) = parse_elements f s.
Proof. intros H. destruct f; [done|]. simpl. by rewrite parse_value_blank. Qed.

Lemma parse_value_string f r :
  parse_value (S f) (34 :: r) =
    match parse_string_body r with
    | Some (str, rest) => Some (JString str, rest)
    | None => None
    end.
Proof. reflexivity. Qed.

Lemma parse_value_object f r :
  parse_value (S f) (123 :: r) =
    match skip_ws r with
    | [] => None
    | c' :: r' =>
        if c' =? 125 then Some (JObject [], r')
        else match parse_members f (c' :: r') with
             | Some (ms, rest) => Some (JObject ms, rest)
             | None => None
             end
    end.
Proof. reflexivity. Qed.

Lemma parse_value_array f r :
  parse_value (S f) (91 :: r) =
    match skip_ws r with
    | [] => None
    | c' :: r' =>
        if c' =? 93 then Some (JArray [], r')
        else match parse_elements f (c' :: r') with
             | Some (els, rest) => Some (JArray els, rest)
             | None => None
             end
    end.
Proof. reflexivity. Qed.

Lemma parse_members_key f r0 :
  parse_members (S f) (34 :: r0) =
    match parse_string_body r0 with
    | None => None
    | Some (key, r1) =>
        match skip_ws r1 with
        | [] => None
        | colon :: r2 =>
            if colon =? 58 then
              match parse_value f r2 with
              | None => None
              | Some (v, r3) =>
                  match skip_ws r3 with
                  | [] => None
                  | c :: r4 =>
                      if c =? 44 then
                        match parse_members f r4 with
                        | Some (ms, rest) => Some ((key, v) :: ms, rest)
                        | None => None
                        end
                      else if c =? 125 then Some ([(key, v)], r4)
                      else None
                  end
              end
            else None
        end
    end.
Proof. reflexivity. Qed.

Lemma parse_scalar f indent v rest :
  scalar v ->
  parse_value (S f) (serialize [32; 32] indent v ++ rest) = Some (v, rest).
Proof.
  destruct v as [| [|] | | s | |]; try done; intros _; try reflexivity.
  cbn [serialize]. unfold quote. cbn [app]. rewrite parse_value_string.
  rewrite <- app_assoc. cbn [app]. by rewrite parse_quote_units.
Qed.

Lemma parse_members_printed indent ms tail f :
  json_blank indent ->
  ms ≠ [] ->
  Forall (fun m => scalar (snd m)) ms ->
  json_blank tail ->
  ∀ rest,
    (length ms < f)%nat ->
    parse_members f (members_text indent ms (tail ++ 125 :: rest)) = Some (ms, rest).
Proof.
  intros Hi Hne Hs Ht rest. revert f.
  induction ms as [|[k v] ms IH]; [done|]. intros f Hf.
  inversion Hs as [|? ? Hv Hs']; subst. simpl in Hv.
  destruct f as [|f]; [simpl in Hf; lia|].
  assert (Hhead : ∀ cont,
    parse_members (S f) (quote k ++ [58; 32] ++ serialize [32; 32] indent v ++ cont) =
      match skip_ws cont with
      | [] => None
      | c :: r4 =>
          if c =? 44 then
            match parse_members f r4 with
            | Some (ms', rest') => Some ((k, v) :: ms', rest')
            | None => None
            end
          else if c =? 125 then Some ([(k, v)], r4)
          else None
      end).
  { intros cont. unfold quote. cbn [app]. rewrite parse_members_key.
    rewrite <- app_assoc. cbn [app]. rewrite parse_quote_units.
    change (skip_ws (58 :: 32 :: serialize [32; 32] indent v ++ cont))
      with (58 :: 32 :: serialize [32; 32] indent v ++ cont).
    replace (58 =? 58) with true by reflexivity. cbv iota.
    rewrite parse_value_space.
    destruct f as [|f']; [simpl in Hf; lia|].
    by rewrite (parse_scalar f' indent v cont Hv). }
  destruct ms as [|m' ms'].
  - cbn [members_text fst snd]. rewrite Hhead.
    rewrite skip_ws_blank by exact Ht. reflexivity.
  - change (members_text indent ((k, v) :: m' :: ms') (tail ++ 125 :: rest))
      with (quote k ++ [58; 32] ++ serialize [32; 32] indent v
              ++ 44 :: 10 :: indent ++ members_text indent (m' :: ms') (tail ++ 125 :: rest)).
    rewrite Hhead.
    change (skip_ws (44 :: 10 :: indent ++ members_text indent (m' :: ms') (tail ++ 125 :: rest)))
      with (44 :: 10 :: indent ++ members_text indent (m' :: ms') (tail ++ 125 :: rest)).
    replace (44 =? 44) with true by reflexivity. cbv iota.
    rewrite parse_members_newline by exact Hi.
    rewrite IH; [reflexivity | done | exact Hs' | simpl in *; lia].
Qed.


Lemma members_text_join indent ms tail :
  join_with ([44; 10] ++ indent)
    (map (fun m => quote (fst m) ++ [58; 32] ++ serialize [32; 32] indent (snd m)) ms) ++ tail
  = members_text indent ms tail.
Proof.
  induction ms as [|m ms IH]; [done|].
  destruct ms as [|m' ms']; [cbn; by rewrite <- !app_assoc|].
  change (members_text indent (m :: m' :: ms') tail)
    with (quote (fst m) ++ [58; 32] ++ serialize [32; 32] indent (snd m)
            ++ 44 :: 10 :: indent ++ members_text indent (m' :: ms') tail).
  rewrite <- IH. cbn [map join_with]. rewrite <- !app_assoc. reflexivity.
Qed.

Lemma Todo_members_scalar t : Forall (fun m => scalar (snd m)) (Todo_members t).
Proof.
  unfold Todo_members. repeat constructor; simpl; try done.
  - by destruct (createdAt t).
  - by destruct (updatedAt t).
Qed.

Lemma serialize_todo t tail :
  serialize [32; 32] [32; 32] (Todo_toJSON t) ++ tail
  = 123 :: 10 :: 32 :: 32 :: 32 :: 32
      :: members_text [32; 32; 32; 32] (Todo_members t) ([10; 32; 32] ++ 125 :: tail).
Proof.
  rewrite <- members_text_join. unfold Todo_toJSON, Todo_members.
  cbn [serialize app map]. rewrite <- !app_assoc. reflexivity.
Qed.

Lemma members_text_head indent t tail :
  ∃ r, members_text indent (Todo_members t) tail = 34 :: r.
Proof. eexists. reflexivity. Qed.

Lemma parse_todo f t rest :
  (7 ≤ f)%nat ->
  parse_value f (serialize [32; 32] [32; 32] (Todo_toJSON t) ++ rest)
  = Some (Todo_toJSON t, rest).
Proof.
  intros Hf. destruct f as [|f]; [lia|]. rewrite serialize_todo, parse_value_object.
  pose proof (parse_members_printed [32; 32; 32; 32] (Todo_members t) [10; 32; 32] f) as Hp.
  destruct (members_text_head [32; 32; 32; 32] t ([10; 32; 32] ++ 125 :: rest)) as [r Hr].
  rewrite Hr in *.
  change (skip_ws (10 :: 32 :: 32 :: 32 :: 32 :: 34 :: r)) with (34 :: r).
  replace (34 =? 125) with false by reflexivity. cbv iota.
  rewrite <- Hr. rewrite Hp; [reflexivity | | done | apply Todo_members_scalar | | ].
  - by repeat constructor.
  - by repeat constructor.
  - simpl. lia.
Qed.

Lemma elements_text_join l tail :
  join_with ([44; 10] ++ [32; 32])
    (map (serialize [32; 32] [32; 32]) (map Todo_toJSON l)) ++ tail
  = elements_text l tail.
Proof.
  induction l as [|t l IH]; [done|].
  destruct l as [|t' l']; [cbn [map join_with elements_text]; reflexivity|].
  change (elements_text (t :: t' :: l') tail)
    with (serialize [32; 32] [32; 32] (Todo_toJSON t)
            ++ 44 :: 10 :: 32 :: 32 :: elements_text (t' :: l') tail).
  rewrite <- IH. cbn [map join_with]. rewrite <- !app_assoc. reflexivity.
Qed.

Lemma parse_elements_newline f s :
  parse_elements f (10 :: 32 :: 32 :: s) = parse_elements f s.
Proof. apply (parse_elements_blank f [10; 32; 32]). by repeat constructor. Qed.

Lemma parse_elements_printed l tail f :
  l ≠ [] ->
  json_blank tail ->
  ∀ rest,
    (7 + length l ≤ f)%nat ->
    parse_elements f (elements_text l (tail ++ 93 :: rest)) = Some (map Todo_toJSON l, rest).
Proof.
  intros Hne Ht rest. revert f.
  induction l as [|t l IH]; [done|]. intros f Hf.
  destruct f as [|f]; [simpl in Hf; lia|]. simpl in Hf.
  destruct l as [|t' l'].
  - cbn [elements_text parse_elements]. rewrite parse_todo by lia.
    rewrite skip_ws_blank by exact Ht. reflexivity.
  - change (elements_text (t :: t' :: l') (tail ++ 93 :: rest))
      with (serialize [32; 32] [32; 32] (Todo_toJSON t)
              ++ 44 :: 10 :: 32 :: 32 :: elements_text (t' :: l') (tail ++ 93 :: rest)).
    cbn [parse_elements]. rewrite parse_todo by lia.
    change (skip_ws (44 :: 10 :: 32 :: 32 :: elements_text (t' :: l') (tail ++ 93 :: rest)))
      with (44 :: 10 :: 32 :: 32 :: elements_text (t' :: l') (tail ++ 93 :: rest)).
    replace (44 =? 44) with true by reflexivity. cbv iota.
    rewrite parse_elements_newline.
    rewrite IH; [reflexivity | done | simpl in *; lia].
Qed.

Lemma elements_text_length l tail :
  (length l + length tail ≤ length (elements_text l tail))%nat.
Proof.
  induction l as [|t l IH]; [simpl; lia|].
  assert (Hs : ∀ x : jsstring,
             (1 + length x ≤ length (serialize [32; 32]%N [32; 32]%N (Todo_toJSON t) ++ x))%nat).
  { intros x. rewrite serialize_todo. unfold Todo_members. cbn [members_text fst snd].
    repeat (rewrite length_app || cbn [length]). lia. }
  destruct l as [|t' l'].
  - cbn [elements_text]. specialize (Hs tail). simpl in *. lia.
  - change (elements_text (t :: t' :: l') tail)
      with (serialize [32; 32] [32; 32] (Todo_toJSON t)
              ++ 44 :: 10 :: 32 :: 32 :: elements_text (t' :: l') tail).
    specialize (Hs (44 :: 10 :: 32 :: 32 :: elements_text (t' :: l') tail)).
    simpl in *. lia.
Qed.

Lemma elements_text_head l tail :
  l ≠ [] -> ∃ r, elements_text l tail = 123 :: r.
Proof.
  destruct l as [|t l]; [done|]. intros _.
  destruct l as [|t' l'].
  - cbn [elements_text]. rewrite serialize_todo. eauto.
  - change (elements_text (t :: t' :: l') tail)
      with (serialize [32; 32] [32; 32] (Todo_toJSON t)
              ++ 44 :: 10 :: 32 :: 32 :: elements_text (t' :: l') tail).
    rewrite serialize_todo. eauto.
Qed.

Lemma stringify_todos l :
  l ≠ [] ->
  JSON_stringify_2 (JArray (map Todo_toJSON l))
  = 91 :: 10 :: 32 :: 32 :: elements_text l [10; 93].
Proof.
  intros Hne. rewrite <- elements_text_join. unfold JSON_stringify_2.
  destruct l as [|t l]; [done|]. cbn [map serialize app]. rewrite <- ?app_assoc. reflexivity.
Qed.

(** [JSON.parse] reads back the array that [JSON.stringify] with the gap
    of two spaces wrote for a collection. *)
Lemma JSON_parse_stringify_todos l :
  JSON_parse (JSON_stringify_2 (JArray (map Todo_toJSON l))) = Some (JArray (map Todo_toJSON l)).
Proof.
  destruct (decide (l = [])) as [->|Hne]; [reflexivity|].
  unfold JSON_parse. rewrite (stringify_todos l Hne).
  pose proof (elements_text_length l [10; 93]) as Hlen.
  set (fuel := (2 * length (91 :: 10 :: 32 :: 32 :: elements_text l [10; 93])%N + 2)%nat).
  assert (Hfuel : (8 + length l ≤ fuel)%nat) by (subst fuel; simpl in *; lia).
  destruct fuel as [|fuel]; [lia|]. rewrite parse_value_array.
  destruct (elements_text_head l [10; 93] Hne) as [r Hr].
  rewrite Hr.
  change (skip_ws (10 :: 32 :: 32 :: 123 :: r)) with (123 :: r).
  replace (123 =? 93) with false by reflexivity. cbv iota.
  rewrite <- Hr.
  change (elements_text l [10; 93]) with (elements_text l ([10] ++ 93 :: [])).
  rewrite (parse_elements_printed l [10] fuel Hne); [reflexivity | by repeat constructor | lia].
Qed.


Local Open Scope Z_scope.

(** ** Export followed by import *)

Lemma imported_exported p t :
  has_valid_dates t ->
  isValidTodo (Todo_toJSON t) = true ∧ imported_todo p (Todo_toJSON t) = Some (reparsed p t).
Proof.
  intros [Hc Hu]. unfold isValidTodo, imported_todo, Todo_toJSON, reparsed.
  destruct (createdAt t) as [c|]; [|done]. destruct (updatedAt t) as [u|]; [|done].
  split; reflexivity.
Qed.

Lemma exported_invalid_skipped t :
  ¬ has_valid_dates t -> isValidTodo (Todo_toJSON t) = false.
Proof.
  intros H. unfold isValidTodo, Todo_toJSON, has_valid_dates in *.
  destruct (createdAt t) as [c|]; [|reflexivity].
  destruct (updatedAt t) as [u|]; [|reflexivity].
  exfalso. apply H. done.
Qed.

Lemma validTodos_of_exported p l :
  Forall has_valid_dates l ->
  validTodos_of p (map Todo_toJSON l) = map (reparsed p) l.
Proof.
  induction 1 as [|t l Ht _ IH]; [done|].
  destruct (imported_exported p t Ht) as [Hv Hi].
  cbn [map validTodos_of]. by rewrite Hv, Hi, IH.
Qed.

Lemma reparsed_in_range p t : parses_iso p -> dates_in_range t -> reparsed p t = t.
Proof.
  intros Hp (c & u & Hc & Hu & Rc & Ru). unfold reparsed.
  rewrite Hc, Hu. simpl. rewrite (Hp c Rc), (Hp u Ru), <- Hc, <- Hu. by destruct t.
Qed.

Lemma dates_in_range_valid t : dates_in_range t -> has_valid_dates t.
Proof. intros (c & u & Hc & Hu & _). split; congruence. Qed.

Lemma exportTodos_text w :
  exportTodos w = (Ok (JSON_stringify_2 (JArray (map Todo_toJSON (todos w)))), w).
Proof. reflexivity. Qed.

(** Claim C3, as the code has it.  For every collection in which every
    record has valid dates, [importTodos] on the string [exportTodos]
    produced keeps every record: the collection has the same sequence of
    ids, texts and completed flags, and each date is what [new Date]
    makes of the ISO string of the original date.  When moreover the
    platform reads ISO strings back and the time values are in the range
    of a Date, the records are the original ones; the call then returns
    their number and the collection is stored, if [setItem] accepts the
    write. *)
Theorem export_import_round_trip p w :
  Forall has_valid_dates (todos w) ->
  ∃ s, exportTodos w = (Ok s, w) ∧
       let w' := snd (importTodos p s w) in
       todos w' = map (reparsed p) (todos w)
       ∧ map id (todos w') = map id (todos w)
       ∧ map text (todos w') = map text (todos w)
       ∧ map completed (todos w') = map completed (todos w)
       ∧ (parses_iso p -> Forall dates_in_range (todos w) ->
          todos w' = todos w
          ∧ (setItem_throws p (setItem_calls w) = false ->
             fst (importTodos p s w) = Ok (length (todos w)) ∧ in_sync w')).
Proof.
  intros Hv. eexists. split; [apply exportTodos_text|]. cbv zeta.
  rewrite (importTodos_array p _ w _ (JSON_parse_stringify_todos (todos w))).
  rewrite (validTodos_of_exported p _ Hv).
  destruct (commit_frame p "Failed to import todos: " (length (map (reparsed p) (todos w)))
              (with_todos (map (reparsed p) (todos w)) w)) as (Ht & _).
  rewrite Ht. simpl. split; [reflexivity|].
  rewrite !map_map. simpl. repeat (split; [reflexivity|]).
  intros Hp Hr.
  assert (Hsame : map (reparsed p) (todos w) = todos w).
  { clear Ht Hv. induction Hr as [|t l Hd _ IH]; [done|].
    simpl. by rewrite (reparsed_in_range p t Hp Hd), IH. }
  split; [exact Hsame|]. intros Hs.
  rewrite commit_succeeds.
  - simpl. rewrite Hsame. split; reflexivity.
  - simpl. rewrite Hsame. split; [exact Hv | exact Hs].
Qed.

(** Claim C3 as stated fails for a collection that holds a record with an
    invalid date: [exportTodos] writes null for the date, [isValidTodo]
    then rejects the record, and the import returns 0 and leaves the
    collection empty. *)
Lemma export_import_loses_invalid_dates :
  reachable example_platform invalid_date_world
  ∧ ∃ t s w',
      todos invalid_date_world = [t]
      ∧ exportTodos invalid_date_world = (Ok s, invalid_date_world)
      ∧ importTodos example_platform s invalid_date_world = (Ok 0%nat, w')
      ∧ todos w' = [].
Proof.
  split; [apply reachable_step, reachable_empty|].
  eexists. eexists. eexists.
  split; [vm_compute; reflexivity|]. split; [reflexivity|].
  split; vm_compute; reflexivity.
Qed.


(** ** Dates: the calendar *)

Lemma all_below_iter n f :
  N.iter n (fun s => (fst s + 1, snd s && f (fst s))) (0, true)
  = (Z.of_N n, all_below n f).
Proof.
  unfold all_below. induction n as [|n IH] using N.peano_ind; [reflexivity|].
  rewrite N.iter_succ. rewrite IH. simpl. f_equal. lia.
Qed.

Lemma all_below_spec n f :
  all_below n f = true -> ∀ z, 0 <= z < Z.of_N n -> f z = true.
Proof.
  induction n as [|n IH] using N.peano_ind; [intros _ z Hz; lia|].
  unfold all_below. rewrite N.iter_succ, all_below_iter. simpl.
  intros H z Hz. apply andb_true_iff in H as [Hn Hf].
  destruct (decide (z = Z.of_N n)) as [->|Hne]; [exact Hf|].
  apply IH; [exact Hn | lia].
Qed.

Lemma days_of_era_checked : all_below 146097 day_of_era_checked = true.
Proof. vm_compute. reflexivity. Qed.

Lemma days_from_civil_era y m d e :
  days_from_civil (y + 400 * e) m d = days_from_civil y m d + 146097 * e.
Proof.
  unfold days_from_civil.
  assert (H : ∀ a, (a + 400 * e) / 400 = a / 400 + e).
  { intros a. rewrite (Z.mul_comm 400 e). apply Z.div_add. lia. }
  set (a := if m <=? 2 then y - 1 else y).
  replace (if m <=? 2 then y + 400 * e - 1 else y + 400 * e) with (a + 400 * e)
    by (unfold a; destruct (m <=? 2); lia).
  cbv zeta. rewrite H.
  replace (a + 400 * e - (a / 400 + e) * 400) with (a - a / 400 * 400) by lia.
  generalize (a - a / 400 * 400). intros yoe.
  generalize (yoe * 365 + yoe / 4 - yoe / 100
              + ((153 * (if 2 <? m then m - 3 else m + 9) + 2) / 5 + d - 1)).
  intros. lia.
Qed.

Lemma is_leap_era y e : is_leap (y + 400 * e) = is_leap y.
Proof.
  unfold is_leap.
  replace ((y + 400 * e) mod 4) with (y mod 4)
    by (replace (400 * e) with (100 * e * 4) by lia; by rewrite Z_mod_plus_full).
  replace ((y + 400 * e) mod 100) with (y mod 100)
    by (replace (400 * e) with (4 * e * 100) by lia; by rewrite Z_mod_plus_full).
  replace ((y + 400 * e) mod 400) with (y mod 400)
    by (replace (400 * e) with (e * 400) by lia; by rewrite Z_mod_plus_full).
  reflexivity.
Qed.

Lemma days_in_month_era y m e : days_in_month (y + 400 * e) m = days_in_month y m.
Proof. unfold days_in_month. by rewrite is_leap_era. Qed.

(** The date of a day number is a date of the calendar, and
    [days_from_civil] leads back from it to the day number. *)
Lemma civil_from_days_sound z :
  let '(y, m, d) := civil_from_days z in
  1 <= m <= 12 ∧ 1 <= d <= days_in_month y m ∧ days_from_civil y m d = z ∧
  400 * ((z + 719468) / 146097) <= y <= 400 * ((z + 719468) / 146097) + 400.
Proof.
  unfold civil_from_days.
  set (e := (z + 719468) / 146097). set (doe := z + 719468 - e * 146097).
  assert (Hdoe : 0 <= doe < 146097).
  { unfold doe, e. pose proof (Z.mod_pos_bound (z + 719468) 146097).
    rewrite Z.mod_eq in * by lia. lia. }
  pose proof (all_below_spec _ _ days_of_era_checked doe) as H.
  unfold day_of_era_checked in H.
  destruct (civil_from_day_of_era doe) as [[y m] d].
  specialize (H ltac:(lia)).
  repeat (apply andb_true_iff in H as [H ?]).
  replace (y + e * 400) with (y + 400 * e) by lia.
  rewrite days_in_month_era, days_from_civil_era.
  assert (Hz : z = doe - 719468 + 146097 * e) by (unfold doe; lia).
  lia.
Qed.


(** ** Dates: digits *)

Lemma digit_is_digit n : is_digit (Z.to_N (48 + n mod 10)) = true.
Proof.
  pose proof (Z.mod_pos_bound n 10 ltac:(lia)). unfold is_digit.
  apply andb_true_iff. split; apply N.leb_le; lia.
Qed.

Lemma read_digits_last w :
  ∀ acc s,
    read_digits (S w) acc s =
      match read_digits w acc s with
      | Some (v, c :: r) => if is_digit c then Some (10 * v + (Z.of_N c - 48), r) else None
      | _ => None
      end.
Proof.
  induction w as [|w IH]; intros acc s.
  - simpl. destruct s as [|c r]; [done|]. by destruct (is_digit c).
  - change (read_digits (S (S w)) acc s)
      with (match s with
            | c :: s' =>
                if is_digit c then read_digits (S w) (10 * acc + (Z.of_N c - 48)) s' else None
            | [] => None
            end).
    destruct s as [|c s']; [done|]. simpl read_digits at 2.
    destruct (is_digit c); [|done]. apply IH.
Qed.

Lemma read_digits_pad w :
  ∀ n acc rest,
    0 <= n < 10 ^ Z.of_nat w ->
    read_digits w acc (pad w n ++ rest) = Some (acc * 10 ^ Z.of_nat w + n, rest).
Proof.
  induction w as [|w IH]; intros n acc rest Hn.
  - simpl in *. f_equal. f_equal. lia.
  - rewrite read_digits_last. cbn [pad]. rewrite <- app_assoc.
    assert (Hp : 10 ^ Z.of_nat (S w) = 10 * 10 ^ Z.of_nat w).
    { rewrite Nat2Z.inj_succ, Z.pow_succ_r by lia. reflexivity. }
    rewrite IH by (split; [apply Z.div_pos; lia | apply Z.div_lt_upper_bound; lia]).
    cbn [app]. rewrite digit_is_digit. f_equal. f_equal.
    pose proof (Z.mod_pos_bound n 10 ltac:(lia)).
    rewrite Z2N.id by lia. rewrite Hp.
    pose proof (Z.div_mod n 10 ltac:(lia)). lia.
Qed.

Lemma pad_head w n :
  ∃ c r, pad (S w) n = c :: r ∧ is_digit c = true.
Proof.
  revert n. induction w as [|w IH]; intros n.
  - eexists. exists []. split; [reflexivity | apply digit_is_digit].
  - destruct (IH (n / 10)) as (c & r & Hp & Hc).
    exists c, (r ++ [Z.to_N (48 + n mod 10)]).
    split; [|exact Hc]. change (pad (S (S w)) n) with (pad (S w) (n / 10) ++ [Z.to_N (48 + n mod 10)]).
    by rewrite Hp.
Qed.

Lemma is_digit_not_sign c : is_digit c = true -> (c =? 43)%N = false ∧ (c =? 45)%N = false.
Proof.
  unfold is_digit. intros H. apply andb_true_iff in H as [H1 H2].
  apply N.leb_le in H1. split; apply N.eqb_neq; lia.
Qed.

(** The fields that [toISOString] writes are read back. *)
Lemma read_iso_fields_written ylen y m d h mi sec ms :
  0 <= y < 10 ^ Z.of_nat ylen ->
  0 <= m < 100 -> 0 <= d < 100 -> 0 <= h < 100 -> 0 <= mi < 100 -> 0 <= sec < 100 ->
  0 <= ms < 1000 ->
  read_iso_fields ylen
    (pad ylen y ++ [45] ++ pad 2 m ++ [45] ++ pad 2 d ++ [84] ++
     pad 2 h ++ [58] ++ pad 2 mi ++ [58] ++ pad 2 sec ++ [46] ++ pad 3 ms ++ [90])%N
  = Some (y, m, d, h, mi, sec, ms).
Proof.
  intros Hy Hm Hd Hh Hmi Hs Hms. unfold read_iso_fields.
  rewrite read_digits_pad by exact Hy. cbn -[pad read_digits Z.pow Z.mul Z.add Z.of_nat].
  rewrite (read_digits_pad 2) by (change (10 ^ Z.of_nat 2) with 100; lia). cbn -[pad read_digits Z.pow Z.mul Z.add Z.of_nat].
  rewrite (read_digits_pad 2) by (change (10 ^ Z.of_nat 2) with 100; lia). cbn -[pad read_digits Z.pow Z.mul Z.add Z.of_nat].
  rewrite (read_digits_pad 2) by (change (10 ^ Z.of_nat 2) with 100; lia). cbn -[pad read_digits Z.pow Z.mul Z.add Z.of_nat].
  rewrite (read_digits_pad 2) by (change (10 ^ Z.of_nat 2) with 100; lia). cbn -[pad read_digits Z.pow Z.mul Z.add Z.of_nat].
  rewrite (read_digits_pad 2) by (change (10 ^ Z.of_nat 2) with 100; lia). cbn -[pad read_digits Z.pow Z.mul Z.add Z.of_nat].
  rewrite (read_digits_pad 3) by (change (10 ^ Z.of_nat 3) with 1000; lia). cbn -[pad read_digits Z.pow Z.mul Z.add Z.of_nat].
  reflexivity.
Qed.


(** ** Dates: the ISO string and back *)

Lemma time_of_day_fields ms :
  0 <= ms < msPerDay ->
  0 <= ms / 3600000 <= 23 ∧ 0 <= ms / 60000 mod 60 <= 59 ∧
  0 <= ms / 1000 mod 60 <= 59 ∧ 0 <= ms mod 1000 <= 999 ∧
  ms / 3600000 * 3600000 + ms / 60000 mod 60 * 60000 + ms / 1000 mod 60 * 1000 + ms mod 1000
  = ms.
Proof.
  unfold msPerDay. intros H.
  replace (ms / 60000) with (ms / 1000 / 60) by (by rewrite Z.div_div by lia).
  replace (ms / 3600000) with (ms / 1000 / 60 / 60) by (by rewrite !Z.div_div by lia).
  pose proof (Z.div_mod ms 1000 ltac:(lia)) as E0.
  pose proof (Z.div_mod (ms / 1000) 60 ltac:(lia)) as E1.
  pose proof (Z.div_mod (ms / 1000 / 60) 60 ltac:(lia)) as E2.
  pose proof (Z.mod_pos_bound ms 1000 ltac:(lia)).
  pose proof (Z.mod_pos_bound (ms / 1000) 60 ltac:(lia)).
  pose proof (Z.mod_pos_bound (ms / 1000 / 60) 60 ltac:(lia)).
  generalize dependent (ms / 1000 / 60 / 60). generalize dependent (ms / 1000 / 60 mod 60).
  generalize dependent (ms / 1000 / 60). generalize dependent (ms / 1000 mod 60).
  generalize dependent (ms / 1000). generalize dependent (ms mod 1000).
  intros. lia.
Qed.

Lemma days_in_month_bound y m : days_in_month y m <= 31.
Proof.
  unfold days_in_month. destruct (m =? 2); [destruct (is_leap y); lia|].
  destruct (_ || _); lia.
Qed.

(** [parse_iso] reads every string that [toISOString] writes for a time
    value in the range of a Date back to that time value. *)
Lemma parse_iso_toISOString t :
  time_in_range t -> parse_iso (toISOString_time t) = ValidDate t.
Proof.
  unfold time_in_range, maxTime. intros Ht. unfold toISOString_time.
  set (day := t / msPerDay). set (ms := t mod msPerDay).
  assert (Hms : 0 <= ms < msPerDay) by (apply Z.mod_pos_bound; unfold msPerDay; lia).
  assert (Htd : t = day * msPerDay + ms).
  { unfold day, ms. rewrite Z.mod_eq by (unfold msPerDay; lia). lia. }
  assert (Hday : -100000000 <= day <= 100000000).
  { unfold msPerDay in *. lia. }
  pose proof (civil_from_days_sound day) as Hc.
  destruct (civil_from_days day) as [[y m] d].
  destruct Hc as (Hm & Hd & Hback & Hy).
  assert (Hera : -680 <= (day + 719468) / 146097 <= 690).
  { split; [apply Z.div_le_lower_bound; lia | apply Z.div_le_upper_bound; lia]. }
  assert (Hyr : -272000 <= y <= 276400) by lia.
  pose proof (days_in_month_bound y m) as Hdm.
  destruct (time_of_day_fields ms Hms) as (Hh & Hmi & Hsec & Hf & Hsum).
  assert (Hfinal : ∀ (negative : bool) (ylen : nat) (yabs : Z),
    0 <= yabs < 10 ^ Z.of_nat ylen ->
    (if negative then - yabs else yabs) = y ->
    (negative = true -> y ≠ 0) ->
    date_of_fields negative
      (read_iso_fields ylen
         (pad ylen yabs ++ [45] ++ pad 2 m ++ [45] ++ pad 2 d ++ [84] ++
          pad 2 (ms / 3600000) ++ [58] ++ pad 2 (ms / 60000 mod 60) ++ [58] ++
          pad 2 (ms / 1000 mod 60) ++ [46] ++ pad 3 (ms mod 1000) ++ [90])%N)
    = ValidDate t).
  { intros negative ylen yabs Hyabs Hsign Hnz.
    rewrite read_iso_fields_written by lia. unfold date_of_fields, maxTime.
    cbv zeta. rewrite Hsign.
    assert (Hz : negb (negative && (y =? 0)) = true).
    { destruct negative; [|done]. simpl. apply negb_true_iff, Z.eqb_neq. by apply Hnz. }
    rewrite Hz.
    rewrite (proj2 (Z.leb_le 1 m)), (proj2 (Z.leb_le m 12)), (proj2 (Z.leb_le 1 d)),
      (proj2 (Z.leb_le d _)), (proj2 (Z.leb_le (ms / 3600000) 23)),
      (proj2 (Z.leb_le (ms / 60000 mod 60) 59)), (proj2 (Z.leb_le (ms / 1000 mod 60) 59))
      by lia.
    simpl andb. cbv iota. rewrite Hback.
    assert (Hrec : day * msPerDay + ms / 3600000 * 3600000 + ms / 60000 mod 60 * 60000
                   + ms / 1000 mod 60 * 1000 + ms mod 1000 = t) by lia.
    rewrite Hrec.
    rewrite (proj2 (Z.leb_le _ t)), (proj2 (Z.leb_le t _)) by lia. reflexivity. }
  unfold iso_year.
  destruct ((0 <=? y) && (y <=? 9999)) eqn:Hsmall.
  - apply andb_true_iff in Hsmall as [H0 H9]. apply Z.leb_le in H0, H9.
    destruct (pad_head 3 y) as (c & r & Hp & Hc).
    destruct (is_digit_not_sign c Hc) as [Hplus Hminus].
    unfold parse_iso.
    assert (Hs : ∀ x, (pad 4 y ++ x)%list = c :: (r ++ x)%list) by (intros x; by rewrite Hp).
    rewrite Hs. rewrite Hplus, Hminus. rewrite <- Hs.
    apply (Hfinal false 4%nat y); [change (10 ^ Z.of_nat 4) with 10000; lia | done | done].
  - unfold parse_iso. cbn [app].
    destruct (Z.ltb_spec y 0) as [Hneg|Hpos].
    + replace (45 =? 43)%N with false by reflexivity.
      replace (45 =? 45)%N with true by reflexivity.
      apply (Hfinal true 6%nat (Z.abs y));
        [change (10 ^ Z.of_nat 6) with 1000000; lia | lia | lia].
    + replace (43 =? 43)%N with true by reflexivity.
      apply (Hfinal false 6%nat (Z.abs y));
        [change (10 ^ Z.of_nat 6) with 1000000; lia | lia | done].
Qed.

Lemma example_platform_parses_iso : parses_iso example_platform.
Proof. intros t Ht. apply parse_iso_toISOString. exact Ht. Qed.


Lemma two_todos_in_range : Forall dates_in_range (todos two_todos).
Proof.
  rewrite two_todos_records.
  repeat constructor; eexists; eexists; (split; [reflexivity|]); (split; [reflexivity|]);
    unfold time_in_range, maxTime; lia.
Qed.

Lemma export_import_round_trip_witness :
  ∃ s, exportTodos two_todos = (Ok s, two_todos) ∧
       let w' := snd (importTodos example_platform s two_todos) in
       todos w' = map (reparsed example_platform) (todos two_todos)
       ∧ map id (todos w') = map id (todos two_todos)
       ∧ map text (todos w') = map text (todos two_todos)
       ∧ map completed (todos w') = map completed (todos two_todos)
       ∧ todos w' = todos two_todos
       ∧ fst (importTodos example_platform s two_todos) = Ok (length (todos two_todos))
       ∧ in_sync w'.
Proof.
  destruct (export_import_round_trip example_platform two_todos) as (s & He & H1 & H2 & H3 & H4 & H5).
  { eapply Forall_impl; [apply two_todos_in_range|]. apply dates_in_range_valid. }
  exists s. split; [exact He|]. cbv zeta.
  destruct (H5 example_platform_parses_iso two_todos_in_range) as [H6 H7].
  split; [exact H1|]. split; [exact H2|]. split; [exact H3|]. split; [exact H4|].
  split; [exact H6|]. apply H7. reflexivity.
Defined.


(** ** JSON text: reading back what [StorageUtils.saveTodos] writes *)

Local Open Scope N_scope.

Lemma serialize_scalar gap indent v :
  scalar v -> serialize gap indent v = serialize [32; 32] [] v.
Proof. by destruct v as [| [|] | | | |]. Qed.

Lemma parse_scalar_compact f v rest :
  scalar v -> parse_value (S f) (serialize [] [] v ++ rest) = Some (v, rest).
Proof. intros H. rewrite (serialize_scalar [] [] v H). by apply parse_scalar. Qed.

Lemma join_with_cons2 sep (x y : jsstring) l :
  join_with sep (x :: y :: l) = x ++ sep ++ join_with sep (y :: l).
Proof. reflexivity. Qed.

Lemma skip_ws_comma s : skip_ws (44 :: s) = 44 :: s.
Proof. reflexivity. Qed.

Lemma parse_members_compact ms f rest :
  ms ≠ [] ->
  Forall (fun m => scalar (snd m)) ms ->
  (length ms < f)%nat ->
  parse_members f
    (join_with [44] (map (fun m => quote (fst m) ++ [58] ++ serialize [] [] (snd m)) ms)
       ++ 125 :: rest)
  = Some (ms, rest).
Proof.
  intros Hne Hs. revert f.
  set (F := fun m : jsstring * JSON => quote (fst m) ++ [58] ++ serialize [] [] (snd m)).
  induction ms as [|[k v] ms IH]; [done|]. intros f Hf.
  inversion Hs as [|? ? Hv Hs']; subst. simpl in Hv.
  destruct f as [|f]; [simpl in Hf; lia|].
  assert (Hhead : ∀ cont,
    parse_members (S f) (F (k, v) ++ cont) =
      match skip_ws cont with
      | [] => None
      | c :: r4 =>
          if c =? 44 then
            match parse_members f r4 with
            | Some (ms', rest') => Some ((k, v) :: ms', rest')
            | None => None
            end
          else if c =? 125 then Some ([(k, v)], r4)
          else None
      end).
  { intros cont. unfold F, quote. cbn [app fst snd]. rewrite parse_members_key.
    rewrite <- !app_assoc. cbn [app]. rewrite parse_quote_units.
    change (skip_ws (58 :: serialize [] [] v ++ cont))
      with (58 :: serialize [] [] v ++ cont).
    replace (58 =? 58) with true by reflexivity. cbv iota.
    destruct f as [|f']; [simpl in Hf; lia|].
    by rewrite (parse_scalar_compact f' v cont Hv). }
  destruct ms as [|m' ms'].
  - cbn [map join_with]. rewrite Hhead. reflexivity.
  - cbn [map]. rewrite join_with_cons2. rewrite <- !app_assoc.
    rewrite Hhead. change ([44] ++ ?x) with (44 :: x). rewrite skip_ws_comma.
    replace (44 =? 44) with true by reflexivity. cbv iota.
    change (F m' :: map F ms') with (map F (m' :: ms')).
    rewrite IH; [reflexivity | done | exact Hs' | simpl in *; lia].
Qed.

Lemma serialize_todo_compact t tail :
  serialize [] [] (Todo_toJSON t) ++ tail
  = 123 :: join_with [44]
             (map (fun m => quote (fst m) ++ [58] ++ serialize [] [] (snd m)) (Todo_members t))
      ++ 125 :: tail.
Proof.
  unfold Todo_toJSON, Todo_members. cbn [serialize app map]. rewrite <- !app_assoc. reflexivity.
Qed.

Lemma parse_todo_compact f t rest :
  (7 ≤ f)%nat ->
  parse_value f (serialize [] [] (Todo_toJSON t) ++ rest) = Some (Todo_toJSON t, rest).
Proof.
  intros Hf. destruct f as [|f]; [lia|]. rewrite serialize_todo_compact, parse_value_object.
  pose proof (parse_members_compact (Todo_members t) f rest) as Hp.
  assert (Hr : ∃ r, join_with [44]
             (map (fun m => quote (fst m) ++ [58] ++ serialize [] [] (snd m)) (Todo_members t))
             ++ 125 :: rest = 34 :: r) by (eexists; reflexivity).
  destruct Hr as [r Hr]. rewrite Hr in *.
  change (skip_ws (34 :: r)) with (34 :: r).
  replace (34 =? 125) with false by reflexivity. cbv iota.
  rewrite Hp; [reflexivity | done | apply Todo_members_scalar | simpl; lia].
Qed.

Lemma serialize_todo_head t : ∃ r, serialize [] [] (Todo_toJSON t) = 123 :: r.
Proof. eexists. reflexivity. Qed.

Lemma parse_elements_compact l f rest :
  l ≠ [] ->
  (7 + length l ≤ f)%nat ->
  parse_elements f (join_with [44] (map (serialize [] []) (map Todo_toJSON l)) ++ 93 :: rest)
  = Some (map Todo_toJSON l, rest).
Proof.
  intros Hne. revert f.
  induction l as [|t l IH]; [done|]. intros f Hf.
  destruct f as [|f]; [simpl in Hf; lia|]. simpl in Hf.
  destruct l as [|t' l'].
  - cbn [map join_with parse_elements]. rewrite parse_todo_compact by lia. reflexivity.
  - cbn [map]. rewrite join_with_cons2. rewrite <- !app_assoc.
    cbn [parse_elements]. rewrite parse_todo_compact by lia.
    change ([44] ++ ?x) with (44 :: x). rewrite skip_ws_comma.
    replace (44 =? 44) with true by reflexivity. cbv iota.
    change (join_with [44] (serialize [] [] (Todo_toJSON t') :: map (serialize [] []) (map Todo_toJSON l')))
      with (join_with [44] (map (serialize [] []) (map Todo_toJSON (t' :: l')))).
    rewrite IH; [reflexivity | done | simpl in *; lia].
Qed.

Lemma join_with_length sep (parts : list jsstring) :
  Forall (fun x => (2 ≤ length x)%nat) parts ->
  (2 * length parts ≤ length (join_with sep parts))%nat.
Proof.
  induction 1 as [|x parts Hx _ IH]; [simpl; lia|].
  destruct parts as [|y parts'].
  - simpl. lia.
  - rewrite join_with_cons2. rewrite !length_app. cbn [length] in *. lia.
Qed.

Lemma serialize_todo_length t : (2 ≤ length (serialize [] [] (Todo_toJSON t)))%nat.
Proof.
  rewrite <- (app_nil_r (serialize [] [] (Todo_toJSON t))), serialize_todo_compact.
  cbn [length]. rewrite length_app. cbn [length]. lia.
Qed.

Lemma stored_text_cons t l :
  stored_text (t :: l)
  = 91 :: join_with [44] (map (serialize [] []) (map Todo_toJSON (t :: l))) ++ [93].
Proof. reflexivity. Qed.

(** [JSON.parse] reads back the array that [JSON.stringify] wrote for a
    collection, in the form without white space that goes to storage. *)
Lemma JSON_parse_stored_text l :
  JSON_parse (stored_text l) = Some (JArray (map Todo_toJSON l)).
Proof.
  destruct l as [|t l]; [reflexivity|].
  unfold JSON_parse. rewrite stored_text_cons.
  set (body := join_with [44] (map (serialize [] []) (map Todo_toJSON (t :: l)))).
  assert (Hlen : (2 * length (t :: l) ≤ length body)%nat).
  { subst body. etrans; [|apply join_with_length].
    - by rewrite !length_map.
    - apply Forall_forall. intros x Hx.
      apply list_elem_of_fmap in Hx as (j & -> & Hj).
      apply list_elem_of_fmap in Hj as (t0 & -> & _). apply serialize_todo_length. }
  set (fuel := (2 * length (91 :: body ++ [93])%N + 2)%nat).
  assert (Hfuel : (8 + length (t :: l) ≤ fuel)%nat).
  { subst fuel. cbn [length] in *. rewrite length_app. cbn [length]. lia. }
  destruct fuel as [|fuel]; [lia|]. rewrite parse_value_array.
  assert (Hr : ∃ r, body ++ [93] = 123 :: r).
  { subst body. destruct l; eexists; reflexivity. }
  destruct Hr as [r Hr]. rewrite Hr.
  change (skip_ws (123 :: r)) with (123 :: r).
  replace (123 =? 93) with false by reflexivity. cbv iota.
  rewrite <- Hr. subst body.
  rewrite (parse_elements_compact (t :: l) fuel []); [reflexivity | done | lia].
Qed.

Lemma stored_text_not_empty l : stored_text l ≠ [].
Proof. destruct l; done. Qed.

Local Open Scope Z_scope.

(** ** A new instance over what is stored *)

Lemma loaded_record_exported p t :
  has_valid_dates t -> loaded_record p (Todo_toJSON t) = Typed (reparsed p t).
Proof.
  intros [Hc Hu]. unfold loaded_record, Todo_toJSON, reparsed.
  rewrite bool_decide_eq_true_2 by reflexivity.
  destruct (createdAt t) as [c|]; [|done]. destruct (updatedAt t) as [u|]; [|done].
  reflexivity.
Qed.

Lemma loaded_records_exported p l :
  Forall has_valid_dates l ->
  loaded_records p (map Todo_toJSON l) = Ok (Typed (map (reparsed p) l)).
Proof.
  induction 1 as [|t l Ht _ IH]; [done|].
  cbn [map]. change (loaded_records p (Todo_toJSON t :: map Todo_toJSON l))
    with (match loaded_records p (map Todo_toJSON l) with
          | Throw e => Throw e
          | Ok loaded =>
              Ok (match loaded_record p (Todo_toJSON t), loaded with
                  | Typed t', Typed l' => Typed (t' :: l')
                  | _, _ => Untyped
                  end)
          end).
  by rewrite IH, (loaded_record_exported p t Ht).
Qed.

Lemma loaded_records_null p elements :
  JNull ∈ elements -> ∃ e, loaded_records p elements = Throw e.
Proof.
  induction elements as [|j elements IH]; [by intros ?%elem_of_nil|].
  intros [<-|Hin]%elem_of_cons; [eexists; reflexivity|].
  destruct (IH Hin) as [e He]. destruct j; simpl; rewrite ?He; eauto.
Qed.

Lemma StorageUtils_loadTodos_world p w : snd (StorageUtils_loadTodos p w) = w.
Proof.
  unfold StorageUtils_loadTodos, try_catch, bind, gets, ret, throw, lift.
  destruct (todolist_todos (localStorage w)) as [s|]; [|done].
  case_bool_decide; [done|].
  destruct (JSON_parse s) as [[]|]; try done.
  by destruct (loaded_records p elements).
Qed.

Lemma StorageUtils_loadTodos_saved p w l :
  todolist_todos (localStorage w) = Some (stored_text l) ->
  Forall has_valid_dates l ->
  StorageUtils_loadTodos p w = (Ok (Typed (map (reparsed p) l)), w).
Proof.
  intros Hs Hv. unfold StorageUtils_loadTodos, try_catch, bind, gets, ret, lift.
  rewrite Hs. rewrite bool_decide_eq_false_2 by apply stored_text_not_empty.
  rewrite JSON_parse_stored_text. by rewrite (loaded_records_exported p l Hv).
Qed.

(** The cases in which [loadTodos] gives the empty array: nothing stored,
    the empty string stored, a text that is not JSON, JSON that is not an
    array, an array that holds a null. *)
Lemma StorageUtils_loadTodos_unusable p w :
  (∀ s elements,
     todolist_todos (localStorage w) = Some s -> s ≠ [] ->
     JSON_parse s = Some (JArray elements) -> JNull ∈ elements) ->
  StorageUtils_loadTodos p w = (Ok (Typed []), w).
Proof.
  intros H. unfold StorageUtils_loadTodos, try_catch, bind, gets, ret, throw, lift.
  destruct (todolist_todos (localStorage w)) as [s|]; [|done].
  case_bool_decide as Hs; [done|].
  destruct (JSON_parse s) as [[]|] eqn:E; try done.
  destruct (loaded_records_null p elements (H s elements eq_refl Hs E)) as [e ->].
  done.
Qed.

Lemma StorageUtils_loadFilter_value w :
  StorageUtils_loadFilter w = (Ok (loaded_filter w), w).
Proof.
  unfold StorageUtils_loadFilter, loaded_filter, try_catch, bind, gets, ret.
  destruct (todolist_filter (localStorage w)) as [f|]; [|done]. by case_bool_decide.
Qed.

Lemma StorageUtils_loadTodos_returns p w :
  ∃ r, StorageUtils_loadTodos p w = (Ok r, w).
Proof.
  unfold StorageUtils_loadTodos, try_catch, bind, gets, ret, throw, lift.
  destruct (todolist_todos (localStorage w)) as [s|]; [|eauto].
  case_bool_decide; [eauto|].
  destruct (JSON_parse s) as [[]|]; eauto.
  destruct (loaded_records p elements); eauto.
Qed.

(** [new TodoList()] never throws, and its filter is the loaded one
    whatever the collection is. *)
Lemma constructor_world p w r :
  StorageUtils_loadTodos p w = (Ok r, w) ->
  TodoList_constructor p w =
    (Ok (match r with Typed _ => Typed tt | Untyped => Untyped end),
     with_currentFilter (loaded_filter w)
       (with_todos (match r with Typed l => l | Untyped => [] end) w)).
Proof.
  intros H. unfold TodoList_constructor, loadFromStorage, try_catch, bind, modify.
  cbv beta iota.
  assert (H' : StorageUtils_loadTodos p (with_currentFilter (u16 "all") (with_todos [] w))
               = (Ok r, with_currentFilter (u16 "all") (with_todos [] w))).
  { revert H. unfold StorageUtils_loadTodos, try_catch, bind, gets, ret, throw, lift. simpl.
    destruct (todolist_todos (localStorage w)) as [s|]; [|by intros [= <-]].
    case_bool_decide; [by intros [= <-]|].
    destruct (JSON_parse s) as [[]|]; try by intros [= <-].
    destruct (loaded_records p elements) as [[]|]; by intros [= <-]. }
  rewrite H'. destruct r as [l|]; cbv beta iota; unfold ret;
    rewrite StorageUtils_loadFilter_value; reflexivity.
Qed.

Lemma constructor_typed p w l :
  StorageUtils_loadTodos p w = (Ok (Typed l), w) ->
  TodoList_constructor p w =
    (Ok (Typed tt), with_currentFilter (loaded_filter w) (with_todos l w)).
Proof. intros H. by rewrite (constructor_world p w _ H). Qed.

Lemma constructor_filter p w :
  (∃ r, fst (TodoList_constructor p w) = Ok r)
  ∧ currentFilter (snd (TodoList_constructor p w)) = loaded_filter w.
Proof.
  destruct (StorageUtils_loadTodos_returns p w) as [r Hr].
  rewrite (constructor_world p w r Hr). split; [eauto | reflexivity].
Qed.

Lemma constructor_inv p w w' :
  TodoList_constructor p w = (Ok (Typed tt), w') ->
  ∃ l, StorageUtils_loadTodos p w = (Ok (Typed l), w)
       ∧ w' = with_currentFilter (loaded_filter w) (with_todos l w).
Proof.
  intros H. destruct (StorageUtils_loadTodos_returns p w) as [[l|] Hr];
    rewrite (constructor_world p w _ Hr) in H; [|done].
  exists l. split; [exact Hr | congruence].
Qed.

(** Property X1.  A new instance over a collection that was saved.  When
    storage holds what [StorageUtils.saveTodos] writes for the
    collection of [w], every date of which is valid, [new TodoList()]
    returns with the same records in the same order, each date being
    what [new Date] makes of the stored ISO string, and leaves storage
    alone.  On a platform that reads ISO strings back, and with time
    values in the range of a Date, the collection of the new instance is
    the saved one. *)
Theorem constructor_restores_saved p w :
  in_sync w ->
  Forall has_valid_dates (todos w) ->
  ∃ w', TodoList_constructor p w = (Ok (Typed tt), w')
        ∧ todos w' = map (reparsed p) (todos w)
        ∧ localStorage w' = localStorage w
        ∧ (parses_iso p -> Forall dates_in_range (todos w) -> todos w' = todos w).
Proof.
  intros Hs Hv. eexists. split.
  - apply constructor_typed. by apply StorageUtils_loadTodos_saved.
  - split; [reflexivity|]. split; [reflexivity|]. intros Hp Hr. simpl.
    clear Hs Hv. induction Hr as [|t l Hd _ IH]; [done|].
    simpl. by rewrite (reparsed_in_range p t Hp Hd), IH.
Qed.

Lemma constructor_restores_saved_witness :
  ∃ w', TodoList_constructor example_platform two_todos = (Ok (Typed tt), w')
        ∧ todos w' = map (reparsed example_platform) (todos two_todos)
        ∧ localStorage w' = localStorage two_todos
        ∧ todos w' = todos two_todos.
Proof.
  destruct (constructor_restores_saved example_platform two_todos) as (w' & H1 & H2 & H3 & H4).
  - vm_compute. reflexivity.
  - eapply Forall_impl; [apply two_todos_in_range|]. apply dates_in_range_valid.
  - exists w'. split; [exact H1|]. split; [exact H2|]. split; [exact H3|].
    apply H4; [apply example_platform_parses_iso | apply two_todos_in_range].
Defined.

(** Property X2.  A new instance over storage it cannot use.  With
    nothing stored under the key of the collection, or the empty string,
    or a text that [JSON.parse] rejects, or JSON that is not an array,
    or an array that holds a null, [new TodoList()] does not throw: it
    starts with the empty collection and leaves storage as it is.  With
    nothing (or the empty string) stored under the key of the filter,
    its filter is 'all'. *)
Theorem constructor_without_usable_storage p w :
  (todolist_todos (localStorage w) = None
   ∨ todolist_todos (localStorage w) = Some []
   ∨ ∃ s, todolist_todos (localStorage w) = Some s
          ∧ ∀ elements, JSON_parse s = Some (JArray elements) -> JNull ∈ elements) ->
  ∃ w', TodoList_constructor p w = (Ok (Typed tt), w')
        ∧ todos w' = []
        ∧ localStorage w' = localStorage w
        ∧ (todolist_filter (localStorage w) = None ∨ todolist_filter (localStorage w) = Some [] ->
           currentFilter w' = u16 "all").
Proof.
  intros H. eexists. split.
  - apply constructor_typed. apply StorageUtils_loadTodos_unusable.
    intros s elements Hs Hne Hp.
    destruct H as [H|[H|(s' & H & Hn)]]; [congruence | congruence |].
    apply Hn. congruence.
  - split; [reflexivity|]. split; [reflexivity|]. simpl. unfold loaded_filter.
    intros [-> | ->]; reflexivity.
Qed.

Lemma constructor_without_usable_storage_witness :
  let w := with_localStorage
             {| todolist_todos := Some (json_text "{'id':'a1'}"); todolist_filter := None |}
             two_todos in
  ∃ w', TodoList_constructor example_platform w = (Ok (Typed tt), w')
        ∧ todos w' = []
        ∧ localStorage w' = localStorage w
        ∧ currentFilter w' = u16 "all".
Proof.
  intros w.
  destruct (constructor_without_usable_storage example_platform w) as (w' & H1 & H2 & H3 & H4).
  - right. right. eexists. split; [reflexivity|].
    intros elements H. vm_compute in H. discriminate.
  - exists w'. split; [exact H1|]. split; [exact H2|]. split; [exact H3|].
    apply H4. left. reflexivity.
Defined.

(** Property X3.  A change whose write failed is gone after a reload.
    When a call threw and left storage as it was in [w] (as every
    mutating operation does when its persistence write fails), and
    storage agreed with the collection of [w], a new instance built
    afterwards holds the records of [w], not the mutated collection that
    the old instance kept in memory. *)
Theorem failed_write_is_lost_on_reload {A} p w (r : Result A * World) l :
  raised_unsaved r w l ->
  in_sync w ->
  Forall has_valid_dates (todos w) ->
  ∃ w', TodoList_constructor p (snd r) = (Ok (Typed tt), w')
        ∧ todos (snd r) = l
        ∧ todos w' = map (reparsed p) (todos w)
        ∧ (parses_iso p -> Forall dates_in_range (todos w) -> todos w' = todos w).
Proof.
  intros (e & w1 & -> & Ht & Hl) Hs Hv. simpl. eexists. split.
  - apply constructor_typed. apply (StorageUtils_loadTodos_saved p w1 (todos w)); [|exact Hv].
    rewrite Hl. exact Hs.
  - split; [exact Ht|]. split; [reflexivity|]. intros Hp Hr. simpl.
    clear Hs Hv Ht. induction Hr as [|t l' Hd _ IH]; [done|].
    simpl. by rewrite (reparsed_in_range p t Hp Hd), IH.
Qed.

Lemma addTodo_full_storage_raised :
  raised_unsaved (addTodo full_storage_platform (u16 "Feed cat") two_todos) two_todos
    (todos two_todos ++ [new_todo full_storage_platform two_todos (u16 "Feed cat")]).
Proof.
  eexists. eexists. split; [vm_compute; reflexivity|]. split; vm_compute; reflexivity.
Qed.

Lemma failed_write_is_lost_on_reload_witness :
  let r := addTodo full_storage_platform (u16 "Feed cat") two_todos in
  ∃ w', TodoList_constructor full_storage_platform (snd r) = (Ok (Typed tt), w')
        ∧ todos (snd r)
          = todos two_todos ++ [new_todo full_storage_platform two_todos (u16 "Feed cat")]
        ∧ todos w' = map (reparsed full_storage_platform) (todos two_todos)
        ∧ todos w' = todos two_todos.
Proof.
  intros r.
  destruct (failed_write_is_lost_on_reload full_storage_platform two_todos r _
              addTodo_full_storage_raised) as (w' & H1 & H2 & H3 & H4).
  - vm_compute. reflexivity.
  - eapply Forall_impl; [apply two_todos_in_range|]. apply dates_in_range_valid.
  - exists w'. split; [exact H1|]. split; [exact H2|]. split; [exact H3|].
    apply H4; [|apply two_todos_in_range].
    intros t Ht. apply parse_iso_toISOString. exact Ht.
Defined.

(** Property X4.  The stored filter is loaded unchecked.  Whatever the
    stored collection is, [new TodoList()] returns, and whatever
    non-empty string is stored under the key of the filter is the
    filter of the new instance: [getCurrentFilter] returns it.  When it
    is none of 'all', 'completed' and 'pending', [getFilteredTodos]
    returns the whole collection (stated for a stored collection that
    the world represents). *)
Theorem constructor_filter_unchecked p w f :
  todolist_filter (localStorage w) = Some f ->
  f ≠ [] ->
  let w' := snd (TodoList_constructor p w) in
  (∃ r, fst (TodoList_constructor p w) = Ok r)
  ∧ getCurrentFilter w' = (Ok f, w')
  ∧ (fst (TodoList_constructor p w) = Ok (Typed tt) -> ¬ valid_filter f ->
     getFilteredTodos w' = (Ok (todos w'), w')).
Proof.
  intros Hf Hne w'. destruct (constructor_filter p w) as [Hr Hc].
  assert (Hl : loaded_filter w = f).
  { unfold loaded_filter. rewrite Hf. by rewrite bool_decide_eq_false_2. }
  fold w' in Hc. rewrite Hl in Hc.
  split; [exact Hr|]. split.
  - unfold getCurrentFilter, try_catch, bind, gets, ret. by rewrite Hc.
  - intros _ Hv. unfold getFilteredTodos, try_catch, bind, gets, ret.
    rewrite Hc. unfold filterTodos, valid_filter in *.
    rewrite !bool_decide_eq_false_2; [reflexivity | |]; intros ->; apply Hv; repeat constructor.
Qed.

Lemma constructor_filter_unchecked_witness :
  let numeric := with_localStorage
             {| todolist_todos :=
                  Some (json_text "[{'id':'a1','text':'Buy milk','completed':false,'createdAt':1700000000000,'updatedAt':1700000000000}]");
                todolist_filter := Some (u16 "done") |} empty_world in
  let w := with_localStorage
             {| todolist_todos := todolist_todos (localStorage two_todos);
                todolist_filter := Some (u16 "done") |} two_todos in
  let w' := snd (TodoList_constructor example_platform w) in
  fst (getCurrentFilter (snd (TodoList_constructor example_platform numeric))) = Ok (u16 "done")
  ∧ getCurrentFilter w' = (Ok (u16 "done"), w')
  ∧ getFilteredTodos w' = (Ok (todos w'), w').
Proof.
  intros numeric w w'. split.
  - destruct (constructor_filter_unchecked example_platform numeric (u16 "done")) as (_ & H & _);
      [reflexivity | discriminate |].
    by rewrite H.
  - destruct (constructor_filter_unchecked example_platform w (u16 "done")) as (_ & H1 & H2);
      [reflexivity | discriminate |].
    split; [exact H1|]. apply H2; [vm_compute; reflexivity|].
    vm_compute. intros H.
    repeat (inversion H as [|? ? ? H']; subst; clear H; rename H' into H).
Defined.

(** ** Reloading a session *)

Lemma query_worlds p op w :
  match op with
  | OpGetAllTodos | OpGetFilteredTodos | OpGetTodoById _ | OpGetCurrentFilter
  | OpGetStats | OpGetTodosCount | OpIsEmpty | OpExportTodos => run p op w = w
  | _ => True
  end.
Proof. destruct op; try exact I; try reflexivity. apply getTodoById_world. Qed.

Lemma setFilter_invalid p f w :
  ¬ valid_filter f ->
  setFilter p f w
  = (Throw (ValidationError "Invalid filter type. Must be one of: all, completed, pending"), w).
Proof.
  intros H. unfold setFilter, try_catch, bind, validateFilter.
  rewrite bool_decide_eq_false_2 by exact H. reflexivity.
Qed.

Lemma setFilter_stored p f w :
  valid_filter f ->
  setItem_throws p (setItem_calls w) = false ->
  setFilter p f w =
    (Ok tt, tick_setItem (with_localStorage
              {| todolist_todos := todolist_todos (localStorage w); todolist_filter := Some f |}
              (with_currentFilter f w))).
Proof.
  intros H Hs.
  cbv [setFilter try_catch bind validateFilter modify saveFilterToStorage
       StorageUtils_saveFilter setItem_filter gets rethrow_validation throw ret].
  rewrite bool_decide_eq_true_2 by exact H.
  change (setItem_calls (with_currentFilter f w)) with (setItem_calls w).
  rewrite Hs. reflexivity.
Qed.

Lemma setFilter_refused p f w :
  valid_filter f ->
  setItem_throws p (setItem_calls w) = true ->
  setFilter p f w =
    (Throw (GenericError "Failed to set filter: Failed to save filter to storage: Failed to save filter to localStorage"),
     tick_setItem (with_currentFilter f w)).
Proof.
  intros H Hs.
  cbv [setFilter try_catch bind validateFilter modify saveFilterToStorage
       StorageUtils_saveFilter setItem_filter gets rethrow_validation throw ret].
  rewrite bool_decide_eq_true_2 by exact H.
  change (setItem_calls (with_currentFilter f w)) with (setItem_calls w).
  rewrite Hs. reflexivity.
Qed.

Lemma valid_filter_dec f : valid_filter f ∨ ¬ valid_filter f.
Proof. unfold valid_filter. destruct (decide (f ∈ [u16 "all"; u16 "completed"; u16 "pending"])); tauto. Qed.

Lemma importTodos_clock p s w : clock_reads (snd (importTodos p s w)) = clock_reads w.
Proof.
  destruct (JSON_parse s) as [v|] eqn:E.
  - destruct v as [| | | |elements|];
      try (destruct (importTodos_refused p s w) as [msg ->]; [congruence | done]).
    rewrite (importTodos_array p s w elements E).
    by destruct (commit_frame p "Failed to import todos: " (length (validTodos_of p elements))
                   (with_todos (validTodos_of p elements) w)) as (_ & _ & Hc & _).
  - destruct (importTodos_refused p s w) as [msg ->]; [congruence | done].
Qed.

Section Reload.
Variable p : Platform.
Hypothesis storage_accepts : ∀ n, setItem_throws p n = false.

Lemma commit_kept {A} context (a : A) w l w1 :
  kept w ->
  todos w1 = l -> currentFilter w1 = currentFilter w -> localStorage w1 = localStorage w ->
  Forall dates_in_range l ->
  kept (snd (commit p context a w1)).
Proof.
  intros ((_ & Hf) & Hv & _) Ht Hc Hl Hd.
  rewrite commit_succeeds.
  2:{ split; [|apply storage_accepts]. rewrite Ht.
      eapply Forall_impl; [exact Hd|]. apply dates_in_range_valid. }
  simpl. split; [split|split].
  - left. unfold in_sync. reflexivity.
  - simpl. rewrite Hl, Hc. exact Hf.
  - simpl. by rewrite Hc.
  - simpl. by rewrite Ht.
Qed.

Lemma Forall_sublist_range (l1 l2 : list Todo) :
  sublist l1 l2 -> Forall dates_in_range l2 -> Forall dates_in_range l1.
Proof. apply Forall_of_sublist. Qed.

Lemma run_kept op w :
  ¬ is_import op ->
  (∀ n, (n < clock_reads (run p op w))%nat -> time_in_range (Date_now p n)) ->
  kept w -> kept (run p op w).
Proof.
  intros Himp Hclock Hk. pose proof Hk as (Hp & Hv & Hd).
  destruct op as [s|i u|i|i| |f| | |s| | |i| | | | | ]; simpl in *; try exact Hk.
  - (* addTodo *)
    destruct (acceptable_text_dec s) as [Hs|Hs].
    2:{ destruct (addTodo_rejected p s w Hs) as [msg ->]. exact Hk. }
    rewrite (addTodo_accepted p s w Hs) in *.
    destruct (commit_frame p "Failed to add todo: " (new_todo p w s)
                (with_todos (todos w ++ [new_todo p w s])
                   (tick_clock (tick_clock (tick_random (tick_clock w))))))
      as (_ & _ & Hc & _).
    rewrite Hc in Hclock. simpl in Hclock.
    eapply commit_kept; [exact Hk | reflexivity | reflexivity | reflexivity |].
    apply Forall_app. split; [exact Hd|]. apply Forall_singleton.
    eexists. eexists. split; [reflexivity|]. split; [reflexivity|].
    split; apply Hclock; lia.
  - (* updateTodo *)
    destruct (usable_id_dec i) as [Hi|Hi].
    2:{ destruct (updateTodo_bad_id p i u w Hi) as [msg ->]. exact Hk. }
    destruct (list_find (has_id i) (todos w)) as [[n t]|] eqn:Hfind.
    2:{ rewrite updateTodo_absent; [exact Hk | exact Hi | by apply list_find_None in Hfind]. }
    destruct (list_find_split _ _ _ _ Hfind) as (before & after & Hf & _).
    assert (Hcase : match updates_text u with Some s => acceptable_text s | None => True end
                    ∨ ∃ s, updates_text u = Some s ∧ (trim s = [] ∨ (200 < length (trim s))%nat)).
    { destruct (updates_text u) as [s|]; [|by left].
      destruct (acceptable_text_dec s); [by left | right; eauto]. }
    destruct Hcase as [Hu|(s & Hs & Hbad)].
    2:{ destruct (updateTodo_bad_text p i u w before t after s Hi Hf Hs Hbad) as [msg ->].
        exact Hk. }
    rewrite (updateTodo_found p i u w before t after Hi Hf Hu) in *.
    destruct (commit_frame p "Failed to update todo: " (Some (updated_todo p w u t))
                (with_todos (before ++ updated_todo p w u t :: after) (tick_clock w)))
      as (_ & _ & Hc & _).
    rewrite Hc in Hclock. simpl in Hclock.
    eapply commit_kept; [exact Hk | reflexivity | reflexivity | reflexivity |].
    destruct Hf as (Hl & _). rewrite Hl in Hd.
    apply Forall_app in Hd as [Hb Ha]. inversion Ha as [|? ? Ht Ha']; subst.
    apply Forall_app. split; [exact Hb|]. constructor; [|exact Ha'].
    destruct Ht as (c & x & Hc' & _ & Rc & _).
    exists c, (Date_now p (clock_reads w)). simpl.
    split; [exact Hc'|]. split; [reflexivity|]. split; [exact Rc|]. apply Hclock. lia.
  - (* toggleTodo *)
    destruct (usable_id_dec i) as [Hi|Hi].
    2:{ destruct (toggleTodo_bad_id p i w Hi) as [msg ->]. exact Hk. }
    destruct (list_find (has_id i) (todos w)) as [[n t]|] eqn:Hfind.
    2:{ rewrite toggleTodo_absent; [exact Hk | exact Hi | by apply list_find_None in Hfind]. }
    destruct (list_find_split _ _ _ _ Hfind) as (before & after & Hf & _).
    rewrite (toggleTodo_found p i w before t after Hi Hf) in *. cbv zeta in *.
    set (t' := updated_todo p w (set_completed (negb (completed t))) t) in *.
    destruct (commit_frame p "Failed to toggle todo: Failed to update todo: " (Some t')
                (with_todos (before ++ t' :: after) (tick_clock w)))
      as (_ & _ & Hc & _).
    rewrite Hc in Hclock. simpl in Hclock.
    eapply commit_kept; [exact Hk | reflexivity | reflexivity | reflexivity |].
    destruct Hf as (Hl & _). rewrite Hl in Hd.
    apply Forall_app in Hd as [Hb Ha]. inversion Ha as [|? ? Ht Ha']; subst.
    apply Forall_app. split; [exact Hb|]. constructor; [|exact Ha'].
    destruct Ht as (c & x & Hc' & _ & Rc & _).
    exists c, (Date_now p (clock_reads w)). simpl.
    split; [exact Hc'|]. split; [reflexivity|]. split; [exact Rc|]. apply Hclock. lia.
  - (* deleteTodo *)
    destruct (usable_id_dec i) as [Hi|Hi].
    2:{ destruct (deleteTodo_bad_id p i w Hi) as [msg ->]. exact Hk. }
    destruct (list_find (has_id i) (todos w)) as [[n t]|] eqn:Hfind.
    2:{ rewrite deleteTodo_absent; [exact Hk | exact Hi | by apply list_find_None in Hfind]. }
    destruct (list_find_split _ _ _ _ Hfind) as (before & after & Hf & _).
    rewrite (deleteTodo_found p i w before t after Hi Hf) in *.
    eapply commit_kept; [exact Hk | reflexivity | reflexivity | reflexivity |].
    destruct Hf as (Hl & _). rewrite Hl in Hd.
    apply Forall_app in Hd as [Hb Ha]. inversion Ha; subst. apply Forall_app. by split.
  - (* deleteCompletedTodos *)
    rewrite deleteCompletedTodos_commit in *.
    eapply commit_kept; [exact Hk | reflexivity | reflexivity | reflexivity |].
    eapply Forall_sublist_range; [apply sublist_filter | exact Hd].
  - (* setFilter *)
    destruct (valid_filter_dec f) as [Hf|Hf].
    2:{ rewrite (setFilter_invalid p f w Hf). exact Hk. }
    rewrite (setFilter_stored p f w Hf (storage_accepts _)). simpl.
    destruct Hp as (Ht & _). split; [split|split]; simpl.
    + exact Ht.
    + by left.
    + exact Hf.
    + exact Hd.
  - (* clearAll *)
    rewrite clearAll_commit in *.
    eapply commit_kept; [exact Hk | reflexivity | reflexivity | reflexivity | constructor].
  - (* clearStorage *)
    split; [split|split]; simpl.
    + right. by split.
    + right. by split.
    + unfold valid_filter. repeat constructor.
    + constructor.
  - (* importTodos *) by destruct Himp.
  - (* getTodoById *) by rewrite getTodoById_world.
Qed.

Lemma run_clock_mono op w : (clock_reads w ≤ clock_reads (run p op w))%nat.
Proof.
  destruct op as [s|i u|i|i| |f| | |s| | |i| | | | | ]; simpl; try lia.
  - destruct (acceptable_text_dec s) as [Hs|Hs].
    2:{ destruct (addTodo_rejected p s w Hs) as [msg ->]. simpl. lia. }
    rewrite (addTodo_accepted p s w Hs).
    destruct (commit_frame p "Failed to add todo: " (new_todo p w s)
                (with_todos (todos w ++ [new_todo p w s])
                   (tick_clock (tick_clock (tick_random (tick_clock w))))))
      as (_ & _ & Hc & _).
    rewrite Hc. simpl. lia.
  - destruct (usable_id_dec i) as [Hi|Hi].
    2:{ destruct (updateTodo_bad_id p i u w Hi) as [msg ->]. simpl. lia. }
    destruct (list_find (has_id i) (todos w)) as [[n t]|] eqn:Hfind.
    2:{ rewrite updateTodo_absent; [simpl; lia | exact Hi | by apply list_find_None in Hfind]. }
    destruct (list_find_split _ _ _ _ Hfind) as (before & after & Hf & _).
    assert (Hcase : match updates_text u with Some s => acceptable_text s | None => True end
                    ∨ ∃ s, updates_text u = Some s ∧ (trim s = [] ∨ (200 < length (trim s))%nat)).
    { destruct (updates_text u) as [s|]; [|by left].
      destruct (acceptable_text_dec s); [by left | right; eauto]. }
    destruct Hcase as [Hu|(s & Hs & Hbad)].
    2:{ destruct (updateTodo_bad_text p i u w before t after s Hi Hf Hs Hbad) as [msg ->].
        simpl. lia. }
    rewrite (updateTodo_found p i u w before t after Hi Hf Hu).
    destruct (commit_frame p "Failed to update todo: " (Some (updated_todo p w u t))
                (with_todos (before ++ updated_todo p w u t :: after) (tick_clock w)))
      as (_ & _ & Hc & _).
    rewrite Hc. simpl. lia.
  - destruct (usable_id_dec i) as [Hi|Hi].
    2:{ destruct (toggleTodo_bad_id p i w Hi) as [msg ->]. simpl. lia. }
    destruct (list_find (has_id i) (todos w)) as [[n t]|] eqn:Hfind.
    2:{ rewrite toggleTodo_absent; [simpl; lia | exact Hi | by apply list_find_None in Hfind]. }
    destruct (list_find_split _ _ _ _ Hfind) as (before & after & Hf & _).
    rewrite (toggleTodo_found p i w before t after Hi Hf). cbv zeta.
    set (t' := updated_todo p w (set_completed (negb (completed t))) t).
    destruct (commit_frame p "Failed to toggle todo: Failed to update todo: " (Some t')
                (with_todos (before ++ t' :: after) (tick_clock w)))
      as (_ & _ & Hc & _).
    rewrite Hc. simpl. lia.
  - destruct (usable_id_dec i) as [Hi|Hi].
    2:{ destruct (deleteTodo_bad_id p i w Hi) as [msg ->]. simpl. lia. }
    destruct (list_find (has_id i) (todos w)) as [[n t]|] eqn:Hfind.
    2:{ rewrite deleteTodo_absent; [simpl; lia | exact Hi | by apply list_find_None in Hfind]. }
    destruct (list_find_split _ _ _ _ Hfind) as (before & after & Hf & _).
    rewrite (deleteTodo_found p i w before t after Hi Hf).
    destruct (commit_frame p "Failed to delete todo: " true (with_todos (before ++ after) w))
      as (_ & _ & Hc & _).
    rewrite Hc. simpl. lia.
  - rewrite deleteCompletedTodos_commit.
    destruct (commit_frame p "Failed to delete completed todos: "
                (length (todos w) - length (filter_pending (todos w)))%nat
                (with_todos (filter_pending (todos w)) w)) as (_ & _ & Hc & _).
    rewrite Hc. simpl. lia.
  - destruct (setFilter_frame p f w) as [_ Hc]. rewrite Hc. lia.
  - rewrite clearAll_commit.
    destruct (commit_frame p "Failed to clear all todos: " tt (with_todos [] w))
      as (_ & _ & Hc & _).
    rewrite Hc. simpl. lia.
  - rewrite importTodos_clock. lia.
  - rewrite getTodoById_world. lia.
Qed.

Lemma empty_world_kept : kept empty_world.
Proof.
  split; [split|split].
  - right. by split.
  - right. by split.
  - unfold valid_filter. simpl. repeat constructor.
  - constructor.
Qed.

Lemma reachable_kept w :
  reachable_via p (fun op => ¬ is_import op) w ->
  (∀ n, (n < clock_reads w)%nat -> time_in_range (Date_now p n)) ->
  kept w.
Proof.
  induction 1 as [|w op Hr IH Himp]; intros Hclock; [apply empty_world_kept|].
  apply run_kept; [exact Himp | exact Hclock |].
  apply IH. intros n Hn. apply Hclock. pose proof (run_clock_mono op w). lia.
Qed.

Lemma kept_reloads w :
  parses_iso p -> kept w ->
  ∃ w', TodoList_constructor p w = (Ok (Typed tt), w')
        ∧ todos w' = todos w
        ∧ currentFilter w' = currentFilter w
        ∧ localStorage w' = localStorage w.
Proof.
  intros Hiso ((Ht & Hf) & Hv & Hd).
  assert (Hload : StorageUtils_loadTodos p w = (Ok (Typed (todos w)), w)).
  { destruct Ht as [Ht|[Hn He]].
    - rewrite (StorageUtils_loadTodos_saved p w (todos w) Ht).
      + f_equal. f_equal. f_equal. clear Ht Hf Hv.
        induction Hd as [|t l Hd' _ IH]; [done|].
        simpl. by rewrite (reparsed_in_range p t Hiso Hd'), IH.
      + eapply Forall_impl; [exact Hd|]. apply dates_in_range_valid.
    - rewrite He. apply StorageUtils_loadTodos_unusable. intros s elements Hs. congruence. }
  eexists. split; [apply (constructor_typed p w _ Hload)|].
  split; [reflexivity|]. split; [|reflexivity]. simpl. unfold loaded_filter.
  destruct Hf as [Hf|[Hf Hc]].
  - rewrite Hf. rewrite bool_decide_eq_false_2; [done|].
    intros E. unfold valid_filter in Hv. rewrite E in Hv.
    repeat (inversion Hv as [|? ? ? Hv']; subst; clear Hv; rename Hv' into Hv).
  - by rewrite Hf, Hc.
Qed.

End Reload.

(** Property X5.  A reload loses nothing while storage works.  On a
    platform that reads ISO strings back, whose [setItem] never throws
    and whose clock has shown times in the range of a Date, in every
    world reached from the empty one by calls other than [importTodos] a
    new instance starts with the collection and the filter that the
    instance in use holds. *)
Theorem reload_keeps_the_session p w :
  parses_iso p ->
  (∀ n, setItem_throws p n = false) ->
  (∀ n, (n < clock_reads w)%nat -> time_in_range (Date_now p n)) ->
  reachable_via p (fun op => ¬ is_import op) w ->
  ∃ w', TodoList_constructor p w = (Ok (Typed tt), w')
        ∧ todos w' = todos w
        ∧ currentFilter w' = currentFilter w
        ∧ localStorage w' = localStorage w.
Proof.
  intros Hiso Hs Hc Hr. apply kept_reloads; [exact Hiso|].
  by apply (reachable_kept p).
Qed.

Lemma reload_keeps_the_session_witness :
  ∃ w', TodoList_constructor example_platform two_todos = (Ok (Typed tt), w')
        ∧ todos w' = todos two_todos
        ∧ currentFilter w' = currentFilter two_todos
        ∧ localStorage w' = localStorage two_todos.
Proof.
  apply (reload_keeps_the_session example_platform two_todos).
  - apply example_platform_parses_iso.
  - reflexivity.
  - intros n Hn. change (clock_reads two_todos) with 6%nat in Hn.
    unfold time_in_range, maxTime. simpl. lia.
  - apply two_todos_via.
Defined.

(** ** The filter *)

Lemma setFilter_sets p f w :
  valid_filter f ->
  currentFilter (snd (setFilter p f w)) = f ∧ todos (snd (setFilter p f w)) = todos w.
Proof.
  intros Hf. destruct (setItem_throws p (setItem_calls w)) eqn:Hs.
  - by rewrite (setFilter_refused p f w Hf Hs).
  - by rewrite (setFilter_stored p f w Hf Hs).
Qed.

(** Property X6.  [setFilter] with one of the three names.  The filter
    of the instance becomes that name and the collection, in memory and
    in storage, is not touched.  When [setItem] accepts the write the
    call returns, the name is stored, and a new instance built
    afterwards, whatever the stored collection is, starts with that
    filter. *)
Theorem setFilter_persists p f w :
  valid_filter f ->
  let w' := snd (setFilter p f w) in
  currentFilter w' = f
  ∧ todos w' = todos w
  ∧ todolist_todos (localStorage w') = todolist_todos (localStorage w)
  ∧ (setItem_throws p (setItem_calls w) = false ->
     fst (setFilter p f w) = Ok tt
     ∧ todolist_filter (localStorage w') = Some f
     ∧ (∃ r, fst (TodoList_constructor p w') = Ok r)
     ∧ currentFilter (snd (TodoList_constructor p w')) = f).
Proof.
  intros Hf w'. subst w'.
  destruct (setItem_throws p (setItem_calls w)) eqn:Hs.
  - rewrite (setFilter_refused p f w Hf Hs). simpl.
    split; [reflexivity|]. split; [reflexivity|]. split; [reflexivity|]. done.
  - rewrite (setFilter_stored p f w Hf Hs). simpl.
    split; [reflexivity|]. split; [reflexivity|]. split; [reflexivity|].
    intros _. split; [reflexivity|]. split; [reflexivity|].
    match goal with
    | |- context [TodoList_constructor p ?w1] =>
        destruct (constructor_filter p w1) as [Hr Hc]
    end.
    split; [exact Hr|]. rewrite Hc.
    unfold loaded_filter. simpl. rewrite bool_decide_eq_false_2; [done|].
    intros ->. unfold valid_filter in Hf.
    repeat (inversion Hf as [|? ? ? Hf']; subst; clear Hf; rename Hf' into Hf).
Qed.

Lemma setFilter_persists_witness :
  let f := u16 "completed" in
  let w' := snd (setFilter example_platform f two_todos) in
  currentFilter w' = f
  ∧ todos w' = todos two_todos
  ∧ todolist_todos (localStorage w') = todolist_todos (localStorage two_todos)
  ∧ fst (setFilter example_platform f two_todos) = Ok tt
  ∧ todolist_filter (localStorage w') = Some f
  ∧ currentFilter (snd (TodoList_constructor example_platform w')) = f.
Proof.
  intros f w'.
  destruct (setFilter_persists example_platform f two_todos) as (H1 & H2 & H3 & H4).
  - unfold valid_filter. subst f. repeat constructor.
  - destruct H4 as (H4 & H5 & _ & H6); [reflexivity|].
    split; [exact H1|]. split; [exact H2|]. split; [exact H3|].
    split; [exact H4|]. split; [exact H5|]. exact H6.
Defined.

(** Property X7.  The two ways [setFilter] fails.  A name that is none
    of the three is refused with a ValidationError and nothing changes.
    A valid name whose write [setItem] refuses makes the call throw a
    plain Error whose message chains the three layers it went through;
    the filter of the instance is then already the new one (nothing is
    rolled back) while storage keeps what it held. *)
Theorem setFilter_failures p f w :
  (¬ valid_filter f ->
   setFilter p f w
   = (Throw (ValidationError "Invalid filter type. Must be one of: all, completed, pending"), w))
  ∧ (valid_filter f -> setItem_throws p (setItem_calls w) = true ->
     let w' := snd (setFilter p f w) in
     fst (setFilter p f w)
     = Throw (GenericError "Failed to set filter: Failed to save filter to storage: Failed to save filter to localStorage")
     ∧ currentFilter w' = f
     ∧ localStorage w' = localStorage w
     ∧ todos w' = todos w).
Proof.
  split; [apply setFilter_invalid|].
  intros Hf Hs w'. subst w'. rewrite (setFilter_refused p f w Hf Hs). done.
Qed.

Lemma setFilter_failures_witness :
  setFilter example_platform (u16 "Completed") two_todos
  = (Throw (ValidationError "Invalid filter type. Must be one of: all, completed, pending"),
     two_todos)
  ∧ (let w' := snd (setFilter full_storage_platform (u16 "pending") two_todos) in
     fst (setFilter full_storage_platform (u16 "pending") two_todos)
     = Throw (GenericError "Failed to set filter: Failed to save filter to storage: Failed to save filter to localStorage")
     ∧ currentFilter w' = u16 "pending"
     ∧ localStorage w' = localStorage two_todos
     ∧ todos w' = todos two_todos).
Proof.
  split.
  - apply (setFilter_failures example_platform (u16 "Completed") two_todos).
    vm_compute. intros H.
    repeat (inversion H as [|? ? ? H']; subst; clear H; rename H' into H).
  - apply (setFilter_failures full_storage_platform (u16 "pending") two_todos).
    + unfold valid_filter. repeat constructor.
    + reflexivity.
Defined.

Lemma commit_filter_frame {A} p context (a : A) w :
  todolist_filter (localStorage (snd (commit p context a w))) = todolist_filter (localStorage w).
Proof.
  destruct (write_succeeds_or_fails p w (todos w)) as [H|H].
  - by rewrite (commit_succeeds p context a w H).
  - destruct (commit_fails p context a w H) as (w' & -> & _ & _ & Hl & _). simpl. by rewrite Hl.
Qed.

(** Every call other than [setFilter] and [clearStorage] leaves the
    filter alone, in the instance and in storage. *)
Lemma run_filter_frame p op w :
  match op with
  | OpSetFilter _ | OpClearStorage => True
  | _ => currentFilter (run p op w) = currentFilter w
         ∧ todolist_filter (localStorage (run p op w)) = todolist_filter (localStorage w)
  end.
Proof.
  destruct op as [s|i u|i|i| |f| | |s| | |i| | | | | ]; simpl; try exact I; try done.
  - destruct (acceptable_text_dec s) as [Hs|Hs].
    2:{ by destruct (addTodo_rejected p s w Hs) as [msg ->]. }
    rewrite (addTodo_accepted p s w Hs). rewrite commit_filter_frame.
    by destruct (commit_frame p "Failed to add todo: " (new_todo p w s)
                   (with_todos (todos w ++ [new_todo p w s])
                      (tick_clock (tick_clock (tick_random (tick_clock w))))))
      as (_ & Hc & _).
  - destruct (usable_id_dec i) as [Hi|Hi].
    2:{ by destruct (updateTodo_bad_id p i u w Hi) as [msg ->]. }
    destruct (list_find (has_id i) (todos w)) as [[n t]|] eqn:Hfind.
    2:{ rewrite updateTodo_absent; [done | exact Hi | by apply list_find_None in Hfind]. }
    destruct (list_find_split _ _ _ _ Hfind) as (before & after & Hf & _).
    assert (Hcase : match updates_text u with Some s => acceptable_text s | None => True end
                    ∨ ∃ s, updates_text u = Some s ∧ (trim s = [] ∨ (200 < length (trim s))%nat)).
    { destruct (updates_text u) as [s|]; [|by left].
      destruct (acceptable_text_dec s); [by left | right; eauto]. }
    destruct Hcase as [Hu|(s & Hs & Hbad)].
    2:{ by destruct (updateTodo_bad_text p i u w before t after s Hi Hf Hs Hbad) as [msg ->]. }
    rewrite (updateTodo_found p i u w before t after Hi Hf Hu). rewrite commit_filter_frame.
    by destruct (commit_frame p "Failed to update todo: " (Some (updated_todo p w u t))
                   (with_todos (before ++ updated_todo p w u t :: after) (tick_clock w)))
      as (_ & Hc & _).
  - destruct (usable_id_dec i) as [Hi|Hi].
    2:{ by destruct (toggleTodo_bad_id p i w Hi) as [msg ->]. }
    destruct (list_find (has_id i) (todos w)) as [[n t]|] eqn:Hfind.
    2:{ rewrite toggleTodo_absent; [done | exact Hi | by apply list_find_None in Hfind]. }
    destruct (list_find_split _ _ _ _ Hfind) as (before & after & Hf & _).
    rewrite (toggleTodo_found p i w before t after Hi Hf). cbv zeta.
    rewrite commit_filter_frame.
    by destruct (commit_frame p "Failed to toggle todo: Failed to update todo: "
                   (Some (updated_todo p w (set_completed (negb (completed t))) t))
                   (with_todos (before ++ updated_todo p w (set_completed (negb (completed t))) t
                                  :: after) (tick_clock w)))
      as (_ & Hc & _).
  - destruct (usable_id_dec i) as [Hi|Hi].
    2:{ by destruct (deleteTodo_bad_id p i w Hi) as [msg ->]. }
    destruct (list_find (has_id i) (todos w)) as [[n t]|] eqn:Hfind.
    2:{ rewrite deleteTodo_absent; [done | exact Hi | by apply list_find_None in Hfind]. }
    destruct (list_find_split _ _ _ _ Hfind) as (before & after & Hf & _).
    rewrite (deleteTodo_found p i w before t after Hi Hf). rewrite commit_filter_frame.
    by destruct (commit_frame p "Failed to delete todo: " true (with_todos (before ++ after) w))
      as (_ & Hc & _).
  - rewrite deleteCompletedTodos_commit. rewrite commit_filter_frame.
    by destruct (commit_frame p "Failed to delete completed todos: "
                   (length (todos w) - length (filter_pending (todos w)))%nat
                   (with_todos (filter_pending (todos w)) w)) as (_ & Hc & _).
  - rewrite clearAll_commit. rewrite commit_filter_frame.
    by destruct (commit_frame p "Failed to clear all todos: " tt (with_todos [] w))
      as (_ & Hc & _).
  - destruct (JSON_parse s) as [v|] eqn:E.
    + destruct v as [| | | |elements|];
        try (by destruct (importTodos_refused p s w) as [msg ->]; [congruence|]).
      rewrite (importTodos_array p s w elements E). rewrite commit_filter_frame.
      by destruct (commit_frame p "Failed to import todos: " (length (validTodos_of p elements))
                     (with_todos (validTodos_of p elements) w)) as (_ & Hc & _).
    + by destruct (importTodos_refused p s w) as [msg ->]; [congruence|].
  - by rewrite getTodoById_world.
Qed.

(** Property X8.  The filter is always one of the three names.  In every
    world reached from the empty one by any calls, [importTodos]
    included, the filter of the instance is 'all', 'completed' or
    'pending', and so is the name in storage when there is one. *)
Theorem filter_stays_valid p w :
  reachable p w ->
  valid_filter (currentFilter w)
  ∧ ∀ f, todolist_filter (localStorage w) = Some f -> valid_filter f.
Proof.
  induction 1 as [|w op Hr [IH1 IH2]].
  - split; [unfold valid_filter; simpl; repeat constructor | done].
  - pose proof (run_filter_frame p op w) as Hfr.
    destruct op as [s|i u|i|i| |f| | |s| | |i| | | | | ]; cbv beta iota in Hfr;
      try (lazymatch type of Hfr with
           | True => fail
           | _ => destruct Hfr as [Hc Hl]; rewrite Hc, Hl; by split
           end).
    + simpl. destruct (valid_filter_dec f) as [Hf|Hf].
      2:{ rewrite (setFilter_invalid p f w Hf). by split. }
      destruct (setItem_throws p (setItem_calls w)) eqn:Hs.
      * rewrite (setFilter_refused p f w Hf Hs). by split.
      * rewrite (setFilter_stored p f w Hf Hs). simpl. split; [exact Hf|].
        by intros f' [= <-].
    + simpl. split; [unfold valid_filter; repeat constructor | done].
Qed.

Lemma filter_stays_valid_witness :
  let w := run example_platform (OpSetFilter (u16 "pending")) two_todos in
  valid_filter (currentFilter w)
  ∧ ∀ f, todolist_filter (localStorage w) = Some f -> valid_filter f.
Proof.
  apply (filter_stays_valid example_platform).
  apply reachable_step, reachable_step, reachable_step, reachable_empty.
Defined.

(** ** Counting and selecting *)

Lemma filter_completed_length l :
  (length (filter_completed l) + length (filter_pending l) = length l)%nat.
Proof.
  unfold filter_pending, filter_completed.
  induction l as [|t l IH]; [done|].
  rewrite !filter_cons.
  repeat case_decide; destruct (completed t); simpl in *; try tauto; lia.
Qed.

Lemma filter_completed_pending_perm l : filter_completed l ++ filter_pending l ≡ₚ l.
Proof.
  unfold filter_pending, filter_completed.
  induction l as [|t l IH]; [done|].
  rewrite !filter_cons.
  repeat case_decide; destruct (completed t); simpl in *; try tauto.
  - by constructor.
  - rewrite <- Permutation_middle. by constructor.
Qed.

Lemma filter_completed_elem l : Forall (fun t => completed t = true) (filter_completed l).
Proof.
  apply Forall_forall. intros t Ht. unfold filter_completed in Ht.
  apply list_elem_of_filter in Ht as [Ht _]. by destruct (completed t).
Qed.

Lemma filter_pending_all l : Forall (fun t => completed t = false) (filter_pending l).
Proof.
  apply Forall_forall. intros t Ht. by apply filter_pending_elem in Ht as [_ Ht].
Qed.

Lemma getStats_value w :
  getStats w
  = (Ok {| total := length (todos w);
           stats_completed := length (filter_completed (todos w));
           pending := (length (todos w) - length (filter_completed (todos w)))%nat |}, w).
Proof. reflexivity. Qed.

(** Property X9.  The statistics agree with the collection and with the
    filtered views.  [getStats] never throws and changes nothing; its
    total is the number of records, which is what [getTodosCount]
    returns and is 0 exactly when [isEmpty] returns true; completed and
    pending add up to the total and are the numbers of records that
    [filterTodos] selects under 'completed' and under 'pending'. *)
Theorem getStats_counts w :
  ∃ s, getStats w = (Ok s, w)
       ∧ total s = length (todos w)
       ∧ (stats_completed s + pending s = total s)%nat
       ∧ stats_completed s = length (filterTodos (todos w) (u16 "completed"))
       ∧ pending s = length (filterTodos (todos w) (u16 "pending"))
       ∧ getTodosCount w = (Ok (total s), w)
       ∧ isEmpty w = (Ok (bool_decide (total s = 0%nat)), w).
Proof.
  eexists. split; [reflexivity|]. cbn [total stats_completed pending].
  pose proof (filter_completed_length (todos w)) as H.
  split; [reflexivity|]. split; [lia|]. split; [reflexivity|]. split.
  - change (filterTodos (todos w) (u16 "pending")) with (filter_pending (todos w)). lia.
  - split; [reflexivity|]. unfold isEmpty, gets. f_equal. f_equal.
    destruct (todos w); reflexivity.
Qed.

(** Property X10.  The three views of the collection.  After [setFilter]
    with 'completed' or with 'pending' (whether or not the filter could
    be stored), [getFilteredTodos] returns the completed, respectively
    the pending records, in the order of the collection; the two views
    together hold every record exactly once.  After [setFilter] with
    'all' it returns the whole collection. *)
Theorem filtered_views_partition p w :
  let view f := fst (getFilteredTodos (snd (setFilter p (u16 f) w))) in
  ∃ finished unfinished,
    view "completed" = Ok finished
    ∧ view "pending" = Ok unfinished
    ∧ view "all" = Ok (todos w)
    ∧ sublist finished (todos w)
    ∧ sublist unfinished (todos w)
    ∧ Forall (fun t => completed t = true) finished
    ∧ Forall (fun t => completed t = false) unfinished
    ∧ finished ++ unfinished ≡ₚ todos w.
Proof.
  intros view.
  assert (Hview : ∀ f, valid_filter (u16 f) ->
                       view f = Ok (filterTodos (todos w) (u16 f))).
  { intros f Hf. subst view. cbv beta.
    destruct (setFilter_sets p (u16 f) w Hf) as (Hc & Ht).
    unfold getFilteredTodos, try_catch, bind, gets, ret. simpl. by rewrite Hc, Ht. }
  exists (filter_completed (todos w)), (filter_pending (todos w)).
  split; [apply Hview; unfold valid_filter; repeat constructor|].
  split; [apply Hview; unfold valid_filter; repeat constructor|].
  split; [apply Hview; unfold valid_filter; repeat constructor|].
  split; [apply sublist_filter|]. split; [apply sublist_filter|].
  split; [apply filter_completed_elem|]. split; [apply filter_pending_all|].
  apply filter_completed_pending_perm.
Qed.

(** ** Generated ids *)

Lemma digit_char_not_white d : 0 <= d < 36 -> isWhiteSpace (digit_char d) = false.
Proof.
  intros H. assert (Hn : ∃ n : nat, d = Z.of_nat n ∧ (n < 36)%nat).
  { exists (Z.to_nat d). lia. }
  destruct Hn as (n & -> & Hn).
  do 36 (destruct n as [|n]; [reflexivity|]). lia.
Qed.

Lemma digits_in_base_last fuel n :
  0 <= n -> ∃ r d, digits_in_base 36 (S fuel) n = r ++ [digit_char d] ∧ 0 <= d < 36.
Proof.
  intros Hn. cbn [digits_in_base]. destruct (n <? 36) eqn:E.
  - exists [], n. split; [reflexivity|]. apply Z.ltb_lt in E. lia.
  - eexists. exists (n mod 36). split; [reflexivity|]. apply Z.mod_pos_bound. lia.
Qed.

Lemma toString36_not_blank n : ¬ blank (toString36 n).
Proof.
  unfold toString36, blank. destruct (n <? 0) eqn:E.
  - intros H. inversion H as [|? ? Hc _]. discriminate Hc.
  - apply Z.ltb_ge in E.
    destruct (digits_in_base_last (Z.to_nat (Z.log2 n)) n E) as (r & d & -> & Hd).
    intros H. apply Forall_app in H as [_ H]. inversion H as [|? ? Hc _].
    by rewrite (digit_char_not_white d Hd) in Hc.
Qed.

Lemma next_id_usable p w : usable_id (next_id p w).
Proof.
  unfold usable_id, next_id. rewrite trim_nil_iff. intros H.
  apply Forall_app in H as [H _]. by apply (toString36_not_blank _ H).
Qed.

(** ** Looking up what was added and what was deleted *)

Lemma commit_returned {A} p context (a b : A) w w' :
  commit p context a w = (Ok b, w') -> b = a ∧ todos w' = todos w.
Proof.
  intros H. pose proof (commit_frame p context a w) as (Ht & _). rewrite H in Ht.
  split; [|exact Ht]. unfold commit in H.
  destruct (saveToStorage p w) as [[[]|e] w1]; congruence.
Qed.

Lemma addTodo_returned p s w t w' :
  addTodo p s w = (Ok t, w') ->
  acceptable_text s ∧ t = new_todo p w s ∧ todos w' = todos w ++ [t].
Proof.
  intros H. destruct (acceptable_text_dec s) as [Hs|Hs].
  - split; [exact Hs|]. rewrite (addTodo_accepted p s w Hs) in H.
    apply commit_returned in H as [-> Ht]. split; [reflexivity | exact Ht].
  - destruct (addTodo_rejected p s w Hs) as [msg Hm]. congruence.
Qed.

(** Property X11.  Looking up the record that [addTodo] returned.  The
    id of a record that [addTodo] returned is never refused by
    [validateId].  When that id is new to the collection, [getTodoById]
    with it returns the record.  When the generated id is already the id
    of a record (the code does not check), [getTodoById] returns the
    first, older record, and the new one cannot be reached by its id. *)
Theorem addTodo_then_getTodoById p s w t w' :
  addTodo p s w = (Ok t, w') ->
  usable_id (id t)
  ∧ (id t ∉ (id <$> todos w) -> getTodoById (id t) w' = (Ok (Some t), w'))
  ∧ (∀ before old after,
       first_with_id (id t) (todos w) before old after ->
       getTodoById (id t) w' = (Ok (Some old), w')).
Proof.
  intros H. destruct (addTodo_returned p s w t w' H) as (Hs & Ht & Hw).
  assert (Hu : usable_id (id t)) by (rewrite Ht; apply next_id_usable).
  split; [exact Hu|]. split.
  - intros Hfresh. apply (getTodoById_found (id t) w' (todos w) t []); [exact Hu|].
    split; [exact Hw|]. split; [reflexivity|].
    apply Forall_forall. intros x Hx Hid. apply Hfresh.
    apply list_elem_of_fmap. by exists x.
  - intros before old after (Hl & Hid & Hb).
    apply (getTodoById_found (id t) w' before old (after ++ [t])); [exact Hu|].
    split; [|by split]. rewrite Hw, Hl. by rewrite <- app_assoc.
Qed.

Lemma addTodo_then_getTodoById_witness :
  let r := addTodo example_platform (u16 "Feed cat") two_todos in
  ∃ t, fst r = Ok t
       ∧ usable_id (id t)
       ∧ getTodoById (id t) (snd r) = (Ok (Some t), snd r).
Proof.
  intros r.
  exists (new_todo example_platform two_todos (u16 "Feed cat")).
  destruct (addTodo_then_getTodoById example_platform (u16 "Feed cat") two_todos
              (new_todo example_platform two_todos (u16 "Feed cat")) (snd r))
    as (H1 & H2 & _).
  - vm_compute. reflexivity.
  - split; [vm_compute; reflexivity|]. split; [exact H1|].
    apply H2. vm_compute. intros H.
    repeat (inversion H as [|? ? ? H']; subst; clear H; rename H' into H).
Defined.

Lemma deleteTodo_todos p i w before t after :
  usable_id i -> first_with_id i (todos w) before t after ->
  todos (snd (deleteTodo p i w)) = before ++ after.
Proof.
  intros Hi Hf. rewrite (deleteTodo_found p i w before t after Hi Hf).
  by destruct (commit_frame p "Failed to delete todo: " true (with_todos (before ++ after) w))
    as (Ht & _).
Qed.

(** Property X12.  Looking up a record that was deleted.  After
    [deleteTodo] with an id that [validateId] lets through, in a
    collection whose ids are pairwise distinct, [getTodoById] with that
    id returns undefined, whether or not the write of the deletion went
    through.  When a later record has the same id, it is that record
    which [getTodoById] then returns. *)
Theorem deleteTodo_then_getTodoById p i w :
  usable_id i ->
  let w' := snd (deleteTodo p i w) in
  (ids_distinct (todos w) -> getTodoById i w' = (Ok None, w'))
  ∧ (∀ before t after before' t' after',
       first_with_id i (todos w) before t after ->
       first_with_id i after before' t' after' ->
       getTodoById i w' = (Ok (Some t'), w')).
Proof.
  intros Hi w'. split.
  - intros Hd. apply getTodoById_absent; [exact Hi|].
    destruct (list_find (has_id i) (todos w)) as [[n t]|] eqn:Hfind.
    + destruct (list_find_split _ _ _ _ Hfind) as (before & after & Hf & _).
      subst w'. rewrite (deleteTodo_todos p i w before t after Hi Hf).
      destruct Hf as (Hl & Hid & Hb). apply Forall_app. split; [exact Hb|].
      unfold ids_distinct in Hd. rewrite Hl, fmap_app, fmap_cons in Hd.
      apply NoDup_app in Hd as (_ & _ & Hd). apply NoDup_cons in Hd as [Hn _].
      apply Forall_forall. intros x Hx Hxi. apply Hn.
      apply list_elem_of_fmap. exists x. split; [congruence | exact Hx].
    + apply list_find_None in Hfind. subst w'.
      by rewrite (deleteTodo_absent p i w Hi Hfind).
  - intros before t after before' t' after' Hf (Hl' & Hid' & Hb').
    apply (getTodoById_found i w' (before ++ before') t' after'); [exact Hi|].
    subst w'. rewrite (deleteTodo_todos p i w before t after Hi Hf).
    destruct Hf as (Hl & Hid & Hb).
    split; [by rewrite Hl', <- app_assoc|]. split; [exact Hid'|].
    apply Forall_app. by split.
Qed.

Lemma two_todos_distinct : ids_distinct (todos two_todos).
Proof.
  rewrite two_todos_records. unfold ids_distinct. vm_compute.
  repeat constructor; intros H;
    repeat (inversion H as [|? ? ? H']; subst; clear H; rename H' into H).
Qed.

Lemma deleteTodo_then_getTodoById_witness :
  let w' := snd (deleteTodo example_platform (id milk) two_todos) in
  getTodoById (id milk) w' = (Ok None, w').
Proof.
  intros w'.
  destruct (deleteTodo_then_getTodoById example_platform (id milk) two_todos milk_id_usable)
    as [H _].
  apply H. apply two_todos_distinct.
Defined.

(** ** Updating the text *)

(** Property X13.  [updateTodo] with a text.  For an id that
    [validateId] lets through and a text whose trimmed form is non-empty
    and at most 200 code units long, [updateTodo] puts in the place of
    the first record with that id a record with the same id and
    createdAt, whose text is the words of the given text separated by
    single spaces, whose completed flag is the given one (the old one
    when none is given), and whose updatedAt is the current reading of
    the clock; the other records stay.  When the persistence write goes
    through, the call returns that record and the collection is the
    stored one. *)
Theorem updateTodo_with_text p i s c w before t after :
  usable_id i ->
  first_with_id i (todos w) before t after ->
  acceptable_text s ->
  let u := {| updates_text := Some s; updates_completed := c |} in
  let t' := {| id := id t; text := collapsed_text s;
               completed := match c with Some b => b | None => completed t end;
               createdAt := createdAt t;
               updatedAt := ValidDate (Date_now p (clock_reads w)) |} in
  let w' := snd (updateTodo p i u w) in
  todos w' = before ++ t' :: after
  ∧ (write_succeeds p w (before ++ t' :: after) ->
     fst (updateTodo p i u w) = Ok (Some t') ∧ in_sync w').
Proof.
  intros Hi Hf Hs u t' w'. subst w'.
  rewrite (updateTodo_found p i u w before t after Hi Hf Hs).
  assert (Ht : updated_todo p w u t = t').
  { unfold updated_todo, t'. simpl. by rewrite sanitizeTodoText_collapsed. }
  rewrite Ht.
  pose proof (commit_frame p "Failed to update todo: " (Some t')
                (with_todos (before ++ t' :: after) (tick_clock w))) as (Htd & _).
  split; [exact Htd|].
  intros Hw. rewrite commit_succeeds by exact Hw. split; reflexivity.
Qed.

Lemma updateTodo_with_text_witness :
  let u := {| updates_text := Some (u16 " Buy  oat milk "); updates_completed := None |} in
  let t' := {| id := id milk; text := collapsed_text (u16 " Buy  oat milk ");
               completed := completed milk;
               createdAt := createdAt milk;
               updatedAt := ValidDate (Date_now example_platform (clock_reads two_todos)) |} in
  let w' := snd (updateTodo example_platform (id milk) u two_todos) in
  todos w' = [] ++ t' :: [dog]
  ∧ fst (updateTodo example_platform (id milk) u two_todos) = Ok (Some t')
  ∧ in_sync w'.
Proof.
  intros u t' w'.
  destruct (updateTodo_with_text example_platform (id milk) (u16 " Buy  oat milk ") None
              two_todos [] milk [dog] milk_id_usable milk_is_first) as [H1 H2].
  - split; [vm_compute; discriminate | vm_compute; lia].
  - split; [exact H1|]. apply H2. split; [|reflexivity].
    repeat constructor; discriminate.
Defined.

(** Property X14.  [updateTodo] with a text that [validateTodoText]
    refuses.  The id is looked up before the text is examined: if no
    record has the id, the call returns null and does not complain about
    the text; if a record has it, the call throws a ValidationError.
    Either way nothing changes, not even updatedAt, and nothing is
    written. *)
Theorem updateTodo_invalid_text p i s c w :
  usable_id i ->
  blank s ∨ (200 < length (trim s))%nat ->
  let u := {| updates_text := Some s; updates_completed := c |} in
  (Forall (fun x => id x ≠ i) (todos w) -> updateTodo p i u w = (Ok None, w))
  ∧ (∀ before t after,
       first_with_id i (todos w) before t after ->
       ∃ msg, updateTodo p i u w = (Throw (ValidationError msg), w)).
Proof.
  intros Hi Hs u. split; [by apply updateTodo_absent|].
  intros before t after Hf.
  apply (updateTodo_bad_text p i u w before t after s Hi Hf eq_refl).
  destruct Hs as [Hs|Hs]; [left; by apply trim_nil_iff | by right].
Qed.

Lemma updateTodo_invalid_text_witness :
  let u := {| updates_text := Some (u16 "  "); updates_completed := Some true |} in
  updateTodo example_platform (u16 "absent") u two_todos = (Ok None, two_todos)
  ∧ ∃ msg, updateTodo example_platform (id milk) u two_todos
           = (Throw (ValidationError msg), two_todos).
Proof.
  intros u. split.
  - apply (updateTodo_invalid_text example_platform (u16 "absent") (u16 "  ") (Some true) two_todos).
    + vm_compute. discriminate.
    + left. unfold blank. simpl. repeat constructor.
    + rewrite two_todos_records. repeat constructor; discriminate.
  - destruct (updateTodo_invalid_text example_platform (id milk) (u16 "  ") (Some true) two_todos
                milk_id_usable) as [_ H].
    + left. unfold blank. simpl. repeat constructor.
    + apply (H [] milk [dog] milk_is_first).
Defined.

Lemma replaced_keeps (before after : list Todo) t t' :
  id t' = id t -> createdAt t' = createdAt t ->
  map id (before ++ t' :: after) = map id (before ++ t :: after)
  ∧ map createdAt (before ++ t' :: after) = map createdAt (before ++ t :: after).
Proof. intros H1 H2. rewrite !map_app. simpl. by rewrite H1, H2. Qed.

(** Property X15.  What [updateTodo] and [toggleTodo] never touch.
    Whatever the id and the updates, and whether the call returns,
    returns null or throws, the collection afterwards has the same ids
    in the same order and the same createdAt for every record: these
    calls never add, remove, reorder or re-create a record. *)
Theorem update_keeps_ids_and_creation p i u w :
  let w1 := snd (updateTodo p i u w) in
  let w2 := snd (toggleTodo p i w) in
  map id (todos w1) = map id (todos w)
  ∧ map createdAt (todos w1) = map createdAt (todos w)
  ∧ map id (todos w2) = map id (todos w)
  ∧ map createdAt (todos w2) = map createdAt (todos w).
Proof.
  intros w1 w2.
  assert (H : (map id (todos w1) = map id (todos w)
               ∧ map createdAt (todos w1) = map createdAt (todos w))
              ∧ (map id (todos w2) = map id (todos w)
                 ∧ map createdAt (todos w2) = map createdAt (todos w))); [|tauto].
  subst w1 w2.
  destruct (usable_id_dec i) as [Hi|Hi].
  2:{ destruct (updateTodo_bad_id p i u w Hi) as [msg ->].
      destruct (toggleTodo_bad_id p i w Hi) as [msg' ->]. done. }
  destruct (list_find (has_id i) (todos w)) as [[n t]|] eqn:Hfind.
  2:{ apply list_find_None in Hfind.
      rewrite (updateTodo_absent p i u w Hi Hfind), (toggleTodo_absent p i w Hi Hfind). done. }
  destruct (list_find_split _ _ _ _ Hfind) as (before & after & Hf & _).
  pose proof Hf as (Hl & _). split.
  - assert (Hcase : match updates_text u with Some s => acceptable_text s | None => True end
                    ∨ ∃ s, updates_text u = Some s ∧ (trim s = [] ∨ (200 < length (trim s))%nat)).
    { destruct (updates_text u) as [s|]; [|by left].
      destruct (acceptable_text_dec s); [by left | right; eauto]. }
    destruct Hcase as [Hu|(s & Hs & Hbad)].
    2:{ by destruct (updateTodo_bad_text p i u w before t after s Hi Hf Hs Hbad) as [msg ->]. }
    rewrite (updateTodo_found p i u w before t after Hi Hf Hu).
    destruct (commit_frame p "Failed to update todo: " (Some (updated_todo p w u t))
                (with_todos (before ++ updated_todo p w u t :: after) (tick_clock w)))
      as (Ht & _).
    rewrite Ht, Hl. simpl. by apply replaced_keeps.
  - rewrite (toggleTodo_found p i w before t after Hi Hf). cbv zeta.
    destruct (commit_frame p "Failed to toggle todo: Failed to update todo: "
                (Some (updated_todo p w (set_completed (negb (completed t))) t))
                (with_todos (before ++ updated_todo p w (set_completed (negb (completed t))) t
                               :: after) (tick_clock w)))
      as (Ht & _).
    rewrite Ht, Hl. simpl. by apply replaced_keeps.
Qed.

(** ** The exceptions that reach the caller *)

Lemma thrown_rethrow_validation {A} (body : M A) context w e :
  thrown (try_catch body (rethrow_validation context) w) = Some e ->
  instanceof_StorageError e = false.
Proof.
  unfold thrown, try_catch, rethrow_validation, throw.
  destruct (body w) as [[a|e0] w1]; simpl; [done|].
  destruct e0; simpl; by intros [= <-].
Qed.

Lemma thrown_rethrow_wrapped {A} (body : M A) context w e :
  thrown (try_catch body (rethrow_wrapped context) w) = Some e ->
  instanceof_StorageError e = false.
Proof.
  unfold thrown, try_catch, rethrow_wrapped, throw.
  destruct (body w) as [[a|e0] w1]; simpl; [done|]. by intros [= <-].
Qed.

(** Property X16.  No StorageError reaches the caller of the list.
    Whatever call of the class other than [clearStorage] throws, the
    exception is a ValidationError or a plain Error, never a
    StorageError: the one that [saveToStorage] builds is wrapped by the
    catch clause of the operation.  So the branch of [handleError] that
    prefixes "Storage error: " is never taken for these calls, and the
    message shown is the message of the exception as it is. *)
Theorem no_StorageError_reaches_the_caller p op w e context :
  op ≠ OpClearStorage ->
  call_error p op w = Some e ->
  instanceof_StorageError e = false
  ∧ handleError_message e context = message e.
Proof.
  intros Hop H.
  assert (Hs : instanceof_StorageError e = false).
  { destruct op; cbn [call_error] in H;
      first [ exact (thrown_rethrow_validation _ _ _ _ H)
            | exact (thrown_rethrow_wrapped _ _ _ _ H)
            | done ]. }
  split; [exact Hs|]. unfold handleError_message. rewrite Hs.
  by destruct (instanceof_ValidationError e).
Qed.

Lemma no_StorageError_reaches_the_caller_witness :
  let op := OpAddTodo (u16 "Feed cat") in
  let e := GenericError "Failed to add todo: Failed to save todos to storage: Failed to save todos to localStorage" in
  call_error full_storage_platform op two_todos = Some e
  ∧ instanceof_StorageError e = false
  ∧ handleError_message e "Failed to add todo" = message e.
Proof.
  intros op e. split; [vm_compute; reflexivity|].
  apply (no_StorageError_reaches_the_caller full_storage_platform op two_todos e).
  - discriminate.
  - vm_compute. reflexivity.
Defined.

Lemma commit_fails_result {A} p context (a : A) w :
  write_fails p w (todos w) ->
  fst (commit p context a w)
  = Throw (GenericError (context +:+
             "Failed to save todos to storage: Failed to save todos to localStorage")).
Proof. intros H. by destruct (commit_fails p context a w H) as (w' & -> & _). Qed.

(** Property X17.  What the caller is told when the write fails.  For
    each mutating operation that gets as far as its persistence write,
    if that write fails the exception thrown is a plain Error whose
    message names the operation and then the two layers of the storage
    code; for [toggleTodo], which goes through [updateTodo], it names
    both operations. *)
Theorem write_failure_messages p w :
  let save := "Failed to save todos to storage: Failed to save todos to localStorage" in
  (∀ s, acceptable_text s ->
        write_fails p w (todos w ++ [new_todo p w s]) ->
        fst (addTodo p s w) = Throw (GenericError ("Failed to add todo: " +:+ save)))
  ∧ (∀ i u before t after,
        usable_id i -> first_with_id i (todos w) before t after ->
        match updates_text u with Some s => acceptable_text s | None => True end ->
        write_fails p w (before ++ updated_todo p w u t :: after) ->
        fst (updateTodo p i u w) = Throw (GenericError ("Failed to update todo: " +:+ save)))
  ∧ (∀ i before t after,
        usable_id i -> first_with_id i (todos w) before t after ->
        write_fails p w (before ++ touch (Date_now p (clock_reads w)) (negb (completed t)) t :: after) ->
        fst (toggleTodo p i w)
        = Throw (GenericError ("Failed to toggle todo: Failed to update todo: " +:+ save)))
  ∧ (∀ i before t after,
        usable_id i -> first_with_id i (todos w) before t after ->
        write_fails p w (before ++ after) ->
        fst (deleteTodo p i w) = Throw (GenericError ("Failed to delete todo: " +:+ save)))
  ∧ (write_fails p w (filter_pending (todos w)) ->
     fst (deleteCompletedTodos p w)
     = Throw (GenericError ("Failed to delete completed todos: " +:+ save)))
  ∧ (write_fails p w [] ->
     fst (clearAll p w) = Throw (GenericError ("Failed to clear all todos: " +:+ save)))
  ∧ (∀ s elements,
        JSON_parse s = Some (JArray elements) ->
        write_fails p w (validTodos_of p elements) ->
        fst (importTodos p s w) = Throw (GenericError ("Failed to import todos: " +:+ save))).
Proof.
  intros save. split; [|split; [|split; [|split; [|split; [|split]]]]].
  - intros s Hs Hw. rewrite (addTodo_accepted p s w Hs). by apply commit_fails_result.
  - intros i u before t after Hi Hf Hu Hw.
    rewrite (updateTodo_found p i u w before t after Hi Hf Hu). by apply commit_fails_result.
  - intros i before t after Hi Hf Hw.
    rewrite (toggleTodo_found p i w before t after Hi Hf). cbv zeta.
    rewrite touch_updated. by apply commit_fails_result.
  - intros i before t after Hi Hf Hw.
    rewrite (deleteTodo_found p i w before t after Hi Hf). by apply commit_fails_result.
  - intros Hw. rewrite deleteCompletedTodos_commit. by apply commit_fails_result.
  - intros Hw. rewrite clearAll_commit. by apply commit_fails_result.
  - intros s elements Hp Hw. rewrite (importTodos_array p s w elements Hp).
    by apply commit_fails_result.
Qed.

Lemma write_failure_messages_witness :
  let p := full_storage_platform in
  let w := two_todos in
  fst (addTodo p (u16 "Feed cat") w)
  = Throw (GenericError "Failed to add todo: Failed to save todos to storage: Failed to save todos to localStorage")
  ∧ fst (updateTodo p (id milk) no_updates w)
    = Throw (GenericError "Failed to update todo: Failed to save todos to storage: Failed to save todos to localStorage")
  ∧ fst (toggleTodo p (id milk) w)
    = Throw (GenericError "Failed to toggle todo: Failed to update todo: Failed to save todos to storage: Failed to save todos to localStorage")
  ∧ fst (deleteTodo p (id milk) w)
    = Throw (GenericError "Failed to delete todo: Failed to save todos to storage: Failed to save todos to localStorage")
  ∧ fst (deleteCompletedTodos p w)
    = Throw (GenericError "Failed to delete completed todos: Failed to save todos to storage: Failed to save todos to localStorage")
  ∧ fst (clearAll p w)
    = Throw (GenericError "Failed to clear all todos: Failed to save todos to storage: Failed to save todos to localStorage")
  ∧ fst (importTodos p (u16 "[]") w)
    = Throw (GenericError "Failed to import todos: Failed to save todos to storage: Failed to save todos to localStorage").
Proof.
  intros p w.
  destruct (write_failure_messages p w) as (Hadd & Hupd & Htog & Hdel & Hdc & Hclr & Himp).
  assert (Hfail : ∀ l, write_fails p w l) by (intros l; right; reflexivity).
  split; [apply Hadd; [split; [vm_compute; discriminate | vm_compute; lia] | apply Hfail]|].
  split; [apply (Hupd (id milk) no_updates [] milk [dog]); [apply milk_id_usable | apply milk_is_first | exact I | apply Hfail]|].
  split; [apply (Htog (id milk) [] milk [dog]); [apply milk_id_usable | apply milk_is_first | apply Hfail]|].
  split; [apply (Hdel (id milk) [] milk [dog]); [apply milk_id_usable | apply milk_is_first | apply Hfail]|].
  split; [apply Hdc, Hfail|].
  split; [apply Hclr, Hfail|].
  apply (Himp (u16 "[]") []); [vm_compute; reflexivity | apply Hfail].
Defined.

(** ** Importing *)

(** Property X18.  [importTodos] refuses what is not an array.  For a
    string that [JSON.parse] rejects, or that is JSON but not an array,
    the call throws a plain Error and changes nothing: the collection
    stays and nothing is written.  For JSON that is not an array the
    message is that of the check in the code, behind the prefix of the
    catch clause. *)
Theorem importTodos_refuses_non_arrays p s w :
  (∀ elements, JSON_parse s ≠ Some (JArray elements)) ->
  ∃ msg, importTodos p s w = (Throw (GenericError msg), w)
         ∧ (JSON_parse s ≠ None ->
            msg = "Failed to import todos: Invalid data format: expected an array of todos").
Proof.
  intros H. unfold importTodos, try_catch, bind.
  destruct (JSON_parse s) as [[]|] eqn:E;
    try (eexists; split; [reflexivity|]; intros _; reflexivity).
  - by destruct (H elements).
  - eexists. split; [reflexivity|]. done.
Qed.

Lemma importTodos_refuses_non_arrays_witness :
  (∃ msg, importTodos example_platform (json_text "{'id':'a1'}") two_todos
          = (Throw (GenericError msg), two_todos)
          ∧ msg = "Failed to import todos: Invalid data format: expected an array of todos")
  ∧ ∃ msg, importTodos example_platform (json_text "[{'id':'a1'},]") two_todos
           = (Throw (GenericError msg), two_todos).
Proof.
  split.
  - destruct (importTodos_refuses_non_arrays example_platform (json_text "{'id':'a1'}") two_todos)
      as (msg & H1 & H2).
    + intros elements H. vm_compute in H. discriminate.
    + exists msg. split; [exact H1|]. apply H2. vm_compute. discriminate.
  - destruct (importTodos_refuses_non_arrays example_platform (json_text "[{'id':'a1'},]") two_todos)
      as (msg & H1 & _).
    + intros elements H. vm_compute in H. discriminate.
    + exists msg. exact H1.
Defined.

Lemma validTodos_of_omap p elements :
  validTodos_of p elements = omap (imported_todo p) elements.
Proof.
  induction elements as [|j elements IH]; [done|]. cbn [validTodos_of omap list_omap].
  rewrite <- IH.
  assert (H : isValidTodo j = false -> imported_todo p j = None).
  { unfold isValidTodo, imported_todo. destruct j as [| | | | |members]; try done.
    destruct (get_property (u16 "id") members) as [[]|]; try done.
    destruct (get_property (u16 "text") members) as [[]|]; try done.
    destruct (get_property (u16 "completed") members) as [[]|]; try done.
    destruct (get_property (u16 "createdAt") members) as [[]|]; try done.
    destruct (get_property (u16 "updatedAt") members) as [[]|]; try done. }
  destruct (isValidTodo j); [by destruct (imported_todo p j) | by rewrite H].
Qed.

Lemma validTodos_of_length p elements :
  (length (validTodos_of p elements) ≤ length elements)%nat.
Proof.
  induction elements as [|j elements IH]; [done|]. cbn [validTodos_of].
  destruct (isValidTodo j); [destruct (imported_todo p j)|]; simpl; lia.
Qed.

(** Property X19.  [importTodos] replaces the collection.  For a string
    that parses to an array, the collection afterwards holds, in the
    order of the array, one record for each element that has the five
    properties at their types, and nothing else: the records held before
    are gone, elements that do not qualify are skipped without an error,
    and the same input gives the same collection whatever was held
    before.  When the persistence write goes through, the call returns
    the number of records kept, which is at most the number of
    elements; and when every element that is kept has the five
    properties and no other, in the order of the interface, the stored
    collection is the one in memory. *)
Theorem importTodos_replaces p s elements w :
  JSON_parse s = Some (JArray elements) ->
  let w' := snd (importTodos p s w) in
  todos w' = omap (imported_todo p) elements
  ∧ (length (todos w') ≤ length elements)%nat
  ∧ (∀ w0, todos (snd (importTodos p s w0)) = todos w')
  ∧ (write_succeeds p w (todos w') ->
     fst (importTodos p s w) = Ok (length (todos w'))
     ∧ (Forall (fun todo => isValidTodo todo = true -> interface_shaped todo) elements ->
        in_sync w')).
Proof.
  intros Hp w'.
  assert (Ht : ∀ w0, todos (snd (importTodos p s w0)) = omap (imported_todo p) elements).
  { intros w0. rewrite (importTodos_array p s w0 elements Hp).
    destruct (commit_frame p "Failed to import todos: " (length (validTodos_of p elements))
                (with_todos (validTodos_of p elements) w0)) as (Ht & _).
    rewrite Ht. simpl. apply validTodos_of_omap. }
  subst w'. split; [apply Ht|].
  split; [rewrite Ht, <- validTodos_of_omap; apply validTodos_of_length|].
  split; [intros w0; by rewrite !Ht|].
  rewrite Ht. intros Hw. rewrite (importTodos_array p s w elements Hp).
  rewrite <- validTodos_of_omap in *.
  rewrite commit_succeeds by exact Hw. split; [reflexivity|]. intros _. reflexivity.
Qed.

Lemma importTodos_replaces_witness :
  let s := json_text "[{'id':'a1','text':'Feed cat','completed':true,'createdAt':'2024-01-01T00:00:00.000Z','updatedAt':'2024-01-02T00:00:00.000Z'}, 7, {'id':'a2'}]" in
  let w' := snd (importTodos example_platform s two_todos) in
  todos w' = [{| id := u16 "a1"; text := u16 "Feed cat"; completed := true;
                 createdAt := ValidDate 1704067200000; updatedAt := ValidDate 1704153600000 |}]
  ∧ (length (todos w') ≤ 3)%nat
  ∧ (∀ w0, todos (snd (importTodos example_platform s w0)) = todos w')
  ∧ fst (importTodos example_platform s two_todos) = Ok (length (todos w'))
  ∧ in_sync w'.
Proof.
  intros s w'.
  destruct (importTodos_replaces example_platform s
              [JObject [(u16 "id", JString (u16 "a1")); (u16 "text", JString (u16 "Feed cat"));
                        (u16 "completed", JBool true);
                        (u16 "createdAt", JString (u16 "2024-01-01T00:00:00.000Z"));
                        (u16 "updatedAt", JString (u16 "2024-01-02T00:00:00.000Z"))];
               JNumber (u16 "7"); JObject [(u16 "id", JString (u16 "a2"))]] two_todos)
    as (H1 & H2 & H3 & H4).
  - vm_compute. reflexivity.
  - split; [exact H1|]. split; [exact H2|]. split; [exact H3|].
    destruct H4 as [H4 H5].
    + rewrite H1. split; [|reflexivity]. repeat constructor; discriminate.
    + split; [exact H4|]. apply H5.
      constructor; [intros _; by repeat eexists|].
      constructor; [intros H; vm_compute in H; discriminate H|].
      constructor; [intros H; vm_compute in H; discriminate H|]. constructor.
Defined.

(** ** Strings: cleaning a text twice *)

Local Open Scope N_scope.

Lemma trimStart_clean s c r : s = c :: r -> isWhiteSpace c = false -> trimStart s = s.
Proof. intros -> H. simpl. by rewrite H. Qed.

Lemma trim_idemp s : trim (trim s) = trim s.
Proof.
  destruct (trim s) as [|c r] eqn:E; [reflexivity|].
  pose proof (trim_head s c r E) as Hc.
  unfold trim at 1. rewrite (trimStart_clean (c :: r) c r eq_refl Hc).
  assert (Hne : c :: r ≠ []) by done.
  destruct (exists_last Hne) as (r' & c' & Hr). rewrite Hr.
  rewrite trimEnd_snoc. rewrite Hr in E. by rewrite (trim_last s c' r' E).
Qed.

Lemma split_at_whitespace_clean s :
  Forall (Forall (fun c => isWhiteSpace c = false)) (split_at_whitespace s).
Proof.
  induction s as [|c s IH]; simpl; [by repeat constructor|].
  destruct (isWhiteSpace c) eqn:E; [by constructor|].
  destruct (split_at_whitespace s) as [|word rest]; [by repeat constructor|].
  inversion IH; subst. constructor; [by constructor | done].
Qed.

Lemma words_clean s :
  Forall (fun word => word ≠ [] ∧ Forall (fun c => isWhiteSpace c = false) word) (words s).
Proof.
  unfold words. apply Forall_forall. intros word Hw.
  apply list_elem_of_filter in Hw as [Hne Hin]. split; [exact Hne|].
  pose proof (split_at_whitespace_clean s) as H. rewrite Forall_forall in H. by apply H.
Qed.

Lemma words_word_then_space word rest :
  word ≠ [] -> Forall (fun c => isWhiteSpace c = false) word ->
  words (word ++ 32 :: rest) = word :: words rest.
Proof.
  intros Hne Hc. induction word as [|c word IH]; [done|].
  inversion Hc as [|? ? Hc1 Hc2]; subst.
  change ((c :: word) ++ 32 :: rest) with (c :: (word ++ 32 :: rest)).
  rewrite words_cons_word by exact Hc1.
  destruct word as [|c' word'].
  - simpl. rewrite words_cons_ws by reflexivity. reflexivity.
  - inversion Hc2 as [|? ? Hc' _]; subst.
    rewrite IH by done. cbn [app]. by rewrite Hc'.
Qed.

Lemma words_word word :
  word ≠ [] -> Forall (fun c => isWhiteSpace c = false) word -> words word = [word].
Proof.
  intros Hne Hc. induction word as [|c word IH]; [done|].
  inversion Hc as [|? ? Hc1 Hc2]; subst.
  rewrite words_cons_word by exact Hc1.
  destruct word as [|c' word']; [reflexivity|].
  inversion Hc2 as [|? ? Hc' _]; subst. rewrite Hc'. rewrite IH by done. reflexivity.
Qed.

Lemma words_join ws :
  Forall (fun word => word ≠ [] ∧ Forall (fun c => isWhiteSpace c = false) word) ws ->
  words (join_with [32] ws) = ws.
Proof.
  induction 1 as [|word ws [Hne Hc] Hws IH]; [reflexivity|].
  destruct ws as [|word' ws'].
  - simpl. by apply words_word.
  - change (join_with [32] (word :: word' :: ws'))
      with (word ++ 32 :: join_with [32] (word' :: ws')).
    rewrite words_word_then_space by done. by rewrite IH.
Qed.

Local Open Scope Z_scope.

(** Property X21.  A text that was cleaned is left alone.
    [sanitizeTodoText] applied to its own result gives that result back,
    and a result is never longer than the text it was computed from.  So
    the text of a record, once stored, is what every later cleaning of
    it would give. *)
Theorem sanitizeTodoText_idempotent s :
  sanitizeTodoText (sanitizeTodoText s) = sanitizeTodoText s
  ∧ (length (sanitizeTodoText s) ≤ length s)%nat.
Proof.
  split.
  - rewrite !sanitizeTodoText_collapsed. unfold collapsed_text.
    by rewrite (words_join (words s) (words_clean s)).
  - unfold sanitizeTodoText, replace_whitespace_runs.
    etrans; [apply replace_runs_length | apply trim_length].
Qed.

Lemma validateTodoText_trimmed s : trim s ≠ [] -> validateTodoText (trim s) = validateTodoText s.
Proof.
  intros H. unfold validateTodoText. rewrite trim_idemp.
  rewrite bool_decide_eq_false_2 by exact H.
  rewrite bool_decide_eq_false_2; [reflexivity|]. by intros ->.
Qed.

(** Property X22.  White space around the text makes no difference.  For
    every text that is not blank, [addTodo] with the trimmed text does
    what [addTodo] with the text itself does: the same result, the same
    world.  (The form handler of the application trims before it calls.) *)
Theorem addTodo_of_trimmed_text p s w :
  ¬ blank s -> addTodo p (trim s) w = addTodo p s w.
Proof.
  intros H. assert (Hne : trim s ≠ []) by (by rewrite trim_nil_iff).
  unfold addTodo. rewrite (validateTodoText_trimmed s Hne).
  unfold sanitizeTodoText. by rewrite trim_idemp.
Qed.

Lemma addTodo_of_trimmed_text_witness :
  addTodo example_platform (trim (u16 "  Buy   milk ")) empty_world
  = addTodo example_platform (u16 "  Buy   milk ") empty_world.
Proof.
  apply addTodo_of_trimmed_text. intros H. apply trim_nil_iff in H.
  vm_compute in H. discriminate H.
Defined.

(** ** Records made by the class itself *)

(** The collection after a call other than [importTodos]: what is left
    of the old one, the old one with a new record at its end, or the old
    one with one record replaced by its update. *)
Lemma run_todos p op w :
  ¬ is_import op ->
  sublist (todos (run p op w)) (todos w)
  ∨ (∃ s, todos (run p op w) = todos w ++ [new_todo p w s])
  ∨ (∃ before t after u,
       todos w = before ++ t :: after
       ∧ todos (run p op w) = before ++ updated_todo p w u t :: after).
Proof.
  intros Himp.
  destruct op as [s|i u|i|i| |f| | |s| | |i| | | | | ]; simpl; try (by left).
  - destruct (acceptable_text_dec s) as [Hs|Hs].
    2:{ destruct (addTodo_rejected p s w Hs) as [msg ->]. by left. }
    right. left. exists s. rewrite (addTodo_accepted p s w Hs).
    by destruct (commit_frame p "Failed to add todo: " (new_todo p w s)
                   (with_todos (todos w ++ [new_todo p w s])
                      (tick_clock (tick_clock (tick_random (tick_clock w))))))
      as (Ht & _).
  - destruct (usable_id_dec i) as [Hi|Hi].
    2:{ destruct (updateTodo_bad_id p i u w Hi) as [msg ->]. by left. }
    destruct (list_find (has_id i) (todos w)) as [[n t]|] eqn:Hfind.
    2:{ rewrite updateTodo_absent; [by left | exact Hi | by apply list_find_None in Hfind]. }
    destruct (list_find_split _ _ _ _ Hfind) as (before & after & Hf & _).
    assert (Hcase : match updates_text u with Some s => acceptable_text s | None => True end
                    ∨ ∃ s, updates_text u = Some s ∧ (trim s = [] ∨ (200 < length (trim s))%nat)).
    { destruct (updates_text u) as [s|]; [|by left].
      destruct (acceptable_text_dec s); [by left | right; eauto]. }
    destruct Hcase as [Hu|(s & Hs & Hbad)].
    2:{ destruct (updateTodo_bad_text p i u w before t after s Hi Hf Hs Hbad) as [msg ->].
        by left. }
    right. right. exists before, t, after, u.
    rewrite (updateTodo_found p i u w before t after Hi Hf Hu).
    destruct (commit_frame p "Failed to update todo: " (Some (updated_todo p w u t))
                (with_todos (before ++ updated_todo p w u t :: after) (tick_clock w)))
      as (Ht & _).
    destruct Hf as (Hl & _). by split.
  - destruct (usable_id_dec i) as [Hi|Hi].
    2:{ destruct (toggleTodo_bad_id p i w Hi) as [msg ->]. by left. }
    destruct (list_find (has_id i) (todos w)) as [[n t]|] eqn:Hfind.
    2:{ rewrite toggleTodo_absent; [by left | exact Hi | by apply list_find_None in Hfind]. }
    destruct (list_find_split _ _ _ _ Hfind) as (before & after & Hf & _).
    right. right. exists before, t, after, (set_completed (negb (completed t))).
    rewrite (toggleTodo_found p i w before t after Hi Hf). cbv zeta.
    destruct (commit_frame p "Failed to toggle todo: Failed to update todo: "
                (Some (updated_todo p w (set_completed (negb (completed t))) t))
                (with_todos (before ++ updated_todo p w (set_completed (negb (completed t))) t
                               :: after) (tick_clock w)))
      as (Ht & _).
    destruct Hf as (Hl & _). by split.
  - destruct (usable_id_dec i) as [Hi|Hi].
    2:{ destruct (deleteTodo_bad_id p i w Hi) as [msg ->]. by left. }
    destruct (list_find (has_id i) (todos w)) as [[n t]|] eqn:Hfind.
    2:{ rewrite deleteTodo_absent; [by left | exact Hi | by apply list_find_None in Hfind]. }
    destruct (list_find_split _ _ _ _ Hfind) as (before & after & Hf & _).
    left. rewrite (deleteTodo_todos p i w before t after Hi Hf).
    destruct Hf as (-> & _). apply sublist_app; [done|]. by apply sublist_cons.
  - left. rewrite deleteCompletedTodos_commit.
    destruct (commit_frame p "Failed to delete completed todos: "
                (length (todos w) - length (filter_pending (todos w)))%nat
                (with_todos (filter_pending (todos w)) w)) as (Ht & _).
    rewrite Ht. apply sublist_filter.
  - left. by destruct (setFilter_frame p f w) as [-> _].
  - left. rewrite clearAll_commit.
    destruct (commit_frame p "Failed to clear all todos: " tt (with_todos [] w)) as (Ht & _).
    rewrite Ht. apply sublist_nil_l.
  - left. apply sublist_nil_l.
  - left. by rewrite getTodoById_world.
Qed.

(** Property X23.  The records that the class makes itself are sound.
    In every world reached from the empty one by calls other than
    [importTodos], every record has an id that [validateId] lets through
    and two valid dates.  So each record can be addressed by its id, and
    a persistence write of the collection can only fail because
    [setItem] throws. *)
Theorem records_without_import_are_sound p w :
  reachable_via p (fun op => ¬ is_import op) w ->
  Forall (fun t => usable_id (id t) ∧ has_valid_dates t) (todos w)
  ∧ (write_fails p w (todos w) -> setItem_throws p (setItem_calls w) = true).
Proof.
  intros Hr.
  assert (H : Forall (fun t => usable_id (id t) ∧ has_valid_dates t) (todos w)).
  { induction Hr as [|w op Hr IH Himp]; [constructor|].
    destruct (run_todos p op w Himp) as [Hs|[(s & ->)|(before & t & after & u & Hl & ->)]].
    - by eapply Forall_of_sublist.
    - apply Forall_app. split; [exact IH|]. apply Forall_singleton.
      split; [apply next_id_usable | split; discriminate].
    - rewrite Hl in IH. apply Forall_app in IH as [Hb Ha].
      inversion Ha as [|? ? [Hi [Hc _]] Ha']; subst.
      apply Forall_app. split; [exact Hb|]. constructor; [|exact Ha'].
      split; [exact Hi|]. split; [exact Hc | discriminate]. }
  split; [exact H|]. intros [Hw|Hw]; [|exact Hw].
  exfalso. apply Hw. eapply Forall_impl; [exact H|]. by intros t [_ Ht].
Qed.

Lemma records_without_import_are_sound_witness :
  Forall (fun t => usable_id (id t) ∧ has_valid_dates t) (todos two_todos)
  ∧ (write_fails example_platform two_todos (todos two_todos) ->
     setItem_throws example_platform (setItem_calls two_todos) = true).
Proof.
  apply (records_without_import_are_sound example_platform two_todos).
  apply two_todos_via.
Defined.

(** ** Export followed by import, with invalid dates *)

Lemma validTodos_of_exported_filter p l :
  validTodos_of p (map Todo_toJSON l) = map (reparsed p) (filter has_valid_dates l).
Proof.
  induction l as [|t l IH]; [done|].
  cbn [map validTodos_of]. rewrite filter_cons.
  destruct (decide (has_valid_dates t)) as [Ht|Ht].
  - destruct (imported_exported p t Ht) as [Hv Hi]. rewrite Hv, Hi, IH. reflexivity.
  - by rewrite (exported_invalid_skipped t Ht).
Qed.

(** Property X24.  What an export followed by an import keeps.  In every
    world [exportTodos] returns, without changing anything, a string
    that [JSON.parse] reads as an array with one element for each
    record; [importTodos] on that string leaves exactly the records
    whose two dates are valid, in their order, each date re-read from
    its ISO string.  The records with an invalid date are dropped. *)
Theorem export_import_keeps_valid_dates p w :
  ∃ s, exportTodos w = (Ok s, w)
       ∧ JSON_parse s = Some (JArray (map Todo_toJSON (todos w)))
       ∧ todos (snd (importTodos p s w)) = map (reparsed p) (filter has_valid_dates (todos w)).
Proof.
  eexists. split; [apply exportTodos_text|].
  split; [apply JSON_parse_stringify_todos|].
  rewrite (importTodos_array p _ w _ (JSON_parse_stringify_todos (todos w))).
  destruct (commit_frame p "Failed to import todos: "
              (length (validTodos_of p (map Todo_toJSON (todos w))))
              (with_todos (validTodos_of p (map Todo_toJSON (todos w))) w)) as (Ht & _).
  rewrite Ht. simpl. apply validTodos_of_exported_filter.
Qed.

(** ** Clearing the completed records, then counting *)

(** Property X25.  The statistics after [deleteCompletedTodos].  Whether
    or not the write went through, [getStats] afterwards reports no
    completed record, and as total and as pending the number of records
    that were pending before. *)
Theorem deleteCompletedTodos_then_getStats p w :
  ∃ before after,
    getStats w = (Ok before, w)
    ∧ fst (getStats (snd (deleteCompletedTodos p w))) = Ok after
    ∧ stats_completed after = 0%nat
    ∧ total after = pending before
    ∧ pending after = pending before.
Proof.
  eexists. eexists. split; [apply getStats_value|].
  split; [rewrite getStats_value; reflexivity|].
  assert (Htodos : todos (snd (deleteCompletedTodos p w)) = filter_pending (todos w)).
  { rewrite deleteCompletedTodos_commit.
    by destruct (commit_frame p "Failed to delete completed todos: "
                   (length (todos w) - length (filter_pending (todos w)))%nat
                   (with_todos (filter_pending (todos w)) w)) as (H & _). }
  cbn [total stats_completed pending]. rewrite Htodos, filter_completed_pending.
  pose proof (filter_completed_length (todos w)) as Hlen.
  cbn [length]. split; [reflexivity|]. split; lia.
Qed.

(** ** A record with an invalid date *)

Lemma invalid_date_fails p w l t :
  t ∈ l -> ¬ has_valid_dates t -> write_fails p w l.
Proof.
  intros Hin Ht. left. intros H. rewrite Forall_forall in H. by apply Ht, H.
Qed.

(** Property X26.  A record with an invalid date blocks the writes.
    [StorageUtils.saveTodos] writes every record, and [toISOString]
    throws on an invalid date; so while the collection holds such a
    record (it can come from [importTodos] or from storage), [addTodo]
    with a text it accepts throws, [toggleTodo] and [deleteTodo] of
    another record throw, and [deleteCompletedTodos] throws if the
    record is pending: each time the change is made in memory and
    storage keeps what it held.  [clearAll] removes the record with the
    others, and is stored if [setItem] accepts the write. *)
Theorem invalid_date_blocks_writes p w t :
  t ∈ todos w ->
  ¬ has_valid_dates t ->
  (∀ s, acceptable_text s ->
        raised_unsaved (addTodo p s w) w (todos w ++ [new_todo p w s]))
  ∧ (∀ i before x after,
       usable_id i -> first_with_id i (todos w) before x after -> t ∈ before ++ after ->
       raised_unsaved (toggleTodo p i w) w
         (before ++ touch (Date_now p (clock_reads w)) (negb (completed x)) x :: after)
       ∧ raised_unsaved (deleteTodo p i w) w (before ++ after))
  ∧ (completed t = false ->
     raised_unsaved (deleteCompletedTodos p w) w (filter_pending (todos w)))
  ∧ (setItem_throws p (setItem_calls w) = false ->
     ∃ w', clearAll p w = (Ok tt, w') ∧ todos w' = [] ∧ in_sync w').
Proof.
  intros Hin Ht. split; [|split; [|split]].
  - intros s Hs. rewrite (addTodo_accepted p s w Hs).
    apply (commit_raised p _ _ w
             (with_todos (todos w ++ [new_todo p w s])
                (tick_clock (tick_clock (tick_random (tick_clock w)))))); [done|done|].
    apply (invalid_date_fails p _ _ t); [|exact Ht]. simpl.
    apply elem_of_app. by left.
  - intros i before x after Hi Hf Hx. split.
    + rewrite (toggleTodo_found p i w before x after Hi Hf). cbv zeta.
      rewrite touch_updated.
      apply (commit_raised p _ _ w
               (with_todos (before ++ touch (Date_now p (clock_reads w)) (negb (completed x)) x
                              :: after) (tick_clock w))); [done|done|].
      apply (invalid_date_fails p _ _ t); [|exact Ht]. simpl.
      apply elem_of_app in Hx as [Hx|Hx]; apply elem_of_app; [by left|].
      right. apply elem_of_cons. by right.
    + rewrite (deleteTodo_found p i w before x after Hi Hf).
      apply (commit_raised p _ _ w (with_todos (before ++ after) w)); [done|done|].
      by apply (invalid_date_fails p _ _ t).
  - intros Hc. rewrite deleteCompletedTodos_commit.
    apply (commit_raised p _ _ w (with_todos (filter_pending (todos w)) w)); [done|done|].
    apply (invalid_date_fails p _ _ t); [|exact Ht]. simpl.
    by apply filter_pending_elem.
  - intros Hs. rewrite clearAll_commit.
    rewrite commit_succeeds by (split; [constructor | exact Hs]).
    eexists. split; [reflexivity|]. split; reflexivity.
Qed.

Lemma invalid_date_blocks_writes_witness :
  ∃ t, todos invalid_date_world = [t]
       ∧ raised_unsaved (addTodo example_platform (u16 "Feed cat") invalid_date_world)
           invalid_date_world
           (todos invalid_date_world ++ [new_todo example_platform invalid_date_world (u16 "Feed cat")])
       ∧ raised_unsaved (deleteCompletedTodos example_platform invalid_date_world)
           invalid_date_world (filter_pending (todos invalid_date_world))
       ∧ ∃ w', clearAll example_platform invalid_date_world = (Ok tt, w')
               ∧ todos w' = [] ∧ in_sync w'.
Proof.
  eexists. split; [vm_compute; reflexivity|].
  destruct (invalid_date_blocks_writes example_platform invalid_date_world
              {| id := u16 "a1"; text := u16 "Buy milk"; completed := false;
                 createdAt := InvalidDate; updatedAt := InvalidDate |})
    as (Hadd & _ & Hdc & Hclr).
  - vm_compute. constructor.
  - intros [H _]. by apply H.
  - split; [apply Hadd; split; [vm_compute; discriminate | vm_compute; lia]|].
    split; [apply Hdc; reflexivity|]. apply Hclr. reflexivity.
Defined.


(** ** The application: what the page shows *)

Lemma shows_same pg w w' :
  todos w' = todos w -> currentFilter w' = currentFilter w -> shows pg w -> shows pg w'.
Proof. unfold shows. by intros -> ->. Qed.

Lemma render_shows a :
  ∃ pg, render a = (Ok tt, {| todoList := todoList a; page := pg |})
        ∧ shows pg (todoList a)
        ∧ todoInput pg = todoInput (page a)
        ∧ alerts pg = alerts (page a)
        ∧ filterButtons pg = filterButtons (page a).
Proof.
  destruct a as [w pg].
  unfold render, renderTodoList, renderStatistics, updateClearCompletedButton, updateEmptyState,
    app_bind, app_ret, page_gets, page_modify, call.
  cbn [todoList page]. unfold shows.
  destruct pg as [inp [c|] [t|] [cm|] [pn|] btns [cl|] [es|] al]; cbn;
    (eexists; split; [reflexivity|]; cbn;
     repeat split; try done; intros ? [= <-]; reflexivity).
Qed.

Lemma shows_with_alerts v pg w : shows pg w -> shows (with_alerts v pg) w.
Proof. done. Qed.

Lemma shows_with_todoInput v pg w : shows pg w -> shows (with_todoInput v pg) w.
Proof. done. Qed.

Lemma shows_with_filterButtons v pg w : shows pg w -> shows (with_filterButtons v pg) w.
Proof. done. Qed.

(** ** The application: the handlers *)

Lemma handleAddTodo_idle p a :
  todoInput (page a) = None ∨ (∃ v, todoInput (page a) = Some v ∧ blank v) ->
  handleAddTodo p a = (Ok tt, a).
Proof.
  unfold handleAddTodo, app_bind, page_gets, app_ret.
  intros [->|(v & -> & Hv)]; [reflexivity|].
  apply trim_nil_iff in Hv. by rewrite Hv.
Qed.

Lemma handleAddTodo_calls p a v :
  todoInput (page a) = Some v -> ¬ blank v ->
  handleAddTodo p a =
    match addTodo p (trim v) (todoList a) with
    | (Ok t, w') =>
        (showSuccessMessage
           (u16 "Todo " ++ [34%N] ++ text t ++ [34%N] ++ u16 " added successfully!"))
          (snd (render {| todoList := w'; page := with_todoInput (Some []) (page a) |}))
    | (Throw e, w') =>
        (Ok tt, {| todoList := w';
                   page := with_alerts [danger (handleError_message e "Failed to add todo")]
                             (page a) |})
    end.
Proof.
  intros Hi Hv. unfold handleAddTodo, app_bind at 1, page_gets. rewrite Hi.
  rewrite bool_decide_eq_false_2 by (by rewrite trim_nil_iff).
  unfold app_try_catch, app_bind, call, page_modify. cbn [todoList page].
  destruct (addTodo p (trim v) (todoList a)) as [[t|e] w']; [|reflexivity].
  cbn [todoList page].
  destruct (render_shows {| todoList := w'; page := with_todoInput (Some []) (page a) |})
    as (pg & Hr & _). rewrite Hr. reflexivity.
Qed.

Lemma new_todo_trimmed p w v : new_todo p w (trim v) = new_todo p w v.
Proof. unfold new_todo, sanitizeTodoText. by rewrite trim_idemp. Qed.

Lemma acceptable_text_trimmed v : acceptable_text v -> acceptable_text (trim v).
Proof. unfold acceptable_text. by rewrite trim_idemp. Qed.

Lemma acceptable_not_blank v : acceptable_text v -> ¬ blank v.
Proof. intros [H _]. by rewrite <- trim_nil_iff. Qed.

(** Property X27.  What submitting the form does.  With no input
    element, or a value that is empty or white space only, nothing
    happens: no call, no message.  With a value whose trimmed form is
    longer than 200 code units the list is not touched, the value stays
    in the input, and the alert holds the message of the validation.
    With any other value, when the persistence write goes through and
    no id of the list holds a quotation mark (so that every item gets
    its two controls and [render] does not throw), the record is
    appended with the words of the value separated by single spaces as
    its text, the input is emptied, the page is rendered again, and
    [showMessage] is given, with the type success, the string that
    names the text of the new record between quotation marks; that
    string goes into the markup of the alert as it is, not escaped. *)
Theorem handleAddTodo_outcomes p a :
  (todoInput (page a) = None ∨ (∃ v, todoInput (page a) = Some v ∧ blank v) ->
   handleAddTodo p a = (Ok tt, a))
  ∧ (∀ v, todoInput (page a) = Some v -> (200 < length (trim v))%nat ->
       handleAddTodo p a
       = (Ok tt, {| todoList := todoList a;
                    page := with_alerts [danger "Todo text cannot exceed 200 characters"]
                              (page a) |}))
  ∧ (∀ v, todoInput (page a) = Some v -> acceptable_text v ->
       let t := new_todo p (todoList a) v in
       write_succeeds p (todoList a) (todos (todoList a) ++ [t]) ->
       Forall (fun x => quote_free (id x)) (todos (todoList a) ++ [t]) ->
       ∃ a', handleAddTodo p a = (Ok tt, a')
             ∧ todos (todoList a') = todos (todoList a) ++ [t]
             ∧ text t = collapsed_text v
             ∧ todoInput (page a') = Some []
             ∧ alerts (page a')
               = [{| alert_type := alert_success;
                     alert_message := u16 "Todo " ++ [34%N] ++ collapsed_text v ++ [34%N]
                                        ++ u16 " added successfully!" |}]
             ∧ shows (page a') (todoList a')).
Proof.
  split; [apply handleAddTodo_idle|]. split.
  - intros v Hi Hlen.
    assert (Hnb : ¬ blank v).
    { rewrite <- trim_nil_iff. intros E. rewrite E in Hlen. simpl in Hlen. lia. }
    rewrite (handleAddTodo_calls p a v Hi Hnb).
    unfold addTodo, try_catch, bind, validateTodoText. rewrite trim_idemp.
    rewrite bool_decide_eq_false_2 by (by rewrite trim_nil_iff).
    cbv zeta.
    replace (length (trim v) =? 0)%nat with false
      by (symmetry; apply Nat.eqb_neq; lia).
    replace (200 <? length (trim v))%nat with true
      by (symmetry; by apply Nat.ltb_lt).
    reflexivity.
  - intros v Hi Hv t Hw _.
    rewrite (handleAddTodo_calls p a v Hi (acceptable_not_blank v Hv)).
    rewrite (addTodo_accepted p (trim v) (todoList a) (acceptable_text_trimmed v Hv)).
    rewrite new_todo_trimmed. fold t.
    rewrite commit_succeeds by exact Hw.
    match goal with
    | |- context [render ?x] => destruct (render_shows x) as (pg & Hr & Hs & Hin & _)
    end.
    rewrite Hr. cbn [snd]. eexists. split; [reflexivity|]. cbn.
    split; [reflexivity|]. split; [apply sanitizeTodoText_collapsed|].
    split; [exact Hin|]. split.
    + unfold t. cbn. by rewrite sanitizeTodoText_collapsed.
    + exact Hs.
Qed.

Lemma handleAddTodo_outcomes_witness :
  let a := example_app two_todos "  Feed   the cat " in
  let t := new_todo example_platform (todoList a) (u16 "  Feed   the cat ") in
  handleAddTodo example_platform (example_app two_todos "   ") = (Ok tt, example_app two_todos "   ")
  ∧ ∃ a', handleAddTodo example_platform a = (Ok tt, a')
          ∧ todos (todoList a') = todos (todoList a) ++ [t]
          ∧ text t = collapsed_text (u16 "  Feed   the cat ")
          ∧ todoInput (page a') = Some []
          ∧ alerts (page a')
            = [{| alert_type := alert_success;
                  alert_message := u16 "Todo " ++ [34%N]
                                     ++ collapsed_text (u16 "  Feed   the cat ") ++ [34%N]
                                     ++ u16 " added successfully!" |}]
          ∧ shows (page a') (todoList a').
Proof.
  intros a t. split.
  - apply (handleAddTodo_outcomes example_platform (example_app two_todos "   ")).
    right. eexists. split; [reflexivity|]. unfold blank. simpl. repeat constructor.
  - destruct (handleAddTodo_outcomes example_platform a) as (_ & _ & H).
    apply (H (u16 "  Feed   the cat ")).
    + reflexivity.
    + split; [vm_compute; discriminate | vm_compute; lia].
    + split; [|reflexivity]. vm_compute. repeat constructor; discriminate.
    + apply (bool_decide_unpack (Forall (fun x => quote_free (id x)) _)).
      vm_compute. exact I.
Defined.

Lemma handleToggleTodo_calls p i a :
  handleToggleTodo p i a =
    match toggleTodo p i (todoList a) with
    | (Ok (Some t), w') =>
        (showSuccessMessage
           (u16 "Todo marked as " ++ (if completed t then u16 "completed" else u16 "pending")
              ++ u16 "!"))
          (snd (render {| todoList := w'; page := page a |}))
    | (Ok None, w') => (Ok tt, {| todoList := w'; page := page a |})
    | (Throw e, w') =>
        (Ok tt, {| todoList := w';
                   page := with_alerts [danger (handleError_message e "Failed to toggle todo")]
                             (page a) |})
    end.
Proof.
  unfold handleToggleTodo, app_try_catch, app_bind, call, app_ret.
  destruct (toggleTodo p i (todoList a)) as [[[t|]|e] w']; [|reflexivity|reflexivity].
  destruct (render_shows {| todoList := w'; page := page a |}) as (pg & Hr & _).
  rewrite Hr. reflexivity.
Qed.

Lemma handleDeleteTodo_calls p i a :
  handleDeleteTodo p i a =
    match deleteTodo p i (todoList a) with
    | (Ok true, w') =>
        (showSuccessMessage (u16 "Todo deleted successfully!"))
          (snd (render {| todoList := w'; page := page a |}))
    | (Ok false, w') => (Ok tt, {| todoList := w'; page := page a |})
    | (Throw e, w') =>
        (Ok tt, {| todoList := w';
                   page := with_alerts [danger (handleError_message e "Failed to delete todo")]
                             (page a) |})
    end.
Proof.
  unfold handleDeleteTodo, app_try_catch, app_bind, call, app_ret.
  destruct (deleteTodo p i (todoList a)) as [[[|]|e] w']; [|reflexivity|reflexivity].
  destruct (render_shows {| todoList := w'; page := page a |}) as (pg & Hr & _).
  rewrite Hr. reflexivity.
Qed.

Lemma handleClearCompleted_calls p a :
  handleClearCompleted p a =
    match deleteCompletedTodos p (todoList a) with
    | (Ok deletedCount, w') =>
        if (0 <? deletedCount)%nat then
          (showSuccessMessage (Number_toString deletedCount ++ u16 " completed todo(s) cleared!"))
            (snd (render {| todoList := w'; page := page a |}))
        else
          (Ok tt, {| todoList := w';
                     page := with_alerts [{| alert_type := alert_info;
                                             alert_message := u16 "No completed todos to clear." |}]
                               (page a) |})
    | (Throw e, w') =>
        (Ok tt, {| todoList := w';
                   page := with_alerts
                             [danger (handleError_message e "Failed to clear completed todos")]
                             (page a) |})
    end.
Proof.
  unfold handleClearCompleted, app_try_catch, app_bind, call, app_ret.
  destruct (deleteCompletedTodos p (todoList a)) as [[n|e] w']; [|reflexivity].
  destruct (0 <? n)%nat; [|reflexivity].
  destruct (render_shows {| todoList := w'; page := page a |}) as (pg & Hr & _).
  rewrite Hr. reflexivity.
Qed.

Lemma handleFilterChange_idle p filter a :
  filter = None ∨ filter = Some [] -> handleFilterChange p filter a = (Ok tt, a).
Proof. by intros [-> | ->]. Qed.

Lemma handleFilterChange_calls p f a :
  f ≠ [] ->
  handleFilterChange p (Some f) a =
    match setFilter p f (todoList a) with
    | (Ok _, w') =>
        render {| todoList := w';
                  page := with_filterButtons
                            (map (fun btn => (fst btn, bool_decide (fst btn = Some f)))
                               (filterButtons (page a)))
                            (page a) |}
    | (Throw e, w') =>
        (Ok tt, {| todoList := w';
                   page := with_alerts [danger (handleError_message e "Failed to change filter")]
                             (page a) |})
    end.
Proof.
  intros Hf. unfold handleFilterChange. rewrite bool_decide_eq_false_2 by exact Hf.
  unfold app_try_catch, app_bind, call, updateFilterButtons, page_modify.
  destruct (setFilter p f (todoList a)) as [[[]|e] w']; [|reflexivity].
  cbn [todoList page].
  match goal with
  | |- context [render ?x] => destruct (render_shows x) as (pg & Hr & _)
  end.
  rewrite Hr. reflexivity.
Qed.

Lemma commit_fails_world {A} p context (a : A) w :
  write_fails p w (todos w) ->
  ∃ w', commit p context a w =
          (Throw (GenericError (context +:+
             "Failed to save todos to storage: Failed to save todos to localStorage")), w')
        ∧ todos w' = todos w.
Proof. intros H. destruct (commit_fails p context a w H) as (w' & Hc & Ht & _). eauto. Qed.

(** Property X28.  A write that fails leaves the page behind the list.
    When the persistence write of a handler's call fails, the record is
    added, flipped or removed in memory all the same, yet the page is
    not rendered again: it is what it was, input included, except for
    the alert, which shows the chained message of the failed call. *)
Theorem failed_write_leaves_page_stale p a :
  let w := todoList a in
  let save := "Failed to save todos to storage: Failed to save todos to localStorage" in
  (∀ v, todoInput (page a) = Some v -> acceptable_text v ->
        let l := todos w ++ [new_todo p w v] in
        write_fails p w l ->
        let a' := snd (handleAddTodo p a) in
        todos (todoList a') = l
        ∧ page a' = with_alerts [danger ("Failed to add todo: " +:+ save)] (page a))
  ∧ (∀ i before t after,
        usable_id i -> first_with_id i (todos w) before t after ->
        let l := before ++ touch (Date_now p (clock_reads w)) (negb (completed t)) t :: after in
        write_fails p w l ->
        let a' := snd (handleToggleTodo p i a) in
        todos (todoList a') = l
        ∧ page a'
          = with_alerts [danger ("Failed to toggle todo: Failed to update todo: " +:+ save)]
              (page a))
  ∧ (∀ i before t after,
        usable_id i -> first_with_id i (todos w) before t after ->
        let l := before ++ after in
        write_fails p w l ->
        let a' := snd (handleDeleteTodo p i a) in
        todos (todoList a') = l
        ∧ page a' = with_alerts [danger ("Failed to delete todo: " +:+ save)] (page a))
  ∧ (let l := filter_pending (todos w) in
     write_fails p w l ->
     let a' := snd (handleClearCompleted p a) in
     todos (todoList a') = l
     ∧ page a'
       = with_alerts [danger ("Failed to delete completed todos: " +:+ save)] (page a)).
Proof.
  intros w save. split; [|split; [|split]].
  - intros v Hi Hv l Hw a'. subst a'.
    rewrite (handleAddTodo_calls p a v Hi (acceptable_not_blank v Hv)).
    rewrite (addTodo_accepted p (trim v) (todoList a) (acceptable_text_trimmed v Hv)).
    rewrite new_todo_trimmed.
    match goal with
    | |- context [commit p ?c ?x ?w1] =>
        destruct (commit_fails_world p c x w1) as (w' & -> & Ht); [exact Hw|]
    end.
    cbn. split; [exact Ht | reflexivity].
  - intros i before t after Hi Hf l Hw a'. subst a'.
    rewrite handleToggleTodo_calls.
    rewrite (toggleTodo_found p i (todoList a) before t after Hi Hf). cbv zeta.
    rewrite touch_updated.
    match goal with
    | |- context [commit p ?c ?x ?w1] =>
        destruct (commit_fails_world p c x w1) as (w' & -> & Ht); [exact Hw|]
    end.
    cbn. split; [exact Ht | reflexivity].
  - intros i before t after Hi Hf l Hw a'. subst a'.
    rewrite handleDeleteTodo_calls.
    rewrite (deleteTodo_found p i (todoList a) before t after Hi Hf).
    match goal with
    | |- context [commit p ?c ?x ?w1] =>
        destruct (commit_fails_world p c x w1) as (w' & -> & Ht); [exact Hw|]
    end.
    cbn. split; [exact Ht | reflexivity].
  - intros l Hw a'. subst a'.
    rewrite handleClearCompleted_calls. rewrite deleteCompletedTodos_commit.
    match goal with
    | |- context [commit p ?c ?x ?w1] =>
        destruct (commit_fails_world p c x w1) as (w' & -> & Ht); [exact Hw|]
    end.
    cbn. split; [exact Ht | reflexivity].
Qed.

Lemma failed_write_leaves_page_stale_witness :
  let p := full_storage_platform in
  let a := example_app two_todos "Feed cat" in
  (let a' := snd (handleAddTodo p a) in
   todos (todoList a') = todos (todoList a) ++ [new_todo p (todoList a) (u16 "Feed cat")]
   ∧ page a'
     = with_alerts [danger "Failed to add todo: Failed to save todos to storage: Failed to save todos to localStorage"]
         (page a))
  ∧ (let a' := snd (handleDeleteTodo p (id milk) a) in
     todos (todoList a') = [] ++ [dog]
     ∧ page a'
       = with_alerts [danger "Failed to delete todo: Failed to save todos to storage: Failed to save todos to localStorage"]
           (page a)).
Proof.
  intros p a.
  destruct (failed_write_leaves_page_stale p a) as (Hadd & _ & Hdel & _).
  split.
  - apply (Hadd (u16 "Feed cat")).
    + reflexivity.
    + split; [vm_compute; discriminate | vm_compute; lia].
    + right. reflexivity.
  - apply (Hdel (id milk) [] milk [dog]).
    + apply milk_id_usable.
    + apply milk_is_first.
    + right. reflexivity.
Defined.

(** Property X29.  A click on a record that is gone.  When the list
    holds no record with the id of the item that was clicked (as happens
    on a page left behind by a failed write), neither the checkbox nor
    the delete button does anything: the list and the page stay as they
    are, and no alert tells the user. *)
Theorem clicks_on_missing_records_are_ignored p a i :
  usable_id i ->
  Forall (fun x => id x ≠ i) (todos (todoList a)) ->
  handleToggleTodo p i a = (Ok tt, a) ∧ handleDeleteTodo p i a = (Ok tt, a).
Proof.
  intros Hi Hn. rewrite handleToggleTodo_calls, handleDeleteTodo_calls.
  rewrite (toggleTodo_absent p i _ Hi Hn), (deleteTodo_absent p i _ Hi Hn).
  by destruct a.
Qed.

Lemma clicks_on_missing_records_are_ignored_witness :
  let a := snd (handleDeleteTodo full_storage_platform (id milk) (example_app two_todos "Feed cat")) in
  handleToggleTodo full_storage_platform (id milk) a = (Ok tt, a)
  ∧ handleDeleteTodo full_storage_platform (id milk) a = (Ok tt, a).
Proof.
  intros a.
  apply (clicks_on_missing_records_are_ignored full_storage_platform a (id milk)).
  - apply milk_id_usable.
  - vm_compute. repeat constructor; discriminate.
Defined.


(** ** The application while storage works *)

Lemma filter_pending_nothing_completed l :
  length (filter_completed l) = 0%nat -> filter_pending l = l.
Proof.
  unfold filter_completed, filter_pending. induction l as [|t l IH]; [done|].
  rewrite !filter_cons. repeat case_decide; destruct (completed t); simpl in *; try tauto.
  - discriminate.
  - intros Hl. by rewrite IH.
Qed.

Section Working.
Variable p : Platform.
Hypothesis storage_accepts : ∀ n, setItem_throws p n = false.

Lemma commit_working {A} context (a : A) w :
  Forall has_valid_dates (todos w) ->
  commit p context a w = (Ok a, saved (todos w) w).
Proof. intros H. apply commit_succeeds. split; [exact H | apply storage_accepts]. Qed.

Lemma addTodo_working s w :
  Forall has_valid_dates (todos w) ->
  match addTodo p s w with
  | (Ok _, w') => Forall has_valid_dates (todos w')
  | (Throw _, w') => w' = w
  end.
Proof.
  intros Hv. destruct (acceptable_text_dec s) as [Hs|Hs].
  2:{ by destruct (addTodo_rejected p s w Hs) as [msg ->]. }
  assert (Hl : Forall has_valid_dates (todos w ++ [new_todo p w s])).
  { apply Forall_app. split; [exact Hv|]. apply Forall_singleton. split; discriminate. }
  rewrite (addTodo_accepted p s w Hs). rewrite commit_working by exact Hl. exact Hl.
Qed.

Lemma replaced_valid before (t : Todo) after t' :
  Forall has_valid_dates (before ++ t :: after) ->
  has_valid_dates t' ->
  Forall has_valid_dates (before ++ t' :: after).
Proof.
  intros H Ht. apply Forall_app in H as [Hb Ha]. inversion Ha; subst.
  apply Forall_app. split; [exact Hb|]. by constructor.
Qed.

Lemma toggleTodo_working i w :
  Forall has_valid_dates (todos w) ->
  match toggleTodo p i w with
  | (Ok (Some _), w') => Forall has_valid_dates (todos w')
  | (_, w') => w' = w
  end.
Proof.
  intros Hv. destruct (usable_id_dec i) as [Hi|Hi].
  2:{ by destruct (toggleTodo_bad_id p i w Hi) as [msg ->]. }
  destruct (list_find (has_id i) (todos w)) as [[n t]|] eqn:Hfind.
  2:{ apply list_find_None in Hfind. by rewrite (toggleTodo_absent p i w Hi Hfind). }
  destruct (list_find_split _ _ _ _ Hfind) as (before & after & Hf & _).
  rewrite (toggleTodo_found p i w before t after Hi Hf). cbv zeta.
  set (t' := updated_todo p w (set_completed (negb (completed t))) t).
  assert (Hl : Forall has_valid_dates (before ++ t' :: after)).
  { destruct Hf as (Hl & _). rewrite Hl in Hv. apply (replaced_valid before t after t' Hv).
    apply Forall_app in Hv as [_ Ha]. inversion Ha as [|? ? [Hc _] _]; subst.
    split; [exact Hc | discriminate]. }
  rewrite commit_working by exact Hl. exact Hl.
Qed.

Lemma deleteTodo_working i w :
  Forall has_valid_dates (todos w) ->
  match deleteTodo p i w with
  | (Ok true, w') => Forall has_valid_dates (todos w')
  | (_, w') => w' = w
  end.
Proof.
  intros Hv. destruct (usable_id_dec i) as [Hi|Hi].
  2:{ by destruct (deleteTodo_bad_id p i w Hi) as [msg ->]. }
  destruct (list_find (has_id i) (todos w)) as [[n t]|] eqn:Hfind.
  2:{ apply list_find_None in Hfind. by rewrite (deleteTodo_absent p i w Hi Hfind). }
  destruct (list_find_split _ _ _ _ Hfind) as (before & after & Hf & _).
  rewrite (deleteTodo_found p i w before t after Hi Hf).
  assert (Hl : Forall has_valid_dates (before ++ after)).
  { destruct Hf as (Hl & _). rewrite Hl in Hv. apply Forall_app in Hv as [Hb Ha].
    inversion Ha; subst. apply Forall_app. by split. }
  rewrite commit_working by exact Hl. exact Hl.
Qed.

Lemma deleteCompletedTodos_working w :
  Forall has_valid_dates (todos w) ->
  match deleteCompletedTodos p w with
  | (Ok n, w') =>
      Forall has_valid_dates (todos w')
      ∧ ((0 <? n)%nat = false -> todos w' = todos w ∧ currentFilter w' = currentFilter w)
  | (Throw _, _) => False
  end.
Proof.
  intros Hv. rewrite deleteCompletedTodos_commit.
  assert (Hl : Forall has_valid_dates (filter_pending (todos w))).
  { eapply Forall_of_sublist; [apply sublist_filter | exact Hv]. }
  rewrite commit_working by exact Hl. split; [exact Hl|].
  intros Hn. apply Nat.ltb_ge in Hn. simpl. split; [|reflexivity].
  apply filter_pending_nothing_completed.
  rewrite <- filter_pending_completed_length. lia.
Qed.

Lemma setFilter_working f w :
  match setFilter p f w with
  | (Ok _, w') => todos w' = todos w
  | (Throw _, w') => w' = w
  end.
Proof.
  destruct (valid_filter_dec f) as [Hf|Hf].
  - by rewrite (setFilter_stored p f w Hf (storage_accepts _)).
  - by rewrite (setFilter_invalid p f w Hf).
Qed.

Lemma rendered_ok w pg msg type :
  Forall has_valid_dates (todos w) ->
  page_ok (snd (showMessage msg type (snd (render {| todoList := w; page := pg |})))).
Proof.
  intros Hv. destruct (render_shows {| todoList := w; page := pg |}) as (pg' & -> & Hs & _).
  split; [exact Hs | exact Hv].
Qed.

Lemma after_event_ok ev a : page_ok a -> page_ok (after_event p ev a).
Proof.
  intros [Hs Hv]. destruct ev as [value| |filter|i|i| ]; cbn [after_event].
  - destruct (todoInput (page a)); by split.
  - destruct (todoInput (page a)) as [v|] eqn:Hi.
    2:{ rewrite handleAddTodo_idle by (by left). by split. }
    destruct (decide (trim v = [])) as [Hb|Hb].
    { rewrite handleAddTodo_idle; [by split|]. right. exists v. by rewrite <- trim_nil_iff. }
    rewrite (handleAddTodo_calls p a v Hi) by (by rewrite <- trim_nil_iff).
    pose proof (addTodo_working (trim v) (todoList a) Hv) as Hw.
    destruct (addTodo p (trim v) (todoList a)) as [[t|e] w'].
    + by apply rendered_ok.
    + subst w'. by split.
  - destruct filter as [f|]; [|by split].
    destruct (decide (f = [])) as [->|Hf]; [by split|].
    rewrite (handleFilterChange_calls p f a Hf).
    pose proof (setFilter_working f (todoList a)) as Hw.
    destruct (setFilter p f (todoList a)) as [[[]|e] w'].
    + match goal with
      | |- context [render ?x] => destruct (render_shows x) as (pg' & -> & Hs' & _)
      end.
      split; [exact Hs' | simpl; by rewrite Hw].
    + subst w'. by split.
  - rewrite handleToggleTodo_calls.
    pose proof (toggleTodo_working i (todoList a) Hv) as Hw.
    destruct (toggleTodo p i (todoList a)) as [[[t|]|e] w'].
    + by apply rendered_ok.
    + subst w'. by split.
    + subst w'. by split.
  - rewrite handleDeleteTodo_calls.
    pose proof (deleteTodo_working i (todoList a) Hv) as Hw.
    destruct (deleteTodo p i (todoList a)) as [[[|]|e] w'].
    + by apply rendered_ok.
    + subst w'. by split.
    + subst w'. by split.
  - rewrite handleClearCompleted_calls.
    pose proof (deleteCompletedTodos_working (todoList a) Hv) as Hw.
    destruct (deleteCompletedTodos p (todoList a)) as [[n|e] w']; [|done].
    destruct Hw as [Hv' Hsame]. destruct (0 <? n)%nat.
    + by apply rendered_ok.
    + destruct (Hsame eq_refl) as [Ht Hc]. split; [|exact Hv'].
      simpl. by apply (shows_same _ (todoList a)).
Qed.

Lemma app_reachable_ok document a : app_reachable p document a -> page_ok a.
Proof.
  induction 1 as [a Hstart|a ev Hr IH]; [|by apply after_event_ok].
  unfold TodoApp_constructor in Hstart.
  destruct (render_shows {| todoList := empty_world; page := document |})
    as (pg & Hrender & Hs & _).
  change (TodoList_constructor p empty_world) with (Ok (Typed tt), empty_world) in Hstart.
  cbv iota in Hstart. rewrite Hrender in Hstart. injection Hstart as <-.
  split; [exact Hs | constructor].
Qed.

End Working.

(** Property X30.  While storage works the page shows the list.  In a
    session that starts with nothing in storage, on a platform whose
    [setItem] never throws, after [new TodoApp()] and after every event
    (typing, submitting the form, a click on a filter button, on a
    checkbox, on a delete button, on the button that clears the
    completed records) the items in the list are the records that the
    current filter selects, in their order, the three counters are the
    statistics of the collection, the button that clears is visible
    exactly when some record is completed, and the empty state exactly
    when no item is listed. *)
Theorem page_shows_the_list p document a :
  (∀ n, setItem_throws p n = false) ->
  app_reachable p document a ->
  shows (page a) (todoList a).
Proof. intros Hs Hr. by destruct (app_reachable_ok p Hs document a Hr). Qed.

Lemma page_shows_the_list_witness :
  let a0 := snd (render {| todoList := empty_world; page := example_document |}) in
  let a := after_event example_platform (click_filter (Some (u16 "pending")))
             (after_event example_platform submit_form
                (after_event example_platform (type_text (u16 " Buy   milk ")) a0)) in
  shows (page a) (todoList a).
Proof.
  intros a0 a.
  apply (page_shows_the_list example_platform example_document a).
  - reflexivity.
  - apply app_event, app_event, app_event, app_started. reflexivity.
Defined.
